(** * Session processing pipeline of the study-insights backend

    A shallow embedding of [src/index.js] and [src/schemas/insights.schema.js]:
    JavaScript strings, the two regular-expression replacements that strip
    fenced code-block markers, [JSON.parse], the zod schemas, the two
    generators, and the session pipeline together with the route handlers
    that start it. *)

From Stdlib Require Import NArith ZArith Lia Bool String Ascii.
From stdpp Require Import base option list gmap.

Local Open Scope list_scope.

(** ** JavaScript strings

    A JavaScript string is a sequence of UTF-16 code units; [.length]
    counts code units. *)

Module JsString.

Definition jsstring := list N.

(** A source literal made of ASCII characters. *)
Fixpoint js (s : string) : jsstring :=
  match s with
  | EmptyString => []
  | String a r => N_of_ascii a :: js r
  end.

(** [WhiteSpace] and [LineTerminator] of ECMAScript: what
    [String.prototype.trim] removes and what [\s] matches. *)
Definition is_ws (c : N) : bool :=
  ((9 <=? c) && (c <=? 13) || (c =? 32) || (c =? 160) || (c =? 5760)
   || (8192 <=? c) && (c <=? 8202) || (c =? 8232) || (c =? 8233)
   || (c =? 8239) || (c =? 8287) || (c =? 12288) || (c =? 65279))%N.

Fixpoint trimStart (s : jsstring) : jsstring :=
  match s with
  | c :: r => if is_ws c then trimStart r else s
  | [] => []
  end.

Definition trimEnd (s : jsstring) : jsstring := rev (trimStart (rev s)).

Definition trim (s : jsstring) : jsstring := trimEnd (trimStart s).

Fixpoint startsWith (s p : jsstring) {struct p} : bool :=
  match p, s with
  | [], _ => true
  | a :: p', b :: s' => (a =? b)%N && startsWith s' p'
  | _ :: _, [] => false
  end.

(** [x || d] for a string [x]: the empty string is falsy. *)
Definition or_else (x d : jsstring) : jsstring :=
  match x with [] => d | _ => x end.

End JsString.
Export JsString.

(** ** Regular expressions (the fragment used by the source)

    A backtracking matcher in continuation-passing style, with the greedy
    priorities of ECMAScript: [r?] tries [r] first, a starred class takes
    as many characters as it can and gives them back one at a time. *)

Module Regex.

Inductive regex :=
| Eps                      (* the empty pattern *)
| Bol                      (* ^ (no m flag: start of input) *)
| Eol                      (* $ (no m flag: end of input) *)
| Chr (c : N)              (* a literal character *)
| Seq (r1 r2 : regex)
| Opt (r : regex)          (* (?:r)? *)
| Star (p : N -> bool).    (* c* for a one-character class c *)

Fixpoint word (w : jsstring) : regex :=
  match w with
  | [] => Eps
  | c :: r => Seq (Chr c) (word r)
  end.

(** Canonicalize of ECMAScript without the u flag, as far as a comparison
    with an ASCII pattern character can tell: an ASCII letter is
    upper-cased, and a code unit of 128 or more never canonicalizes to
    an ASCII one. *)
Definition canonicalize (c : N) : N :=
  if ((97 <=? c) && (c <=? 122))%N then (c - 32)%N else c.

Definition chr_eq (ignoreCase : bool) (a b : N) : bool :=
  if ignoreCase then (canonicalize a =? canonicalize b)%N else (a =? b)%N.

(** A position: whether it is the start of the input, and what follows. *)
Definition pos := (bool * jsstring)%type.

Section Matcher.
Context {A : Type}.
Variable ignoreCase : bool.

Fixpoint star (p : N -> bool) (k : pos -> option A) (b : bool) (s : jsstring)
  : option A :=
  match s with
  | c :: r =>
      if p c then
        match star p k false r with
        | Some x => Some x
        | None => k (b, s)
        end
      else k (b, s)
  | [] => k (b, s)
  end.

Fixpoint m (r : regex) (st : pos) (k : pos -> option A) : option A :=
  match r with
  | Eps => k st
  | Bol => if fst st then k st else None
  | Eol => match snd st with [] => k st | _ => None end
  | Chr c =>
      match snd st with
      | d :: rest => if chr_eq ignoreCase c d then k (false, rest) else None
      | [] => None
      end
  | Seq r1 r2 => m r1 st (fun st' => m r2 st' k)
  | Opt r1 =>
      match m r1 st k with
      | Some x => Some x
      | None => k st
      end
  | Star p => star p k (fst st) (snd st)
  end.
End Matcher.

(** The leftmost match: the text before it and the text after it. *)
Fixpoint search (ignoreCase : bool) (r : regex) (b : bool)
    (before_rev s : jsstring) : option (jsstring * jsstring) :=
  match m ignoreCase r (b, s) (fun st => Some (snd st)) with
  | Some rest => Some (rev before_rev, rest)
  | None =>
      match s with
      | [] => None
      | c :: s' => search ignoreCase r false (c :: before_rev) s'
      end
  end.

(** [s.replace(/r/, repl)] without the g flag: the first match only. *)
Definition replace (ignoreCase : bool) (r : regex) (repl s : jsstring)
  : jsstring :=
  match search ignoreCase r true [] s with
  | Some (before, after) => before ++ repl ++ after
  | None => s
  end.

End Regex.

(** ** ModelOutputSanitizer ([generateInsightsFromTranscript], lines 507-512) *)

Module Sanitizer.
Import Regex.

Definition fence : jsstring := js "```".

(** [/^```(?:json)?\s*/i] *)
Definition open_fence : regex :=
  Seq Bol (Seq (word fence) (Seq (Opt (word (js "json"))) (Star is_ws))).

(** [/\s*```$/] *)
Definition close_fence : regex :=
  Seq (Star is_ws) (Seq (word fence) Eol).

Definition sanitize (raw : jsstring) : jsstring :=
  let raw := trim raw in
  if startsWith raw fence then
    let raw := replace true open_fence [] raw in
    replace false close_fence [] raw
  else raw.

(** A fenced block: the opening marker, a tag or none, white space, the
    text, white space, the closing marker. *)
Definition fenced (tag ws1 inner ws2 : jsstring) : jsstring :=
  fence ++ tag ++ ws1 ++ inner ++ ws2 ++ fence.

(** [s] begins with [p], letter case apart or not. *)
Fixpoint begins (ignoreCase : bool) (s p : jsstring) {struct p} : bool :=
  match p, s with
  | [], _ => true
  | a :: p', b :: s' => chr_eq ignoreCase a b && begins ignoreCase s' p'
  | _ :: _, [] => false
  end.

(** What [(?:json)?] leaves of a text. *)
Definition strip_tag (s : jsstring) : jsstring :=
  if begins true s (js "json") then drop 4 s else s.

End Sanitizer.

(** ** JSON values and [JSON.parse] *)

Module Json.

(** A number is kept as its lexeme: the double it denotes is a function
    of the lexeme, and nothing in the program looks inside a number. *)
#[warnings="-register-all"]
Inductive json :=
| JNull
| JBool (b : bool)
| JNum (lexeme : jsstring)
| JStr (s : jsstring)
| JArr (items : list json)
| JObj (props : list (jsstring * json)).

(** [a === b] on strings. *)
Fixpoint jsstring_eqb (a b : jsstring) : bool :=
  match a, b with
  | [], [] => true
  | x :: a', y :: b' => (x =? y)%N && jsstring_eqb a' b'
  | _, _ => false
  end.

(** Own-property lookup, [o[k]]; [None] is [undefined]. *)
Fixpoint get_prop (k : jsstring) (props : list (jsstring * json)) : option json :=
  match props with
  | [] => None
  | (k', v) :: r => if jsstring_eqb k k' then Some v else get_prop k r
  end.

(** [o[k] = v]: an existing property keeps its place, a new one goes last. *)
Fixpoint set_prop (k : jsstring) (v : json) (props : list (jsstring * json))
  : list (jsstring * json) :=
  match props with
  | [] => [(k, v)]
  | (k', v') :: r =>
      if jsstring_eqb k k' then (k', v) :: r else (k', v') :: set_prop k v r
  end.

Inductive presult (A : Type) :=
| POk (a : A)
| PSyntax          (* SyntaxError *)
| PFuel.           (* the recursion bound was reached *)
Arguments POk {A} a.
Arguments PSyntax {A}.
Arguments PFuel {A}.

Definition is_json_ws (c : N) : bool :=
  ((c =? 32) || (c =? 9) || (c =? 10) || (c =? 13))%N.

Fixpoint skip_ws (s : jsstring) : jsstring :=
  match s with
  | c :: r => if is_json_ws c then skip_ws r else s
  | [] => []
  end.

Definition is_digit (c : N) : bool := ((48 <=? c) && (c <=? 57))%N.

Definition hex_value (c : N) : option N :=
  if is_digit c then Some (c - 48)%N
  else if ((97 <=? c) && (c <=? 102))%N then Some (c - 87)%N
  else if ((65 <=? c) && (c <=? 70))%N then Some (c - 55)%N
  else None.

Definition hex4 (a b c d : N) : option N :=
  match hex_value a, hex_value b, hex_value c, hex_value d with
  | Some x, Some y, Some z, Some w => Some (((x * 16 + y) * 16 + z) * 16 + w)%N
  | _, _, _, _ => None
  end.

Definition simple_escape (e : N) : option N :=
  if (e =? 34)%N then Some 34%N            (* an escaped quote *)
  else if (e =? 92)%N then Some 92%N       (* an escaped backslash *)
  else if (e =? 47)%N then Some 47%N       (* an escaped slash *)
  else if (e =? 98)%N then Some 8%N        (* b: backspace *)
  else if (e =? 102)%N then Some 12%N      (* f: form feed *)
  else if (e =? 110)%N then Some 10%N      (* n: line feed *)
  else if (e =? 114)%N then Some 13%N      (* r: carriage return *)
  else if (e =? 116)%N then Some 9%N       (* t: tab *)
  else None.

(** The characters of a string after its opening quote, up to and
    including the closing quote. *)
Fixpoint parse_chars (s acc_rev : jsstring) : option (jsstring * jsstring) :=
  match s with
  | [] => None
  | c :: r =>
      if (c =? 34)%N then Some (rev acc_rev, r)
      else if (c =? 92)%N then
        match r with
        | [] => None
        | e :: r1 =>
            if (e =? 117)%N then
              match r1 with
              | a :: b :: x :: d :: r2 =>
                  match hex4 a b x d with
                  | Some u => parse_chars r2 (u :: acc_rev)
                  | None => None
                  end
              | _ => None
              end
            else
              match simple_escape e with
              | Some u => parse_chars r1 (u :: acc_rev)
              | None => None
              end
        end
      else if (c <? 32)%N then None
      else parse_chars r (c :: acc_rev)
  end.

Fixpoint span_digits (s : jsstring) : jsstring * jsstring :=
  match s with
  | c :: r =>
      if is_digit c then let '(d, r') := span_digits r in (c :: d, r')
      else ([], s)
  | [] => ([], [])
  end.

(** An optional minus sign, then 0 or a non-zero digit and digits. *)
Definition parse_int (s : jsstring) : option (jsstring * jsstring) :=
  let '(sign, s1) :=
    match s with
    | c :: r => if (c =? 45)%N then ([c], r) else ([], s)
    | [] => ([], s)
    end in
  match s1 with
  | c :: r =>
      if (c =? 48)%N then Some (sign ++ [c], r)
      else if is_digit c then
        let '(d, r') := span_digits r in Some (sign ++ c :: d, r')
      else None
  | [] => None
  end.

(** An optional fraction: a dot and at least one digit. *)
Definition parse_frac (s : jsstring) : option (jsstring * jsstring) :=
  match s with
  | c :: r =>
      if (c =? 46)%N then
        match span_digits r with
        | ([], _) => None
        | (d, r') => Some (c :: d, r')
        end
      else Some ([], s)
  | [] => Some ([], s)
  end.

(** An optional exponent: e or E, an optional sign, at least one digit. *)
Definition parse_exp (s : jsstring) : option (jsstring * jsstring) :=
  match s with
  | c :: r =>
      if ((c =? 101) || (c =? 69))%N then
        let '(sign, r1) :=
          match r with
          | g :: r0 => if ((g =? 43) || (g =? 45))%N then ([g], r0) else ([], r)
          | [] => ([], r)
          end in
        match span_digits r1 with
        | ([], _) => None
        | (d, r') => Some (c :: sign ++ d, r')
        end
      else Some ([], s)
  | [] => Some ([], s)
  end.

Definition parse_number (s : jsstring) : option (jsstring * jsstring) :=
  match parse_int s with
  | Some (i, s1) =>
      match parse_frac s1 with
      | Some (f, s2) =>
          match parse_exp s2 with
          | Some (e, s3) => Some (i ++ f ++ e, s3)
          | None => None
          end
      | None => None
      end
  | None => None
  end.

Definition after_prefix (p s : jsstring) : option jsstring :=
  if startsWith s p then Some (drop (length p) s) else None.

Fixpoint parse_value (fuel : nat) (s : jsstring) : presult (json * jsstring) :=
  match fuel with
  | O => PFuel
  | S f =>
      match skip_ws s with
      | [] => PSyntax
      | c :: r =>
          if (c =? 123)%N then                         (* { *)
            match skip_ws r with
            | d :: r' =>
                if (d =? 125)%N then POk (JObj [], r')
                else parse_members f [] r
            | [] => PSyntax
            end
          else if (c =? 91)%N then                     (* [ *)
            match skip_ws r with
            | d :: r' =>
                if (d =? 93)%N then POk (JArr [], r')
                else parse_elements f [] r
            | [] => PSyntax
            end
          else if (c =? 34)%N then                     (* a string *)
            match parse_chars r [] with
            | Some (str, r') => POk (JStr str, r')
            | None => PSyntax
            end
          else
            match after_prefix (js "true") (c :: r),
                  after_prefix (js "false") (c :: r),
                  after_prefix (js "null") (c :: r) with
            | Some r', _, _ => POk (JBool true, r')
            | _, Some r', _ => POk (JBool false, r')
            | _, _, Some r' => POk (JNull, r')
            | None, None, None =>
                match parse_number (c :: r) with
                | Some (n, r') => POk (JNum n, r')
                | None => PSyntax
                end
            end
      end
  end

(** The elements of an array, from the start of an element. *)
with parse_elements (fuel : nat) (acc_rev : list json) (s : jsstring)
  : presult (json * jsstring) :=
  match fuel with
  | O => PFuel
  | S f =>
      match parse_value f s with
      | POk (v, r) =>
          match skip_ws r with
          | d :: r' =>
              if (d =? 44)%N then parse_elements f (v :: acc_rev) r'
              else if (d =? 93)%N then POk (JArr (rev (v :: acc_rev)), r')
              else PSyntax
          | [] => PSyntax
          end
      | PSyntax => PSyntax
      | PFuel => PFuel
      end
  end

(** The members of an object, from before a key. *)
with parse_members (fuel : nat) (acc : list (jsstring * json)) (s : jsstring)
  : presult (json * jsstring) :=
  match fuel with
  | O => PFuel
  | S f =>
      match skip_ws s with
      | q :: r =>
          if (q =? 34)%N then
            match parse_chars r [] with
            | Some (key, r1) =>
                match skip_ws r1 with
                | colon :: r2 =>
                    if (colon =? 58)%N then
                      match parse_value f r2 with
                      | POk (v, r3) =>
                          match skip_ws r3 with
                          | d :: r4 =>
                              if (d =? 44)%N then
                                parse_members f (set_prop key v acc) r4
                              else if (d =? 125)%N then
                                POk (JObj (set_prop key v acc), r4)
                              else PSyntax
                          | [] => PSyntax
                          end
                      | PSyntax => PSyntax
                      | PFuel => PFuel
                      end
                    else PSyntax
                | [] => PSyntax
                end
            | None => PSyntax
            end
          else PSyntax
      | [] => PSyntax
      end
  end.

(** [JSON.parse(text)]: one value, surrounded by white space only. *)
Definition JSON_parse (text : jsstring) : presult json :=
  match parse_value (2 * length text + 1) text with
  | POk (v, rest) =>
      match skip_ws rest with
      | [] => POk v
      | _ :: _ => PSyntax
      end
  | PSyntax => PSyntax
  | PFuel => PFuel
  end.

(** A successful parse leaves less than it was given. *)
Definition shorter (res : presult (json * jsstring)) (s : jsstring) : Prop :=
  match res with
  | POk (_, r) => length r < length s
  | _ => True
  end.

(** The own properties of an object. *)
Definition fields (v : json) : list (jsstring * json) :=
  match v with JObj props => props | _ => [] end.

Definition fueled {A} (res : presult A) : Prop :=
  match res with PFuel => False | _ => True end.

End Json.
Export Json.

(** ** zod: the schema combinators the source uses, and [safeParse] *)

Module Zod.

#[warnings="-register-all"]
Inductive schema :=
| ZString (minLength : option nat)
| ZEnum (values : list jsstring)
| ZArray (element : schema) (minLength maxLength : option nat)
| ZObject (shape : list (jsstring * schema))
| ZNullable (inner : schema)
| ZOptional (inner : schema).

(** The builders, named as in the source. *)
Definition z_string : schema := ZString None.
Definition z_array (element : schema) : schema := ZArray element None None.
Definition z_object (shape : list (jsstring * schema)) : schema := ZObject shape.
Definition z_enum (values : list jsstring) : schema := ZEnum values.
Definition nullable (s : schema) : schema := ZNullable s.
Definition optional (s : schema) : schema := ZOptional s.

Definition min (n : nat) (s : schema) : schema :=
  match s with
  | ZString _ => ZString (Some n)
  | ZArray e _ hi => ZArray e (Some n) hi
  | _ => s
  end.

Definition max (n : nat) (s : schema) : schema :=
  match s with
  | ZArray e lo _ => ZArray e lo (Some n)
  | _ => s
  end.

Inductive path_item := Key (k : jsstring) | Index (i : nat).

Inductive issue_code := invalid_type | too_small | too_big | invalid_enum_value.

Record issue := Issue { code : issue_code; path : list path_item }.

Definition below (len : nat) (bound : option nat) : bool :=
  match bound with Some n => len <? n | None => false end.

Definition above (len : nat) (bound : option nat) : bool :=
  match bound with Some n => n <? len | None => false end.

Definition when (b : bool) (i : issue) : list issue := if b then [i] else [].

Definition parser := list path_item -> option json -> list issue * option json.

Section Parts.
(** The elements of an array against the element schema. *)
Variable element : parser.

Fixpoint parse_items (at_path : list path_item) (i : nat) (l : list json)
  : list issue * list json :=
  match l with
  | [] => ([], [])
  | x :: r =>
      let '(ix, ox) := element (at_path ++ [Index i]) (Some x) in
      let '(ir, or) := parse_items at_path (S i) r in
      (ix ++ ir, match ox with Some y => y :: or | None => or end)
  end.
End Parts.

Section Fields.
(** The keys of a shape, each read from the input object; keys of the
    input that the shape does not name are left out of the value built
    (the default, [strip]). *)
Variable field : schema -> parser.
Variable props : list (jsstring * json).

Fixpoint parse_fields (at_path : list path_item)
    (shape : list (jsstring * schema)) : list issue * list (jsstring * json) :=
  match shape with
  | [] => ([], [])
  | (k, sk) :: r =>
      let '(ik, ok) := field sk (at_path ++ [Key k]) (get_prop k props) in
      let '(ir, or) := parse_fields at_path r in
      (ik ++ ir, match ok with Some y => (k, y) :: or | None => or end)
  end.
End Fields.

(** [_parse]: the issues raised and the value built. The input [None]
    is [undefined] (a property that is absent); the value built is
    [undefined] for an absent optional property, and is not looked at
    when an issue was raised. *)
Fixpoint parse (s : schema) (at_path : list path_item) (input : option json)
  : list issue * option json :=
  match s with
  | ZString lo =>
      match input with
      | Some (JStr str) =>
          (when (below (length str) lo) (Issue too_small at_path), input)
      | _ => ([Issue invalid_type at_path], None)
      end
  | ZEnum values =>
      match input with
      | Some (JStr str) =>
          (when (negb (existsb (jsstring_eqb str) values))
             (Issue invalid_enum_value at_path), input)
      | _ => ([Issue invalid_type at_path], None)
      end
  | ZArray element lo hi =>
      match input with
      | Some (JArr items) =>
          let '(inner, out) := parse_items (parse element) at_path 0 items in
          (when (below (length items) lo) (Issue too_small at_path)
           ++ when (above (length items) hi) (Issue too_big at_path)
           ++ inner,
           Some (JArr out))
      | _ => ([Issue invalid_type at_path], None)
      end
  | ZObject shape =>
      match input with
      | Some (JObj props) =>
          let '(inner, out) :=
            parse_fields (fun sk => parse sk) props at_path shape in
          (inner, Some (JObj out))
      | _ => ([Issue invalid_type at_path], None)
      end
  | ZNullable inner =>
      match input with
      | Some JNull => ([], Some JNull)
      | _ => parse inner at_path input
      end
  | ZOptional inner =>
      match input with
      | None => ([], None)
      | _ => parse inner at_path input
      end
  end.

Inductive SafeParseReturn :=
| success (data : option json)
| failure (errors : list issue).

Definition safeParse (s : schema) (input : json) : SafeParseReturn :=
  match parse s [] (Some input) with
  | ([], data) => success data
  | (errors, _) => failure errors
  end.

Definition accepts (s : schema) (input : json) : bool :=
  match safeParse s input with success _ => true | failure _ => false end.

Definition no_issue (l : list issue) : bool :=
  match l with [] => true | _ :: _ => false end.

End Zod.

(** ** The two schemas *)

Module Schemas.
Import Zod.

(** [src/schemas/insights.schema.js] *)
Definition InsightsSchema : schema :=
  z_object
    [ (js "summary", min 20 z_string);
      (js "keyConcepts", max 6 (min 1 (z_array z_string)));
      (js "flashcards",
        max 5 (z_array (z_object [ (js "question", min 5 z_string);
                                   (js "answer", min 5 z_string) ])));
      (js "actionItems", max 5 (min 1 (z_array z_string))) ].

Definition dated_item : schema :=
  z_object
    [ (js "text", z_string);
      (js "date", optional (nullable z_string));
      (js "priority",
        optional (nullable (z_enum [js "high"; js "med"; js "low"]))) ].

(** [OutlineSchema], [src/index.js] lines 385-407 *)
Definition OutlineSchema : schema :=
  z_object
    [ (js "highlights",
        z_array (z_object [ (js "text", z_string);
                            (js "category", z_string);
                            (js "reason", z_string) ]));
      (js "exams", z_array dated_item);
      (js "assignments", z_array dated_item) ].

End Schemas.

(** ** The providers and the two generators *)

Module Generators.
Import Zod Schemas Sanitizer.

(** What an awaited call gives back: a value, or an [Error] thrown with
    its [message]. *)
Inductive result (A : Type) :=
| Ok (value : A)
| Throw (message : jsstring).
Arguments Ok {A} value.
Arguments Throw {A} message.

(** A chat completion: for each of [response.choices], the [content] of
    its [message] ([None] is [null]). *)
Definition completion := list (option jsstring).

(** The requests sent to the provider. The prompt of a completion is a
    fixed text around the one argument recorded here. *)
Inductive call :=
| Transcription (audioPath : jsstring)
| InsightsCompletion (transcript : jsstring)
| OutlineCompletion (text : jsstring).

(** [generateInsightsFromTranscript], lines 501-528: from the response
    on. The two [TypeError]s carry the engine's message. *)
Definition insights_of_completion (response : completion) : result json :=
  match response with
  | [] => Throw (js "Cannot read properties of undefined (reading 'message')")
  | None :: _ => Throw (js "Cannot read properties of null (reading 'trim')")
  | Some raw :: _ =>
      match JSON_parse (sanitize raw) with
      | POk parsed =>
          match safeParse InsightsSchema parsed with
          | success _ => Ok parsed
          | failure _ => Throw (js "LLM output failed schema validation")
          end
      | _ => Throw (js "LLM returned invalid JSON")
      end
  end.

(** [response.choices[0]?.message?.content], or the empty string. *)
Definition content_or_empty (response : completion) : jsstring :=
  match response with
  | Some raw :: _ => raw
  | _ => []
  end.

(** [extractOutlineFromText], lines 420-436: from the response on. *)
Definition outline_of_completion (response : completion) : result json :=
  let raw := trim (content_or_empty response) in
  match JSON_parse raw with
  | POk parsed =>
      match safeParse OutlineSchema parsed with
      | success _ => Ok parsed
      | failure _ => Throw (js "Outline schema validation failed")
      end
  | _ => Throw (js "Invalid outline JSON")
  end.

(** [extractOutlineFromText]: the request, and the result once the
    provider has answered. *)
Definition extractOutlineFromText (text : jsstring)
    (answer : result completion) : list call * result json :=
  ([OutlineCompletion (take (N.to_nat 20000) text)],
   match answer with
   | Ok response => outline_of_completion response
   | Throw message => Throw message
   end).

End Generators.
Export Generators.

(** ** Sessions *)

Module Session.

Inductive session_status := processing | transcribed | ready | failed.

Record session := {
  id : jsstring;
  eventId : option jsstring;
  title : jsstring;
  audioPath : jsstring;
  audioFilename : jsstring;
  transcript : jsstring;
  insights : option json;
  status : session_status;
  progress : Z;
  error : option jsstring;
  createdAt : jsstring;
  processedAt : option jsstring
}.

(** The assignments the pipeline and the handlers make to a session. *)
Inductive assignment :=
| set_transcript (v : jsstring)
| set_insights (v : option json)
| set_status (v : session_status)
| set_progress (v : Z)
| set_error (v : option jsstring)
| set_processedAt (v : option jsstring).

Definition assign (a : assignment) (s : session) : session :=
  let '{| id := i; eventId := e; title := t; audioPath := ap;
          audioFilename := af; transcript := tr; insights := ins;
          status := st; progress := pr; error := er; createdAt := ca;
          processedAt := pa |} := s in
  match a with
  | set_transcript v => Build_session i e t ap af v ins st pr er ca pa
  | set_insights v => Build_session i e t ap af tr v st pr er ca pa
  | set_status v => Build_session i e t ap af tr ins v pr er ca pa
  | set_progress v => Build_session i e t ap af tr ins st v er ca pa
  | set_error v => Build_session i e t ap af tr ins st pr v ca pa
  | set_processedAt v => Build_session i e t ap af tr ins st pr er ca v
  end.

(** A synchronous block of assignments, run to its end. *)
Definition assign_all (ws : list assignment) (s : session) : session :=
  fold_left (fun s a => assign a s) ws s.

(** The session after each assignment of a block, in order. *)
Fixpoint trace (ws : list assignment) (s : session) : list session :=
  match ws with
  | [] => []
  | a :: r => assign a s :: trace r (assign a s)
  end.

(** [R] holds from [x] to the first of [l], and between neighbours. *)
Fixpoint chain {A} (R : A -> A -> Prop) (x : A) (l : list A) : Prop :=
  match l with
  | [] => True
  | y :: r => R x y /\ chain R y r
  end.

(** A change of status the state machine allows (or no change). *)
Definition status_step (a b : session_status) : Prop :=
  a = b \/ (a = processing /\ b = transcribed)
  \/ (a = transcribed /\ b = ready) \/ b = failed.

(** The fields no assignment touches are the same in both. *)
Definition same_identity (s s' : session) : Prop :=
  id s' = id s /\ audioPath s' = audioPath s /\ title s' = title s
  /\ eventId s' = eventId s /\ createdAt s' = createdAt s
  /\ audioFilename s' = audioFilename s.

Definition progress_value (z : Z) : Prop :=
  (z = 0 \/ z = 10 \/ z = 60 \/ z = 100)%Z.

End Session.
Export Session.

(** ** The processing pipeline *)

Module Pipeline.

Record environment := {
  OPENAI_API_KEY : option jsstring;        (* process.env.OPENAI_API_KEY *)
  existsSync : jsstring -> bool            (* fs.existsSync *)
}.

Definition has_key (env : environment) : bool :=
  match OPENAI_API_KEY env with
  | Some (_ :: _) => true
  | _ => false
  end.

(** Lines 300-310. *)
Definition fallback_insights : json :=
  JObj
    [ (js "summary",
        JStr (js "The recording did not contain enough audible content to generate insights."));
      (js "keyConcepts", JArr []);
      (js "flashcards", JArr []);
      (js "actionItems",
        JArr [ JStr (js "Re-record the session with clearer speech.");
               JStr (js "Ensure the microphone is close to the speaker.");
               JStr (js "Avoid long silences during recording.") ]) ].

(** [!transcript || transcript.trim().length < 20] *)
Definition too_short (transcript : jsstring) : bool :=
  match transcript with
  | [] => true
  | _ => length (trim transcript) <? 20
  end.

(** Where [processSession] is suspended. *)
Inductive awaiting := AwaitTranscription | AwaitInsights.

Inductive outcome :=
| Suspended (at_ : awaiting)
| Resolved
| Rejected (message : jsstring).

(** What runs between two awaits: the assignments made, the requests
    issued, and how the block ends. *)
Record block := {
  writes : list assignment;
  calls : list call;
  next : outcome
}.

(** Lines 286-290 with [transcribeAudioWithWhisper], lines 336-350: up
    to the request to the transcription provider. *)
Definition processSession_start (env : environment) (s : session) : block :=
  let w := [set_progress 10; set_status processing] in
  if negb (has_key env) then
    {| writes := w; calls := [];
       next := Rejected (js "Missing OPENAI_API_KEY in .env") |}
  else if negb (existsSync env (audioPath s)) then
    {| writes := w; calls := [];
       next := Rejected (js "Audio file not found: " ++ audioPath s) |}
  else
    {| writes := w; calls := [Transcription (audioPath s)];
       next := Suspended AwaitTranscription |}.

(** Line 352: [result], or the empty string, trimmed. *)
Definition transcript_of (result : jsstring) : jsstring := trim (or_else result []).

(** Lines 352-357 and 292-321: the transcription provider has answered. *)
Definition processSession_transcribed (answer : result jsstring)
    (now : jsstring) : block :=
  match answer with
  | Throw message => {| writes := []; calls := []; next := Rejected message |}
  | Ok text =>
      let transcript := transcript_of text in
      let w := [set_transcript transcript; set_progress 60;
                set_status transcribed] in
      if too_short transcript then
        {| writes := w ++ [set_insights (Some fallback_insights);
                           set_status ready; set_progress 100;
                           set_processedAt (Some now)];
           calls := [];
           next := Resolved |}
      else
        {| writes := w; calls := [InsightsCompletion transcript];
           next := Suspended AwaitInsights |}
  end.

(** Lines 501-528 and 323-328: the completion provider has answered. *)
Definition processSession_insights (answer : result completion)
    (now : jsstring) : block :=
  match answer with
  | Throw message => {| writes := []; calls := []; next := Rejected message |}
  | Ok response =>
      match insights_of_completion response with
      | Throw message => {| writes := []; calls := []; next := Rejected message |}
      | Ok insights =>
          {| writes := [set_insights (Some insights); set_progress 100;
                        set_status ready; set_processedAt (Some now)];
             calls := [];
             next := Resolved |}
      end
  end.

(** The callers' [.catch], lines 99-104 and 156-161. *)
Definition on_rejection (message : jsstring) : list assignment :=
  [set_status failed; set_progress 0;
   set_error (Some (or_else message (js "Unknown error")))].

(** A block followed, when it rejects, by the caller's handler, which
    runs before anything else can look at the session. *)
Definition settled (b : block) : list assignment :=
  writes b ++ match next b with
              | Rejected message => on_rejection message
              | _ => []
              end.

(** *** One run, from the call of [processSession] to its end, given
    what the providers answer *)

Record answers := {
  transcription : result jsstring;
  transcribed_at : jsstring;
  chat : result completion;
  completed_at : jsstring
}.

Definition then_ (b : block) (k : awaiting -> block) : block :=
  match next b with
  | Suspended a =>
      let b' := k a in
      {| writes := writes b ++ writes b'; calls := calls b ++ calls b';
         next := next b' |}
  | _ => b
  end.

Definition resume (ans : answers) (a : awaiting) : block :=
  match a with
  | AwaitTranscription =>
      processSession_transcribed (transcription ans) (transcribed_at ans)
  | AwaitInsights =>
      processSession_insights (chat ans) (completed_at ans)
  end.

Definition run (env : environment) (ans : answers) (s : session) : block :=
  then_ (then_ (processSession_start env s) (resume ans)) (resume ans).

End Pipeline.
Export Pipeline.

(** ** The server: the registry, the runs in flight and the handlers

    Sessions are objects on a heap; [DB.sessions] maps an id to one of
    them, and a run in flight holds the object it writes to. A step is
    what happens between two moments at which a request can read the
    registry: a handler up to its end (with the start of the run it
    launches), or the continuation of a run whose provider has answered,
    up to its next await or its end. *)

Module Server.

(** [POST /api/sessions]: [req.file] as ([path.resolve(req.file.path)],
    [req.file.filename]), and the two body fields read. *)
Record upload := {
  file : option (jsstring * jsstring);
  body_eventId : option jsstring;
  body_title : option jsstring
}.

(** A run in flight: the session [processSession] found in the registry,
    the session the handler that called it holds (its [.catch] writes
    there), and where the run is suspended. *)
Record task := { target : nat; owner : nat; waits : awaiting }.

Record server := {
  heap : list session;
  DB : gmap (list N) nat;
  tasks : list task;
  log : list call
}.

Definition initial : server :=
  {| heap := []; DB := ∅; tasks := []; log := [] |}.

(** Lines 76-95; [stamp] is [Date.now()] in decimal and [iso] is
    [new Date().toISOString()]. *)
Definition new_session (req : upload) (path filename stamp iso : jsstring)
  : session :=
  {| id := js "sess-" ++ stamp;
     eventId := match body_eventId req with
                | Some (c :: r) => Some (c :: r)
                | _ => None
                end;
     title := or_else (default [] (body_title req)) (js "Capture");
     audioPath := path;
     audioFilename := filename;
     transcript := [];
     insights := None;
     status := processing;
     progress := 0;
     error := None;
     createdAt := iso;
     processedAt := None |}.

(** Lines 149-154. *)
Definition reset : list assignment :=
  [set_status processing; set_progress 0; set_error None;
   set_transcript []; set_insights None; set_processedAt None].

(** A synchronous block of assignments to the session at an address. *)
Definition update (a : nat) (ws : list assignment) (h : list session)
  : list session :=
  match h !! a with
  | Some s => <[a := assign_all ws s]> h
  | None => h
  end.

(** A block of the run on [target], followed, when it rejects, by the
    handler of the caller, which writes to [owner]. *)
Definition apply_block (target owner : nat) (b : block) (h : list session)
  : list session :=
  let h1 := update target (writes b) h in
  match next b with
  | Rejected message => update owner (on_rejection message) h1
  | _ => h1
  end.

(** [DB.sessions[sid]] for an id of the registry: the address and the
    session registered under [sid], if any. The ids of sessions begin
    with [sess-], and [processSession] is only given such ids. Under
    another name the JavaScript object may also find a member of its
    prototype, which is no session: see [Endpoints.DB_sessions_at] for
    the routes that take the name from the request. *)
Definition find (srv : server) (sid : jsstring) : option (nat * session) :=
  match DB srv !! sid with
  | Some a =>
      match heap srv !! a with
      | Some s => Some (a, s)
      | None => None
      end
  | None => None
  end.

(** [processSession(sid).catch(...)] called by a handler that holds the
    session at [owner]: lines 283-284 look the session up, and the run
    goes up to its first await, or fails before it. *)
Definition launch (env : environment) (owner : nat) (sid : jsstring)
    (srv : server) : server :=
  match find srv sid with
  | None =>
      {| heap := update owner (on_rejection (js "Session not found")) (heap srv);
         DB := DB srv; tasks := tasks srv; log := log srv |}
  | Some (a, s) =>
      let b := processSession_start env s in
      {| heap := apply_block a owner b (heap srv);
         DB := DB srv;
         tasks := tasks srv ++ match next b with
                               | Suspended w =>
                                   [{| target := a; owner := owner; waits := w |}]
                               | _ => []
                               end;
         log := log srv ++ calls b |}
  end.

(** [POST /api/sessions], lines 71-112. *)
Definition post_session (env : environment) (req : upload)
    (stamp iso : jsstring) (srv : server) : server :=
  match file req with
  | None => srv
  | Some (path, filename) =>
      let s := new_session req path filename stamp iso in
      let a := length (heap srv) in
      launch env a (id s)
        {| heap := heap srv ++ [s]; DB := <[id s := a]> (DB srv);
           tasks := tasks srv; log := log srv |}
  end.

(** [POST /api/sessions/:id/reprocess], lines 145-164: what it does to
    the sessions and the runs. Given a name that is no id of the
    registry, it changes none of them: either it answers 404, or the
    name is one of the prototype chain, the six assignments go to what
    is found there, and the run it starts fails at once, as it finds no
    session. *)
Definition post_reprocess (env : environment) (sid : jsstring)
    (srv : server) : server :=
  match find srv sid with
  | None => srv
  | Some (a, s) =>
      launch env a (id s)
        {| heap := update a reset (heap srv); DB := DB srv;
           tasks := tasks srv; log := log srv |}
  end.

(** The run in flight at index [k] goes on with the block [b]. *)
Definition continue (k : nat) (t : task) (b : block) (srv : server) : server :=
  {| heap := apply_block (target t) (owner t) b (heap srv);
     DB := DB srv;
     tasks := match next b with
              | Suspended w =>
                  <[k := {| target := target t; owner := owner t;
                            waits := w |}]> (tasks srv)
              | _ => delete k (tasks srv)
              end;
     log := log srv ++ calls b |}.

Inductive event :=
| PostSession (env : environment) (req : upload) (stamp iso : jsstring)
| PostReprocess (env : environment) (sid : jsstring)
| TranscriptionAnswers (k : nat) (answer : result jsstring) (now : jsstring)
| CompletionAnswers (k : nat) (answer : result completion) (now : jsstring).

(** [None]: the event cannot happen (no such run is waiting for it). *)
Definition step (srv : server) (ev : event) : option server :=
  match ev with
  | PostSession env req stamp iso => Some (post_session env req stamp iso srv)
  | PostReprocess env sid => Some (post_reprocess env sid srv)
  | TranscriptionAnswers k answer now =>
      match tasks srv !! k with
      | Some t =>
          match waits t with
          | AwaitTranscription =>
              Some (continue k t (processSession_transcribed answer now) srv)
          | AwaitInsights => None
          end
      | None => None
      end
  | CompletionAnswers k answer now =>
      match tasks srv !! k with
      | Some t =>
          match waits t with
          | AwaitInsights =>
              Some (continue k t (processSession_insights answer now) srv)
          | AwaitTranscription => None
          end
      | None => None
      end
  end.

(** The block of [processSession] that a handler's call executes: the
    address of the session found, that session, and the block. *)
Definition started (env : environment) (sid : jsstring) (srv : server)
  : option (nat * session * block) :=
  match find srv sid with
  | Some (a, s) => Some (a, s, processSession_start env s)
  | None => None
  end.

(** The block [b] with which the run [t] goes on, and the session it
    finds. *)
Definition resumed (t : task) (b : block) (srv : server)
  : option (nat * session * block) :=
  match heap srv !! target t with
  | Some s => Some (target t, s, b)
  | None => None
  end.

(** The block of a run that a step executes, if any, with the address of
    the session it writes to and that session as the block finds it: for
    a handler that starts a run, once it has stored or cleared it. *)
Definition run_block (srv : server) (ev : event)
  : option (nat * session * block) :=
  match ev with
  | PostSession env req stamp iso =>
      match file req with
      | Some (path, filename) =>
          let s := new_session req path filename stamp iso in
          let a := length (heap srv) in
          started env (id s)
            {| heap := heap srv ++ [s]; DB := <[id s := a]> (DB srv);
               tasks := tasks srv; log := log srv |}
      | None => None
      end
  | PostReprocess env sid =>
      match find srv sid with
      | Some (a, s) =>
          started env (id s)
            {| heap := update a reset (heap srv); DB := DB srv;
               tasks := tasks srv; log := log srv |}
      | None => None
      end
  | TranscriptionAnswers k answer now =>
      match tasks srv !! k with
      | Some t =>
          match waits t with
          | AwaitTranscription =>
              resumed t (processSession_transcribed answer now) srv
          | AwaitInsights => None
          end
      | None => None
      end
  | CompletionAnswers k answer now =>
      match tasks srv !! k with
      | Some t =>
          match waits t with
          | AwaitInsights =>
              resumed t (processSession_insights answer now) srv
          | AwaitTranscription => None
          end
      | None => None
      end
  end.

Fixpoint exec (evs : list event) (srv : server) : option server :=
  match evs with
  | [] => Some srv
  | ev :: r =>
      match step srv ev with
      | Some srv' => exec r srv'
      | None => None
      end
  end.

(** [GET /api/sessions/:id] for an id of the registry: the session a
    polling reader sees. *)
Definition get_session (srv : server) (sid : jsstring) : option session :=
  snd <$> find srv sid.

(** A run on the session at address [a] is in flight. *)
Definition busy (srv : server) (a : nat) : bool :=
  existsb (fun t => target t =? a) (tasks srv).

(** No reprocessing is asked for while a run on that session is in flight. *)
Definition allowed (srv : server) (ev : event) : bool :=
  match ev with
  | PostReprocess _ sid =>
      match DB srv !! sid with
      | Some a => negb (busy srv a)
      | None => true
      end
  | _ => true
  end.

Fixpoint exec_without_overlap (evs : list event) (srv : server)
  : option server :=
  match evs with
  | [] => Some srv
  | ev :: r =>
      if allowed srv ev then
        match step srv ev with
        | Some srv' => exec_without_overlap r srv'
        | None => None
        end
      else None
  end.

(** Insights are there exactly when the status is ready. *)
Definition consistent (s : session) : Prop :=
  is_Some (insights s) <-> status s = ready.

(** The registry holds sessions of the heap, each under its own id. *)
Definition keyed_by_id (srv : server) : Prop :=
  forall sid a, DB srv !! sid = Some a ->
    exists s, heap srv !! a = Some s /\ id s = sid.

(** What holds of the server between two steps when no two runs on one
    session overlap: every session is consistent, a session with a run
    in flight has no insights yet, a run writes to the session its caller
    holds, no session has two runs, and the registry is keyed by id. *)
Definition at_rest (srv : server) : Prop :=
  (forall a s, heap srv !! a = Some s -> consistent s)
  /\ (forall t s, t ∈ tasks srv -> heap srv !! target t = Some s ->
        insights s = None)
  /\ (forall t, t ∈ tasks srv ->
        target t < length (heap srv) /\ owner t = target t)
  /\ NoDup (target <$> tasks srv)
  /\ keyed_by_id srv.

(** A block that keeps a session without insights consistent, and
    without insights if the run is to go on. *)
Definition keeps_consistent (b : block) : Prop :=
  forall s, insights s = None ->
    consistent (assign_all (settled b) s)
    /\ (forall w, next b = Suspended w ->
          insights (assign_all (settled b) s) = None).

End Server.
Export Server.

(** ** Candidates for an InsightsResult *)

Module Candidate.

Record InsightsResult := {
  summary : jsstring;
  keyConcepts : list jsstring;
  flashcards : list (jsstring * jsstring);     (* question, answer *)
  actionItems : list jsstring
}.

Definition flashcard_json (f : jsstring * jsstring) : json :=
  JObj [ (js "question", JStr (fst f)); (js "answer", JStr (snd f)) ].

Definition to_json (c : InsightsResult) : json :=
  JObj [ (js "summary", JStr (summary c));
         (js "keyConcepts", JArr (map JStr (keyConcepts c)));
         (js "flashcards", JArr (map flashcard_json (flashcards c)));
         (js "actionItems", JArr (map JStr (actionItems c))) ].

(** The bounds on the four fields. *)
Definition within_bounds (c : InsightsResult) : bool :=
  (20 <=? length (summary c))
  && (1 <=? length (keyConcepts c)) && (length (keyConcepts c) <=? 6)
  && (length (flashcards c) <=? 5)
  && (1 <=? length (actionItems c)) && (length (actionItems c) <=? 5).

(** The bound on the two fields of a flashcard. *)
Definition flashcard_ok (f : jsstring * jsstring) : bool :=
  (5 <=? length (fst f)) && (5 <=? length (snd f)).

End Candidate.



(** ** Concrete inputs *)

Module Examples.
Import Candidate.

Definition quoted (s : string) : jsstring := [34%N] ++ js s ++ [34%N].

Definition env_ok : environment :=
  {| OPENAI_API_KEY := Some (js "sk-test"); existsSync := fun _ => true |}.

Definition upload_ok : upload :=
  {| file := Some (js "/srv/uploads/1-a.wav", js "1-a.wav");
     body_eventId := None;
     body_title := Some (js "Lecture 4") |}.

Definition fresh : session :=
  new_session upload_ok (js "/srv/uploads/1-a.wav") (js "1-a.wav")
    (js "1700000000000") (js "2023-11-14T22:13:20.000Z").

Definition lecture : jsstring :=
  js "This lecture covered photosynthesis light and dark reactions in detail over fifty minutes".

(** A candidate within the four bounds, with a question of two characters. *)
Definition short_question : InsightsResult :=
  {| summary := js "Light and dark reactions.";
     keyConcepts := [js "photosynthesis"];
     flashcards := [(js "Q?", js "Light")];
     actionItems := [js "Review chapter 4."] |}.

(** Valid insights, with a field the schema does not name. *)
Definition insights_text : jsstring :=
  js "{" ++ quoted "summary" ++ js ": "
  ++ quoted "Photosynthesis has light and dark reactions." ++ js ", "
  ++ quoted "keyConcepts" ++ js ": [" ++ quoted "photosynthesis" ++ js "], "
  ++ quoted "flashcards" ++ js ": [], "
  ++ quoted "actionItems" ++ js ": [" ++ quoted "Review chapter 4." ++ js "], "
  ++ quoted "confidence" ++ js ": 0.9}".

(** A valid outline, with a field the schema does not name. *)
Definition outline_text : jsstring :=
  js "{" ++ quoted "highlights" ++ js ": [], "
  ++ quoted "exams" ++ js ": [{" ++ quoted "text" ++ js ": "
  ++ quoted "Midterm" ++ js ", " ++ quoted "date" ++ js ": null}], "
  ++ quoted "assignments" ++ js ": [], "
  ++ quoted "term" ++ js ": " ++ quoted "Fall" ++ js "}".

Definition answers_short : answers :=
  {| transcription := Ok (js " um ");
     transcribed_at := js "2023-11-14T22:13:25.000Z";
     chat := Throw (js "never asked");
     completed_at := js "2023-11-14T22:13:30.000Z" |}.

Definition answers_long : answers :=
  {| transcription := Ok lecture;
     transcribed_at := js "2023-11-14T22:13:25.000Z";
     chat := Ok [Some insights_text];
     completed_at := js "2023-11-14T22:13:30.000Z" |}.

Definition answers_offline : answers :=
  {| transcription := Throw (js "Connection error.");
     transcribed_at := js "2023-11-14T22:13:25.000Z";
     chat := Throw (js "never asked");
     completed_at := js "2023-11-14T22:13:30.000Z" |}.

(** A second run is started while the first awaits its insights; the
    first then ends, and the second gets its transcript. The providers
    answer both runs alike. *)
Definition overlapping : list event :=
  [ PostSession env_ok upload_ok (js "1700000000000")
      (js "2023-11-14T22:13:20.000Z");
    TranscriptionAnswers 0 (Ok lecture) (js "2023-11-14T22:13:25.000Z");
    PostReprocess env_ok (js "sess-1700000000000");
    CompletionAnswers 0 (Ok [Some insights_text])
      (js "2023-11-14T22:13:30.000Z");
    TranscriptionAnswers 0 (Ok lecture) (js "2023-11-14T22:13:31.000Z") ].

(** One run after the other. *)
Definition one_after_the_other : list event :=
  [ PostSession env_ok upload_ok (js "1700000000000")
      (js "2023-11-14T22:13:20.000Z");
    TranscriptionAnswers 0 (Ok (js " um ")) (js "2023-11-14T22:13:25.000Z");
    PostReprocess env_ok (js "sess-1700000000000");
    TranscriptionAnswers 0 (Ok lecture) (js "2023-11-14T22:13:26.000Z");
    CompletionAnswers 0 (Ok [Some insights_text])
      (js "2023-11-14T22:13:30.000Z") ].

Definition session_id : jsstring := js "sess-1700000000000".

(** The server after one upload. *)
Definition one_session : server :=
  post_session env_ok upload_ok (js "1700000000000")
    (js "2023-11-14T22:13:20.000Z") initial.

Definition first_session : session :=
  assign_all (settled (processSession_start env_ok fresh)) fresh.

(** The valid outline in a fenced block. *)
Definition fenced_outline : jsstring :=
  Sanitizer.fenced (js "json") [10%N] outline_text [10%N].

(** The completion provider refuses the request. *)
Definition answers_rate_limited : answers :=
  {| transcription := Ok lecture;
     transcribed_at := js "2023-11-14T22:13:25.000Z";
     chat := Throw (js "429 Rate limit reached for requests");
     completed_at := js "2023-11-14T22:13:30.000Z" |}.

(** The completion provider answers with prose. *)
Definition answers_not_json : answers :=
  {| transcription := Ok lecture;
     transcribed_at := js "2023-11-14T22:13:25.000Z";
     chat := Ok [Some (js "Sorry, I cannot help with that.")];
     completed_at := js "2023-11-14T22:13:30.000Z" |}.

End Examples.

(** ** The sanitizer, written on strings

    What lines 507-512 come to, without regular expressions: after the
    trim, a text that begins with the marker loses the marker, a [json]
    tag in any letter case and the white space that follows; if what is
    left ends with the marker, it loses that marker and the white space
    before it. *)

Module Direct.
Import Sanitizer.

Definition endsWith (s p : jsstring) : bool := startsWith (rev s) (rev p).

Definition sanitize_direct (raw : jsstring) : jsstring :=
  let t := trim raw in
  if startsWith t fence then
    let u := trimStart (strip_tag (drop 3 t)) in
    if endsWith u fence then trimEnd (take (length u - 3) u) else u
  else t.

End Direct.

(** ** What the schemas accept, said of JSON values *)

Module Shapes.

Definition string_of_length (n : nat) (v : json) : Prop :=
  exists t, v = JStr t /\ n <= length t.

Definition flashcard (v : json) : Prop :=
  exists props q a,
    v = JObj props
    /\ get_prop (js "question") props = Some (JStr q) /\ 5 <= length q
    /\ get_prop (js "answer") props = Some (JStr a) /\ 5 <= length a.

(** An object with the four fields of an InsightsResult, each of its type
    and within its bounds; other fields may be there too. *)
Definition insights_shape (v : json) : Prop :=
  exists props t kc fc ai,
    v = JObj props
    /\ get_prop (js "summary") props = Some (JStr t) /\ 20 <= length t
    /\ get_prop (js "keyConcepts") props = Some (JArr kc)
    /\ 1 <= length kc <= 6 /\ Forall (string_of_length 0) kc
    /\ get_prop (js "flashcards") props = Some (JArr fc)
    /\ length fc <= 5 /\ Forall flashcard fc
    /\ get_prop (js "actionItems") props = Some (JArr ai)
    /\ 1 <= length ai <= 5 /\ Forall (string_of_length 0) ai.

(** The messages of the errors the generators throw themselves. *)
Definition insights_failures : list jsstring :=
  [ js "Cannot read properties of undefined (reading 'message')";
    js "Cannot read properties of null (reading 'trim')";
    js "LLM returned invalid JSON";
    js "LLM output failed schema validation" ].

Definition outline_failures : list jsstring :=
  [ js "Invalid outline JSON"; js "Outline schema validation failed" ].

End Shapes.

(** ** The outline route ([POST /api/outline/extract], lines 254-276, with
    [extractTextFromFile], lines 439-456) *)

Module OutlineRoute.
Import Schemas.

(** What the handler reads of the outside, besides the key and
    [fs.existsSync]: the lower-cased [path.extname] of a file name, and
    the text the two libraries find in a file ([data.text] of [pdfParse]
    on the bytes read, [result.value] of [mammoth.extractRawText]; [None]
    is [undefined]), or the error they throw. *)
Record readers := {
  extname_lower : jsstring -> jsstring;
  pdf_text : jsstring -> result (option jsstring);
  docx_text : jsstring -> result (option jsstring)
}.

(** [extractTextFromFile(filePath, ext)] *)
Definition extractTextFromFile (env : environment) (rd : readers)
    (filePath ext : jsstring) : result jsstring :=
  if negb (existsSync env filePath) then
    Throw (js "Outline file not found: " ++ filePath)
  else if jsstring_eqb ext (js ".pdf") then
    match pdf_text rd filePath with
    | Ok text => Ok (default [] text)
    | Throw message => Throw message
    end
  else if jsstring_eqb ext (js ".docx") then
    match docx_text rd filePath with
    | Ok text => Ok (default [] text)
    | Throw message => Throw message
    end
  else
    Throw (js "Unsupported outline file type: " ++ or_else ext (js "unknown")).

(** A response: the status code and the JSON body. *)
Record response := { code : Z; body : json }.

Definition error_body (message : jsstring) : json :=
  JObj [ (js "error", JStr message) ].

(** The handler: [file] is [req.file] as its path and its original name;
    [answer] is what the completion provider answers if it is asked. The
    requests sent come with the response. *)
Definition outline_extract (env : environment) (rd : readers)
    (file : option (jsstring * jsstring)) (answer : result completion)
  : list call * response :=
  if negb (has_key env) then
    ([], {| code := 500; body := error_body (js "Missing OPENAI_API_KEY") |})
  else
    match file with
    | None =>
        ([], {| code := 400; body := error_body (js "No outline file received") |})
    | Some (path, originalname) =>
        let ext := extname_lower rd originalname in
        match extractTextFromFile env rd path ext with
        | Throw _ =>
            ([], {| code := 500;
                    body := error_body (js "Outline extraction failed") |})
        | Ok text =>
            if too_short text then
              ([], {| code := 400;
                      body := error_body (js "Outline text too short") |})
            else
              match extractOutlineFromText text answer with
              | (sent, Ok extracted) =>
                  (sent, {| code := 200; body := extracted |})
              | (sent, Throw _) =>
                  (sent, {| code := 500;
                            body := error_body (js "Outline extraction failed") |})
              end
        end
    end.

(** The responses that report an error. *)
Definition outline_errors : list response :=
  [ {| code := 500; body := error_body (js "Missing OPENAI_API_KEY") |};
    {| code := 400; body := error_body (js "No outline file received") |};
    {| code := 400; body := error_body (js "Outline text too short") |};
    {| code := 500; body := error_body (js "Outline extraction failed") |} ].

End OutlineRoute.

(** ** Candidates for an OutlineResult *)

Module OutlineCandidate.

Record highlight := {
  h_text : jsstring;
  h_category : jsstring;
  h_reason : jsstring
}.

(** A date or a priority is absent ([None]), null ([Some None]) or a
    string. *)
Record dated := {
  d_text : jsstring;
  d_date : option (option jsstring);
  d_priority : option (option jsstring)
}.

Record OutlineResult := {
  highlights : list highlight;
  exams : list dated;
  assignments : list dated
}.

Definition highlight_json (h : highlight) : json :=
  JObj [ (js "text", JStr (h_text h));
         (js "category", JStr (h_category h));
         (js "reason", JStr (h_reason h)) ].

Definition optional_field (k : jsstring) (v : option (option jsstring))
  : list (jsstring * json) :=
  match v with
  | None => []
  | Some None => [(k, JNull)]
  | Some (Some t) => [(k, JStr t)]
  end.

Definition dated_json (d : dated) : json :=
  JObj ((js "text", JStr (d_text d))
        :: optional_field (js "date") (d_date d)
        ++ optional_field (js "priority") (d_priority d)).

Definition outline_json (c : OutlineResult) : json :=
  JObj [ (js "highlights", JArr (map highlight_json (highlights c)));
         (js "exams", JArr (map dated_json (exams c)));
         (js "assignments", JArr (map dated_json (assignments c))) ].

(** The one bound of the Outline schema: a priority that is a string is
    one of the three words. *)
Definition priority_ok (d : dated) : bool :=
  match d_priority d with
  | Some (Some p) => existsb (jsstring_eqb p) [js "high"; js "med"; js "low"]
  | _ => true
  end.

End OutlineCandidate.

(** ** The other session routes, and what a reader can find *)

Module Endpoints.
Import OutlineRoute Shapes.

Definition status_name (st : session_status) : jsstring :=
  match st with
  | processing => js "processing"
  | transcribed => js "transcribed"
  | ready => js "ready"
  | failed => js "failed"
  end.

(** [GET /api/sessions/count], lines 128-130. *)
Definition sessions_count (srv : server) : nat := size (DB srv).

(** [DB.sessions] is a plain object: under a name that is no key of its
    own, [DB.sessions[name]] finds what the object inherits from
    [Object.prototype]. These are the members of that prototype, and the
    six fields that a reprocessing writes, which land there when the id
    it is given is [__proto__]. *)
Definition prototype_names : list jsstring :=
  [ js "constructor"; js "__proto__"; js "hasOwnProperty";
    js "isPrototypeOf"; js "propertyIsEnumerable"; js "toString";
    js "toLocaleString"; js "valueOf"; js "__defineGetter__";
    js "__defineSetter__"; js "__lookupGetter__"; js "__lookupSetter__" ].

Definition assigned_names : list jsstring :=
  [ js "status"; js "progress"; js "error"; js "transcript";
    js "insights"; js "processedAt" ].

Definition inherited (sid : jsstring) : bool :=
  existsb (jsstring_eqb sid) (prototype_names ++ assigned_names).

(** What a handler does after [DB.sessions[req.params.id]] and the test
    that follows it. [Answer]: the id is a key of the registry, and the
    handler answers from the session found. [NotFound]: nothing is
    found, and the reply is the 404. [Inherited]: the name is one of the
    prototype chain; the handler goes on with whatever it finds there,
    which is no session: that is not modelled. *)
Inductive found (A : Type) : Type :=
| Answer (x : A)
| NotFound
| Inherited.
Arguments Answer {A} x.
Arguments NotFound {A}.
Arguments Inherited {A}.

Definition DB_sessions_at (srv : server) (sid : jsstring)
  : found (nat * session) :=
  match find srv sid with
  | Some p => Answer p
  | None => if inherited sid then Inherited else NotFound
  end.


(** [GET /api/sessions/:id/status], lines 133-142. *)
Record status_reply := {
  r_status : session_status;
  r_progress : Z;
  r_error : option jsstring
}.

Definition status_route (srv : server) (sid : jsstring)
  : found status_reply :=
  match DB_sessions_at srv sid with
  | Answer (_, s) =>
      Answer {| r_status := status s; r_progress := progress s;
                r_error := error s |}
  | NotFound => NotFound
  | Inherited => Inherited
  end.

(** The heap when a handler that has called [processSession(sid)] writes
    its reply: the run has gone up to its first await or its failure,
    and the handler of a rejection has not run yet. *)
Definition heap_at_reply (env : environment) (sid : jsstring) (srv : server)
  : list session :=
  match find srv sid with
  | Some (a, s) => update a (writes (processSession_start env s)) (heap srv)
  | None => heap srv
  end.

Definition nullable_string (v : option jsstring) : json :=
  match v with Some t => JStr t | None => JNull end.

(** The reply of [POST /api/sessions], lines 72-74 and 106-111. *)
Definition post_session_reply (env : environment) (req : upload)
    (stamp iso : jsstring) (srv : server) : response :=
  match file req with
  | None => {| code := 400; body := error_body (js "No audio file received") |}
  | Some (path, filename) =>
      let s := new_session req path filename stamp iso in
      let a := length (heap srv) in
      let h := heap_at_reply env (id s)
                 {| heap := heap srv ++ [s]; DB := <[id s := a]> (DB srv);
                    tasks := tasks srv; log := log srv |} in
      let s1 := default s (h !! a) in
      {| code := 201;
         body := JObj [ (js "id", JStr (id s1));
                        (js "status", JStr (status_name (status s1)));
                        (js "eventId", nullable_string (eventId s1));
                        (js "title", JStr (title s1)) ] |}
  end.

(** The reply of [POST /api/sessions/:id/reprocess], lines 146-147 and
    163, to an id of the registry; [NotFound] is the 404 of line 147. *)
Definition reprocess_route (env : environment) (sid : jsstring)
    (srv : server) : found response :=
  match DB_sessions_at srv sid with
  | Answer (a, s) =>
      let h := heap_at_reply env (id s)
                 {| heap := update a reset (heap srv); DB := DB srv;
                    tasks := tasks srv; log := log srv |} in
      let s1 := default s (h !! a) in
      Answer
        {| code := 200;
           body := JObj [ (js "id", JStr (id s1));
                          (js "status", JStr (status_name (status s1))) ] |}
  | NotFound => NotFound
  | Inherited => Inherited
  end.

(** The status a session has while a run awaits that. *)
Definition awaited (w : awaiting) : session_status :=
  match w with
  | AwaitTranscription => processing
  | AwaitInsights => transcribed
  end.

(** What a reader finds on a session when no two runs on it overlap. *)
Definition observed (s : session) : Prop :=
  match status s with
  | processing =>
      progress s = 10%Z /\ transcript s = [] /\ insights s = None
      /\ error s = None /\ processedAt s = None
  | transcribed =>
      progress s = 60%Z /\ too_short (transcript s) = false
      /\ insights s = None /\ error s = None /\ processedAt s = None
  | ready =>
      progress s = 100%Z /\ error s = None /\ is_Some (processedAt s)
      /\ ((too_short (transcript s) = true
           /\ insights s = Some fallback_insights)
          \/ (too_short (transcript s) = false
              /\ exists v, insights s = Some v /\ insights_shape v))
  | failed =>
      progress s = 0%Z /\ insights s = None /\ processedAt s = None
      /\ exists m, error s = Some m /\ m <> []
  end.

(** The sessions are as a reader may find them, and a session is
    processing or transcribed exactly when a run on it is in flight,
    awaiting the transcript or the insights. *)
Definition in_step (srv : server) : Prop :=
  (forall a s, heap srv !! a = Some s -> observed s)
  /\ (forall t s, t ∈ tasks srv -> heap srv !! target t = Some s ->
        status s = awaited (waits t))
  /\ (forall a s, heap srv !! a = Some s ->
        status s = processing \/ status s = transcribed ->
        exists t, t ∈ tasks srv /\ target t = a).

(** A session as a handler leaves it just before it starts a run. *)
Definition blank (s : session) : Prop :=
  transcript s = [] /\ insights s = None /\ error s = None
  /\ processedAt s = None.

(** The status a block leaves: the one of its next await, or a final one. *)
Definition lands (b : block) (s : session) : Prop :=
  match next b with
  | Suspended w => status s = awaited w
  | _ => status s = ready \/ status s = failed
  end.

(** A block that takes a session a reader may find with status [st] to
    one a reader may find. *)
Definition advances (st : session_status) (b : block) : Prop :=
  forall s, observed s -> status s = st ->
    observed (assign_all (settled b) s) /\ lands b (assign_all (settled b) s).

(** What holds of a session in every execution, overlapping runs or not. *)
Definition sound (s : session) : Prop :=
  progress_value (progress s)
  /\ trim (transcript s) = transcript s
  /\ (insights s = None \/ insights s = Some fallback_insights
      \/ exists v, insights s = Some v /\ insights_shape v).

(** A request the runs may send, given the sessions there are: the
    transcription of the recording of one of them, or insights for a
    trimmed transcript of 20 characters or more. *)
Definition expected (h : list session) (c : call) : Prop :=
  match c with
  | Transcription p => exists a s, h !! a = Some s /\ audioPath s = p
  | InsightsCompletion t => trim t = t /\ 20 <= length t
  | OutlineCompletion _ => False
  end.

(** An assignment that keeps a session sound. *)
Definition benign (w : assignment) : Prop :=
  match w with
  | set_transcript v => trim v = v
  | set_insights v =>
      v = None \/ v = Some fallback_insights
      \/ exists x, v = Some x /\ insights_shape x
  | set_progress v => progress_value v
  | _ => True
  end.

End Endpoints.

(** ** The chat route, up to the request it sends *)

Module Syntra.
Import OutlineRoute.

(** What lines 180-184 make of the body of the request, whatever it
    holds: [String(req.body?.message || "")], before it is trimmed;
    [req.body.sessionIds] if it is an array, and the empty array if not;
    and [Boolean(req.body?.stream)]. *)
Record chat_body := {
  message : jsstring;
  sessionIds : list json;
  stream : bool
}.

(** The keys of [DB.sessions], in the order of the object: that in
    which the ids were first registered. A session is registered under
    its id when it is stored, and a later session of the same id takes
    its place in the registry. *)
Fixpoint ids_in_order (seen : list jsstring) (h : list session)
  : list jsstring :=
  match h with
  | [] => []
  | s :: r =>
      if existsb (jsstring_eqb (id s)) seen then ids_in_order seen r
      else id s :: ids_in_order (id s :: seen) r
  end.

Definition Object_keys (srv : server) : list jsstring :=
  ids_in_order [] (heap srv).

(** [Object.values(DB.sessions)] *)
Definition Object_values (srv : server) : list session :=
  omap (get_session srv) (Object_keys srv).

(** Lines 194-201: what is passed on of a session. *)
Record brief := {
  b_id : jsstring;
  b_title : jsstring;
  b_status : session_status;
  b_createdAt : jsstring;
  b_transcript : jsstring;
  b_insights : option json
}.

Definition brief_of (s : session) : brief :=
  {| b_id := id s; b_title := title s; b_status := status s;
     b_createdAt := createdAt s; b_transcript := transcript s;
     b_insights := insights s |}.

(** [sessionIds.includes(sid)] for a string [sid]. *)
Definition includes (ids : list json) (sid : jsstring) : bool :=
  existsb (fun v => match v with
                    | JStr t => jsstring_eqb t sid
                    | _ => false
                    end) ids.

(** Line 192: every session when no id is asked for. *)
Definition chosen (ids : list json) (s : session) : bool :=
  match ids with
  | [] => true
  | _ => includes ids (id s)
  end.

(** The completion requested, lines 212-226: the prompt of the system is
    a fixed text, and the content of the user is the message and the
    sessions recorded here. *)
Record chat_request := {
  q_message : jsstring;
  q_sessions : list brief;
  q_stream : bool
}.

(** Lines 176-226: the reply of a request that is refused, or the
    completion requested. *)
Definition syntra_request (env : environment) (req : chat_body)
    (srv : server) : response + chat_request :=
  if negb (has_key env) then
    inl {| code := 500; body := error_body (js "Missing OPENAI_API_KEY") |}
  else
    let text := trim (message req) in
    match text with
    | [] => inl {| code := 400; body := error_body (js "Message is required") |}
    | _ =>
        inr {| q_message := text;
               q_sessions :=
                 map brief_of
                   (take 10 (Stdlib.Lists.List.filter
                               (chosen (sessionIds req))
                               (Object_values srv)));
               q_stream := stream req |}
    end.

End Syntra.

(** ** More concrete inputs *)

Module MoreExamples.
Import OutlineRoute Examples.

Definition syllabus : jsstring :=
  js "Course outline. Midterm on week 6. Textbook: Biology, 12th edition.".

Definition readers_pdf : readers :=
  {| extname_lower := fun _ => js ".pdf";
     pdf_text := fun _ => Ok (Some syllabus);
     docx_text := fun _ => Throw (js "not a docx file") |}.

Definition outline_file : option (jsstring * jsstring) :=
  Some (js "/srv/uploads/2-outline.pdf", js "outline.pdf").

(** A short recording is processed, then processed again with a long
    transcript, whose insights the second run still awaits. *)
Definition awaiting_insights : list event := take 4 one_after_the_other.

(** The overlapping runs, until the second has its insights. *)
Definition overlapping_to_the_end : list event :=
  overlapping
  ++ [ CompletionAnswers 0 (Ok [Some insights_text])
         (js "2023-11-14T22:13:35.000Z") ].

(** A question about one session, named among others. *)
Definition question : Syntra.chat_body :=
  {| Syntra.message := js " What is photosynthesis? ";
     Syntra.sessionIds := [JStr session_id; JStr (js "sess-2"); JNull];
     Syntra.stream := false |}.

End MoreExamples.

(** * Properties *)

(** ** Strings *)

Section StringFacts.

Lemma trimStart_length s : length (trimStart s) <= length s.
Proof.
  induction s as [|c s IH]; simpl; [lia|].
  destruct (is_ws c); simpl; lia.
Qed.

Lemma trimStart_fixed s : length (trimStart s) = length s -> trimStart s = s.
Proof.
  destruct s as [|c s]; simpl; [easy|].
  destruct (is_ws c); [|easy].
  pose proof (trimStart_length s). lia.
Qed.

Lemma trimStart_head c s : is_ws c = false -> trimStart (c :: s) = c :: s.
Proof. intros H. simpl. now rewrite H. Qed.

Lemma trimStart_ws_app w s :
  forallb is_ws w = true -> trimStart (w ++ s) = trimStart s.
Proof.
  induction w as [|c w IH]; simpl; [easy|].
  intros H. apply andb_prop in H as [Hc Hw]. rewrite Hc. auto.
Qed.

Lemma trimEnd_length s : length (trimEnd s) <= length s.
Proof.
  unfold trimEnd. rewrite length_rev.
  pose proof (trimStart_length (rev s)). rewrite length_rev in *. lia.
Qed.

Lemma trimEnd_last s c : is_ws c = false -> trimEnd (s ++ [c]) = s ++ [c].
Proof.
  intros H. unfold trimEnd. rewrite rev_app_distr. simpl. rewrite H.
  simpl. now rewrite rev_involutive.
Qed.

Lemma trimEnd_ws_app s w :
  forallb is_ws w = true -> trimEnd (s ++ w) = trimEnd s.
Proof.
  intros H. unfold trimEnd. rewrite rev_app_distr.
  rewrite trimStart_ws_app; [easy|].
  rewrite forallb_forall in *. intros x Hx. apply H. now apply in_rev.
Qed.

(** A text that [trim] leaves alone is left alone at both ends. *)
Lemma trim_fixed s : trim s = s -> trimStart s = s /\ trimEnd s = s.
Proof.
  intros H. unfold trim in H.
  assert (Hs : trimStart s = s).
  { apply trimStart_fixed.
    pose proof (trimStart_length s).
    pose proof (trimEnd_length (trimStart s)).
    rewrite H in *. lia. }
  rewrite Hs in H. easy.
Qed.

Lemma trimStart_fixed_head s :
  trimStart s = s -> s = [] \/ exists c r, s = c :: r /\ is_ws c = false.
Proof.
  destruct s as [|c r]; [now left|]. simpl.
  destruct (is_ws c) eqn:Hc; intros H.
  - pose proof (trimStart_length r) as L. rewrite H in L. simpl in L. lia.
  - right. eauto.
Qed.

Lemma trimEnd_fixed_last s :
  trimEnd s = s -> s = [] \/ exists r c, s = r ++ [c] /\ is_ws c = false.
Proof.
  destruct (rev s) as [|c r'] eqn:E; intros H.
  - left. apply (f_equal (@rev N)) in E. now rewrite rev_involutive in E.
  - right. exists (rev r'), c.
    assert (Hs : s = rev r' ++ [c]).
    { apply (f_equal (@rev N)) in E. now rewrite rev_involutive in E. }
    split; [easy|].
    destruct (is_ws c) eqn:Hc; [|easy].
    unfold trimEnd in H. rewrite E in H. simpl in H. rewrite Hc in H.
    apply (f_equal (@length N)) in H.
    rewrite length_rev, Hs, length_app, length_rev in H. simpl in H.
    pose proof (trimStart_length r'). lia.
Qed.

(** Text that begins and ends with a character that is not white space. *)
Lemma trim_between c mid d :
  is_ws c = false -> is_ws d = false ->
  trim (c :: mid ++ [d]) = c :: mid ++ [d].
Proof.
  intros Hc Hd. unfold trim. rewrite trimStart_head by easy.
  change (c :: mid ++ [d]) with ((c :: mid) ++ [d]).
  now rewrite trimEnd_last.
Qed.

Lemma startsWith_app p s : startsWith (p ++ s) p = true.
Proof.
  induction p as [|a p IH]; simpl; [easy|]. rewrite N.eqb_refl. exact IH.
Qed.

End StringFacts.

(** ** The two replacements *)

Section RegexFacts.
Import Regex Sanitizer.

(** The continuation of a search: what is left after the match. *)
Abbreviation rest_of := (fun st : pos => Some (snd st)).

Lemma search_eq ci r b before s :
  search ci r b before s =
  match m ci r (b, s) rest_of with
  | Some rest => Some (rev before, rest)
  | None =>
      match s with
      | [] => None
      | c :: s' => search ci r false (c :: before) s'
      end
  end.
Proof. destruct s; reflexivity. Qed.

Lemma star_rest b s : star is_ws rest_of b s = Some (trimStart s).
Proof.
  revert b. induction s as [|c s IH]; intros b; simpl; [easy|].
  destruct (is_ws c); [|easy]. now rewrite IH.
Qed.

Lemma m_word {A} ci w b s (k : pos -> option A) :
  m ci (word w) (b, s) k =
  if begins ci s w
  then k (b && match w with [] => true | _ => false end, drop (length w) s)
  else None.
Proof.
  revert b s. induction w as [|a w IH]; intros b s; simpl.
  - now rewrite andb_true_r.
  - destruct s as [|d s]; [easy|]. simpl.
    destruct (chr_eq ci a d); simpl; [|easy].
    rewrite IH. now rewrite andb_false_r.
Qed.

Lemma chr_eq_refl ci a : chr_eq ci a a = true.
Proof. unfold chr_eq. destruct ci; apply N.eqb_refl. Qed.

Lemma begins_app ci p s : begins ci (p ++ s) p = true.
Proof.
  induction p as [|a p IH]; simpl; [easy|]. now rewrite chr_eq_refl.
Qed.

(** The first replacement, of [open_fence], on a text that begins with
    the marker. *)
Lemma replace_open_fence rest :
  replace true open_fence [] (fence ++ rest) = trimStart (strip_tag rest).
Proof.
  unfold replace. rewrite search_eq. unfold open_fence.
  cbn [m fst snd]. rewrite m_word, begins_app, drop_app_length.
  change (true && match fence with [] => true | _ => false end) with false.
  cbn [m]. rewrite m_word. unfold strip_tag.
  change (length (js "json")) with 4.
  destruct (begins true rest (js "json")); cbn [fst snd andb];
    rewrite star_rest; reflexivity.
Qed.

Lemma is_fence_only {A} b u (k : pos -> option A) :
  m false (Seq (word fence) Eol) (b, u) k =
  if begins false u fence
  then match drop 3 u with [] => k (false, []) | _ => None end
  else None.
Proof.
  cbn [m]. rewrite m_word. destruct (begins false u fence); [|easy].
  change (length fence) with 3.
  change (b && match fence with [] => true | _ => false end) with (b && false).
  rewrite andb_false_r. cbn [snd]. now destruct (drop 3 u).
Qed.

(** No match of the closing pattern starts inside a text that ends with
    a character that is not white space and is followed by more. *)
Lemma close_fence_no_match {A} (k : pos -> option A) y z tail b :
  is_ws z = false -> 3 <= length tail ->
  m false close_fence (b, y ++ [z] ++ tail) k = None.
Proof.
  intros Hz Ht. unfold close_fence. cbn [m fst snd].
  assert (K : forall b u, 3 < length u ->
    m false (Seq (word fence) Eol) (b, u) k = None).
  { intros b' u Hu. rewrite is_fence_only.
    destruct (begins false u fence); [|easy].
    destruct (drop 3 u) eqn:E; [|easy].
    apply (f_equal (@length N)) in E. rewrite length_drop in E.
    simpl in E. lia. }
  revert b. induction y as [|c y IH]; intros b.
  - cbn [app star]. rewrite Hz. apply K. simpl. lia.
  - cbn [app star]. destruct (is_ws c).
    + cbn [app] in IH. rewrite IH. apply K.
      simpl. rewrite length_app. simpl. lia.
    + apply K. simpl. rewrite length_app. simpl. lia.
Qed.

Lemma close_fence_match w b :
  forallb is_ws w = true ->
  m false close_fence (b, w ++ fence) rest_of = Some [].
Proof.
  unfold close_fence. cbn [m fst snd]. revert b.
  induction w as [|c w IH]; intros b H.
  - reflexivity.
  - simpl in H. apply andb_prop in H as [Hc Hw].
    cbn [app star]. rewrite Hc. now rewrite IH.
Qed.

Lemma search_close_fence body w before b :
  trimEnd body = body -> forallb is_ws w = true ->
  search false close_fence b before (body ++ w ++ fence)
  = Some (rev before ++ body, []).
Proof.
  intros Hb Hw.
  destruct (trimEnd_fixed_last _ Hb) as [->|(r & z & -> & Hz)].
  - cbn [app]. destruct (w ++ fence) eqn:E.
    + destruct w; discriminate.
    + rewrite <- E. rewrite search_eq, close_fence_match by easy.
      now rewrite app_nil_r.
  - clear Hb. revert before b.
    induction r as [|c r IH]; intros before b.
    + rewrite search_eq.
      rewrite (close_fence_no_match _ [] z (w ++ fence)); [|easy|].
      2:{ rewrite length_app. simpl. lia. }
      cbn [app]. rewrite search_eq, close_fence_match by easy.
      reflexivity.
    + rewrite search_eq. rewrite <- !app_assoc.
      rewrite (close_fence_no_match _ (c :: r) z (w ++ fence)); [|easy|].
      2:{ rewrite length_app. simpl. lia. }
      cbn [app]. rewrite <- !app_assoc in IH. rewrite IH. simpl.
      now rewrite <- !app_assoc.
Qed.

(** The second replacement, of [close_fence], on a text that ends with
    white space and the marker. *)
Lemma replace_close_fence body w :
  trimEnd body = body -> forallb is_ws w = true ->
  replace false close_fence [] (body ++ w ++ fence) = body.
Proof.
  intros Hb Hw. unfold replace.
  rewrite search_close_fence by easy. simpl. now rewrite app_nil_r.
Qed.

End RegexFacts.

(** ** ModelOutputSanitizer *)

Section SanitizerFacts.
Import Regex Sanitizer.

Lemma ws_is_not_j c : is_ws c = true -> chr_eq true 106 c = false.
Proof.
  intros H. destruct (chr_eq true 106 c) eqn:E; [|easy].
  unfold chr_eq, canonicalize in E.
  assert (c = 74 \/ c = 106)%N as [-> | ->]; [|discriminate H..].
  destruct ((97 <=? c) && (c <=? 122))%N eqn:R.
  - apply andb_prop in R as [R1 R2].
    apply N.leb_le in R1, R2. apply N.eqb_eq in E. simpl in E. lia.
  - apply N.eqb_eq in E. simpl in E. lia.
Qed.

Lemma sanitize_clean text :
  trim text = text -> startsWith text fence = false -> sanitize text = text.
Proof. intros Ht Hf. unfold sanitize. now rewrite Ht, Hf. Qed.

Lemma trim_fenced tag ws1 inner ws2 :
  trim (fenced tag ws1 inner ws2) = fenced tag ws1 inner ws2.
Proof.
  assert (E : fenced tag ws1 inner ws2 =
              96%N :: ([96; 96]%N ++ tag ++ ws1 ++ inner ++ ws2 ++ [96; 96]%N)
                   ++ [96%N]).
  { unfold fenced, fence. simpl. now rewrite <- !app_assoc. }
  rewrite E. now apply trim_between.
Qed.

(** After the opening marker and the tag are gone. *)
Lemma trimStart_inner ws1 inner ws2 :
  trimStart inner = inner ->
  forallb is_ws ws1 = true -> forallb is_ws ws2 = true ->
  exists w, forallb is_ws w = true /\
    trimStart (ws1 ++ inner ++ ws2 ++ fence) = inner ++ w ++ fence.
Proof.
  intros Hi H1 H2. rewrite trimStart_ws_app by easy.
  destruct (trimStart_fixed_head _ Hi) as [-> | (c & r & -> & Hc)].
  - exists []. split; [easy|]. simpl. now rewrite trimStart_ws_app.
  - exists ws2. split; [easy|]. simpl. now rewrite Hc.
Qed.

Lemma sanitize_fenced_tagged inner ws1 ws2 :
  trim inner = inner ->
  forallb is_ws ws1 = true -> forallb is_ws ws2 = true ->
  sanitize (fenced (js "json") ws1 inner ws2) = inner.
Proof.
  intros Ht H1 H2. apply trim_fixed in Ht as [Hs He].
  unfold sanitize. rewrite trim_fenced. unfold fenced at 1.
  rewrite startsWith_app. unfold fenced. rewrite replace_open_fence.
  unfold strip_tag. rewrite begins_app.
  change 4 with (length (js "json")). rewrite drop_app_length.
  destruct (trimStart_inner ws1 inner ws2) as (w & Hw & ->); try easy.
  now apply replace_close_fence.
Qed.

Lemma begins_json_head c s :
  chr_eq true 106 c = false -> begins true (c :: s) (js "json") = false.
Proof.
  intros H. change (js "json") with [106; 115; 111; 110]%N.
  cbn [begins]. now rewrite H.
Qed.

Lemma untagged_head ws1 inner ws2 :
  forallb is_ws ws1 = true -> forallb is_ws ws2 = true ->
  (ws1 = [] -> begins true inner (js "j") = false) ->
  begins true (ws1 ++ inner ++ ws2 ++ fence) (js "json") = false.
Proof.
  intros H1 H2 Hj.
  destruct ws1 as [|c ws1].
  - specialize (Hj eq_refl). destruct inner as [|c inner].
    + destruct ws2 as [|c ws2]; [reflexivity|].
      simpl in H2. apply andb_prop in H2 as [Hc _].
      apply begins_json_head. now apply ws_is_not_j.
    + apply begins_json_head.
      change (js "j") with [106%N] in Hj. cbn [begins] in Hj.
      now rewrite andb_true_r in Hj.
  - simpl in H1. apply andb_prop in H1 as [Hc _].
    apply begins_json_head. now apply ws_is_not_j.
Qed.

Lemma sanitize_fenced_untagged inner ws1 ws2 :
  trim inner = inner ->
  forallb is_ws ws1 = true -> forallb is_ws ws2 = true ->
  (ws1 = [] -> begins true inner (js "j") = false) ->
  sanitize (fenced [] ws1 inner ws2) = inner.
Proof.
  intros Ht H1 H2 Hj. apply trim_fixed in Ht as [Hs He].
  unfold sanitize. rewrite trim_fenced. unfold fenced at 1.
  rewrite startsWith_app. unfold fenced. rewrite replace_open_fence.
  unfold strip_tag. cbn [app]. rewrite untagged_head by easy.
  destruct (trimStart_inner ws1 inner ws2) as (w & Hw & ->); try easy.
  now apply replace_close_fence.
Qed.

(** The sanitizer leaves clean text (trimmed, not beginning with the
    fence marker) unchanged; on that text wrapped in a fenced block it
    gives back the text, the same with a [json] tag and with none; so
    sanitizing a second time changes nothing in any of these cases. In
    the block, white space may follow the opening marker and precede
    the closing one; when none follows an untagged opening marker, the
    text must not begin with the letter j, as no JSON text does. *)
Lemma sanitize_named_cases (inner ws1 ws2 : jsstring) :
  trim inner = inner ->
  startsWith inner fence = false ->
  forallb is_ws ws1 = true ->
  forallb is_ws ws2 = true ->
  (ws1 = [] -> begins true inner (js "j") = false) ->
  sanitize inner = inner
  /\ sanitize (fenced (js "json") ws1 inner ws2) = inner
  /\ sanitize (fenced [] ws1 inner ws2) = inner
  /\ sanitize (sanitize inner) = sanitize inner
  /\ sanitize (sanitize (fenced (js "json") ws1 inner ws2))
     = sanitize (fenced (js "json") ws1 inner ws2)
  /\ sanitize (sanitize (fenced [] ws1 inner ws2))
     = sanitize (fenced [] ws1 inner ws2).
Proof.
  intros Ht Hf H1 H2 Hj.
  rewrite sanitize_fenced_tagged, sanitize_fenced_untagged by easy.
  rewrite !sanitize_clean by easy. easy.
Qed.

End SanitizerFacts.

(** ** [JSON.parse] always ends *)

Section JsonFacts.

Lemma skip_ws_length s : length (skip_ws s) <= length s.
Proof.
  induction s as [|c s IH]; simpl; [lia|].
  destruct (is_json_ws c); simpl; lia.
Qed.

Lemma skip_ws_head s c r : skip_ws s = c :: r -> length r < length s.
Proof.
  intros H. pose proof (skip_ws_length s) as L. rewrite H in L.
  simpl in L. lia.
Qed.

Lemma parse_chars_length s acc str r :
  parse_chars s acc = Some (str, r) -> length r < length s.
Proof.
  remember (length s) as n eqn:E. revert s acc E.
  induction n as [n IH] using lt_wf_ind. intros s acc -> H.
  destruct s as [|c s]; [discriminate|]. simpl in H.
  destruct (c =? 34)%N; [injection H as _ <-; simpl; lia|].
  destruct (c =? 92)%N.
  - destruct s as [|e r1]; [discriminate|].
    destruct (e =? 117)%N.
    + destruct r1 as [|a [|b [|x [|d r2]]]]; try discriminate.
      destruct (hex4 a b x d); [|discriminate].
      eapply IH in H; [| |reflexivity]; simpl; lia.
    + destruct (simple_escape e); [|discriminate].
      eapply IH in H; [| |reflexivity]; simpl; lia.
  - destruct (c <? 32)%N; [discriminate|].
    eapply IH in H; [| |reflexivity]; simpl; lia.
Qed.

Lemma span_digits_length s d r :
  span_digits s = (d, r) -> length r <= length s.
Proof.
  revert d r. induction s as [|c s IH]; intros d r H; simpl in H.
  - injection H as _ <-. simpl. lia.
  - destruct (is_digit c).
    + destruct (span_digits s) as [d' r'] eqn:E.
      injection H as _ <-. specialize (IH _ _ eq_refl). simpl. lia.
    + injection H as _ <-. simpl. lia.
Qed.

Lemma parse_int_length s i r :
  parse_int s = Some (i, r) -> length r < length s.
Proof.
  unfold parse_int. intros H.
  destruct s as [|c s]; [discriminate|].
  destruct (c =? 45)%N.
  - destruct s as [|c' s]; [discriminate|].
    destruct (c' =? 48)%N; [injection H as _ <-; simpl; lia|].
    destruct (is_digit c'); [|discriminate].
    destruct (span_digits s) as [d r'] eqn:E. injection H as _ <-.
    apply span_digits_length in E. simpl. lia.
  - destruct (c =? 48)%N; [injection H as _ <-; simpl; lia|].
    destruct (is_digit c); [|discriminate].
    destruct (span_digits s) as [d r'] eqn:E. injection H as _ <-.
    apply span_digits_length in E. simpl. lia.
Qed.

Lemma parse_frac_length s f r :
  parse_frac s = Some (f, r) -> length r <= length s.
Proof.
  unfold parse_frac. intros H.
  destruct s as [|c s]; [injection H as _ <-; simpl; lia|].
  destruct (c =? 46)%N; [|injection H as _ <-; simpl; lia].
  destruct (span_digits s) as [d r'] eqn:E.
  apply span_digits_length in E.
  destruct d; [discriminate|]. injection H as _ <-. simpl. lia.
Qed.

Lemma parse_exp_length s e r :
  parse_exp s = Some (e, r) -> length r <= length s.
Proof.
  unfold parse_exp. intros H.
  destruct s as [|c s]; [injection H as _ <-; simpl; lia|].
  destruct ((c =? 101) || (c =? 69))%N; [|injection H as _ <-; simpl; lia].
  destruct s as [|g r0].
  - simpl in H. discriminate.
  - destruct ((g =? 43) || (g =? 45))%N.
    + destruct (span_digits r0) as [d r'] eqn:E.
      apply span_digits_length in E.
      destruct d; [discriminate|]. injection H as _ <-. simpl. lia.
    + destruct (span_digits (g :: r0)) as [d r'] eqn:E.
      apply span_digits_length in E.
      destruct d; [discriminate|]. injection H as _ <-. simpl in *. lia.
Qed.

Lemma parse_number_length s n r :
  parse_number s = Some (n, r) -> length r < length s.
Proof.
  unfold parse_number. intros H.
  destruct (parse_int s) as [[i s1]|] eqn:E1; [|discriminate].
  destruct (parse_frac s1) as [[f s2]|] eqn:E2; [|discriminate].
  destruct (parse_exp s2) as [[e s3]|] eqn:E3; [|discriminate].
  injection H as _ <-.
  apply parse_int_length in E1. apply parse_frac_length in E2.
  apply parse_exp_length in E3. lia.
Qed.

Lemma startsWith_length s p : startsWith s p = true -> length p <= length s.
Proof.
  revert s. induction p as [|a p IH]; intros s H; simpl in *; [lia|].
  destruct s as [|b s]; [discriminate|].
  apply andb_prop in H as [_ H]. apply IH in H. simpl. lia.
Qed.

Lemma after_prefix_length p s r :
  after_prefix p s = Some r -> length r + length p = length s.
Proof.
  unfold after_prefix. destruct (startsWith s p) eqn:E; [|discriminate].
  intros [= <-]. apply startsWith_length in E. rewrite length_drop. lia.
Qed.

Lemma shorter_weaken res s s' :
  shorter res s' -> length s' <= length s -> shorter res s.
Proof. destruct res as [[v r]| |]; simpl; lia. Qed.

Ltac measure :=
  repeat match goal with
    | H : skip_ws _ = _ :: _ |- _ => apply skip_ws_head in H
    | H : parse_chars _ _ = Some _ |- _ => apply parse_chars_length in H
    | H : parse_number _ = Some _ |- _ => apply parse_number_length in H
    | H : after_prefix _ _ = Some _ |- _ =>
        apply after_prefix_length in H; simpl in H
    end.

Lemma parse_shorter f :
  (forall s, shorter (parse_value f s) s)
  /\ (forall acc s, shorter (parse_elements f acc s) s)
  /\ (forall acc s, shorter (parse_members f acc s) s).
Proof.
  induction f as [|f (IHv & IHe & IHm)]; [easy|].
  split; [|split].
  - intros s. cbn [parse_value].
    repeat case_match; simplify_eq; try exact I; measure;
      try (simpl in *; lia);
      (eapply shorter_weaken; [apply IHe || apply IHm|simpl in *; lia]).
  - intros acc s. cbn [parse_elements].
    destruct (parse_value f s) as [[v r]| |] eqn:E; try exact I.
    pose proof (IHv s) as L. rewrite E in L. simpl in L.
    repeat case_match; simplify_eq; try exact I; measure;
      try (simpl in *; lia).
    eapply shorter_weaken; [apply IHe|simpl in *; lia].
  - intros acc s. cbn [parse_members].
    repeat case_match; simplify_eq; try exact I; measure;
      match goal with
      | H : parse_value f ?x = POk _ |- _ =>
          let L := fresh in pose proof (IHv x) as L; rewrite H in L;
          simpl in L
      end;
      try (simpl in *; lia).
    eapply shorter_weaken; [apply IHm|simpl in *; lia].
Qed.

Ltac measure_value :=
  repeat match goal with
    | H : parse_value ?f ?x = POk _ |- _ =>
        let L := fresh in
        pose proof (proj1 (parse_shorter f) x) as L; rewrite H in L;
        simpl in L; clear H
    end.

Lemma parse_fueled f :
  (forall s, 2 * length s + 1 <= f -> fueled (parse_value f s))
  /\ (forall acc s, 2 * length s + 2 <= f -> fueled (parse_elements f acc s))
  /\ (forall acc s, 2 * length s + 2 <= f -> fueled (parse_members f acc s)).
Proof.
  induction f as [|f (IHv & IHe & IHm)].
  { repeat split; intros; lia. }
  split; [|split].
  - intros s Hf. cbn [parse_value].
    repeat case_match; simplify_eq; try exact I; measure;
      (apply IHe || apply IHm); simpl in *; lia.
  - intros acc s Hf. cbn [parse_elements].
    destruct (parse_value f s) as [[v r]| |] eqn:E; try exact I.
    + measure_value.
      repeat case_match; simplify_eq; try exact I; measure.
      apply IHe. simpl in *. lia.
    + pose proof (IHv s) as L. rewrite E in L. apply L. lia.
  - intros acc s Hf. cbn [parse_members].
    repeat case_match; simplify_eq; try exact I; measure.
    + measure_value. apply IHm. simpl in *. lia.
    + match goal with
      | H : parse_value f ?x = PFuel |- _ =>
          pose proof (IHv x) as L; rewrite H in L; apply L
      end.
      simpl in *. lia.
Qed.

(** [JSON.parse] returns a value or throws a [SyntaxError]: the bound on
    the recursion is never reached. *)
Theorem JSON_parse_total text : fueled (JSON_parse text).
Proof.
  unfold JSON_parse.
  pose proof (proj1 (parse_fueled (2 * length text + 1)) text) as L.
  destruct (parse_value (2 * length text + 1) text) as [[v r]| |];
    [|easy|apply L; lia].
  now destruct (skip_ws r).
Qed.

(** A text that begins with a backtick is no JSON text. *)
Lemma JSON_parse_backtick s : JSON_parse (96%N :: s) = PSyntax.
Proof. reflexivity. Qed.

End JsonFacts.

(** ** The Insights schema *)

Section SchemaFacts.
Import Zod Schemas Candidate.

Lemma accepts_no_issue s v :
  accepts s v = no_issue (fst (parse s [] (Some v))).
Proof.
  unfold accepts, safeParse. destruct (parse s [] (Some v)) as [[|i l] d]; easy.
Qed.

Lemma no_issue_app a b : no_issue (a ++ b) = no_issue a && no_issue b.
Proof. now destruct a. Qed.

Lemma no_issue_when b i : no_issue (when b i) = negb b.
Proof. now destruct b. Qed.

Lemma parse_items_cons el p i x r :
  parse_items el p i (x :: r) =
  let '(ix, ox) := el (p ++ [Index i]) (Some x) in
  let '(ir, or) := parse_items el p (S i) r in
  (ix ++ ir, match ox with Some y => y :: or | None => or end).
Proof. reflexivity. Qed.

Lemma parse_items_strings lo p i l :
  no_issue (fst (parse_items (parse (ZString lo)) p i (map JStr l)))
  = forallb (fun x => negb (below (length x) lo)) l.
Proof.
  remember (parse (ZString lo)) as el eqn:Hel.
  revert i. induction l as [|x l IH]; intros i; [easy|].
  cbn [map forallb]. rewrite parse_items_cons.
  destruct (parse_items el p (S i) (map JStr l)) as [ir or] eqn:E.
  specialize (IH (S i)). rewrite E in IH. cbn [fst] in IH.
  rewrite Hel. cbn [parse fst].
  now rewrite no_issue_app, no_issue_when, IH.
Qed.

(** Source literals, as the code units they stand for. *)
Ltac literals :=
  repeat match goal with
    | |- context [js ?s] =>
        let v := eval vm_compute in (js s) in change (js s) with v
    end.

Lemma parse_flashcard p f :
  no_issue
    (fst (parse (z_object [ (js "question", min 5 z_string);
                            (js "answer", min 5 z_string) ])
            p (Some (flashcard_json f))))
  = flashcard_ok f.
Proof.
  unfold flashcard_ok, flashcard_json. destruct f as [qu an].
  literals. cbn -[Nat.ltb Nat.leb].
  rewrite !no_issue_app, !no_issue_when, !Nat.ltb_antisym, !negb_involutive.
  now rewrite andb_true_r.
Qed.

Lemma parse_items_flashcards p i l :
  no_issue
    (fst (parse_items
            (parse (z_object [ (js "question", min 5 z_string);
                               (js "answer", min 5 z_string) ]))
            p i (map flashcard_json l)))
  = forallb flashcard_ok l.
Proof.
  remember (parse (z_object _)) as el eqn:Hel.
  revert i. induction l as [|x l IH]; intros i; [easy|].
  cbn [map forallb]. rewrite parse_items_cons.
  destruct (parse_items el p (S i) (map flashcard_json l)) as [ir or] eqn:E.
  specialize (IH (S i)). rewrite E in IH. cbn [fst] in IH.
  pose proof (parse_flashcard (p ++ [Index i]) x) as Hx. rewrite <- Hel in Hx.
  destruct (el (p ++ [Index i]) (Some (flashcard_json x))) as [ix ox].
  cbn [fst] in *. now rewrite no_issue_app, Hx, IH.
Qed.

Lemma parse_array_issues el lo hi p items :
  no_issue (fst (parse (ZArray el lo hi) p (Some (JArr items))))
  = negb (below (length items) lo) && negb (above (length items) hi)
    && no_issue (fst (parse_items (parse el) p 0 items)).
Proof.
  cbn [parse]. destruct (parse_items (parse el) p 0 items) as [inner out].
  cbn [fst]. now rewrite !no_issue_app, !no_issue_when, andb_assoc.
Qed.

Lemma parse_fields_issues f props p shape :
  no_issue (fst (parse_fields f props p shape))
  = forallb (fun ks => no_issue (fst (f (snd ks) (p ++ [Key (fst ks)])
                                        (get_prop (fst ks) props)))) shape.
Proof.
  induction shape as [|[k sk] r IH]; [easy|].
  cbn [parse_fields forallb fst snd].
  destruct (f sk (p ++ [Key k]) (get_prop k props)) as [ik ok].
  destruct (parse_fields f props p r) as [ir or].
  cbn [fst] in *. now rewrite no_issue_app, IH.
Qed.

Lemma accepts_object shape props :
  accepts (ZObject shape) (JObj props)
  = forallb (fun ks => no_issue (fst (parse (snd ks) [Key (fst ks)]
                                        (get_prop (fst ks) props)))) shape.
Proof.
  rewrite accepts_no_issue. cbn [parse].
  pose proof (parse_fields_issues (fun sk => parse sk) props [] shape) as H.
  destruct (parse_fields _ props [] shape) as [inner out].
  cbn [fst] in *. exact H.
Qed.

(** C2, as amended. The validator accepts a candidate exactly when it is
    within the bounds on the four fields (summary of 20 characters or
    more, 1 to 6 key concepts, at most 5 flashcards, 1 to 5 action
    items) and the question and the answer of every flashcard have 5
    characters or more; so it rejects every candidate outside the
    bounds on the four fields. *)
Theorem InsightsSchema_accepts (c : InsightsResult) :
  accepts InsightsSchema (to_json c)
  = within_bounds c && forallb flashcard_ok (flashcards c).
Proof.
  unfold to_json, InsightsSchema, z_object. rewrite accepts_object.
  cbn [forallb fst snd].
  change (get_prop (js "summary") _) with (Some (JStr (summary c))).
  change (get_prop (js "keyConcepts") _)
    with (Some (JArr (map JStr (keyConcepts c)))).
  change (get_prop (js "flashcards") _)
    with (Some (JArr (map flashcard_json (flashcards c)))).
  change (get_prop (js "actionItems") _)
    with (Some (JArr (map JStr (actionItems c)))).
  cbn [min max z_array]. unfold z_string.
  rewrite !parse_array_issues, !parse_items_strings.
  change (ZObject [(js "question", ZString (Some 5));
                   (js "answer", ZString (Some 5))])
    with (z_object [(js "question", min 5 z_string);
                    (js "answer", min 5 z_string)]).
  rewrite parse_items_flashcards.
  cbn [parse fst min]. rewrite no_issue_when.
  unfold within_bounds, below, above. rewrite !length_map.
  assert (F : forall l : list jsstring,
             forallb (fun _ : jsstring => negb false) l = true)
    by (induction l; simpl; auto).
  rewrite !F, !Nat.ltb_antisym, !negb_involutive.
  cbn [negb]. rewrite !andb_true_r, !andb_true_l.
  destruct (forallb flashcard_ok (flashcards c));
    repeat match goal with
      | |- context [?a <=? ?b] => destruct (a <=? b)
      end; reflexivity.
Qed.

(** The rejections hold of any object, whatever else it has: a list too
    long or too short, or a summary too short, is enough. *)
Lemma InsightsSchema_rejects_out_of_bounds props :
  (exists l, get_prop (js "flashcards") props = Some (JArr l)
             /\ 5 < length l)
  \/ (exists l, get_prop (js "keyConcepts") props = Some (JArr l)
                /\ (length l = 0 \/ 6 < length l))
  \/ (exists l, get_prop (js "actionItems") props = Some (JArr l)
                /\ (length l = 0 \/ 5 < length l))
  \/ (exists t, get_prop (js "summary") props = Some (JStr t)
                /\ length t < 20) ->
  accepts InsightsSchema (JObj props) = false.
Proof.
  intros H. unfold InsightsSchema, z_object. rewrite accepts_object.
  cbn [forallb fst snd min max z_array]. unfold z_string.
  assert (B : forall n k, n < k -> (n <? k) = true)
    by (intros; now apply Nat.ltb_lt).
  destruct H as [(l & -> & Hl)|[(l & -> & Hl)|[(l & -> & Hl)|(t & -> & Hl)]]].
  - rewrite parse_array_issues. unfold above. rewrite (B _ _ Hl).
    cbn [negb]. now rewrite ?andb_false_r.
  - rewrite parse_array_issues. unfold below, above.
    destruct Hl as [->|Hl]; [|rewrite (B _ _ Hl)];
      cbn [negb Nat.ltb Nat.leb andb]; now rewrite ?andb_false_r.
  - rewrite (parse_array_issues _ _ _ [Key (js "actionItems")]).
    unfold below, above.
    destruct Hl as [->|Hl]; [|rewrite (B _ _ Hl)];
      cbn [negb Nat.ltb Nat.leb andb]; now rewrite ?andb_false_r.
  - cbn [parse fst min]. rewrite no_issue_when. unfold below.
    now rewrite (B _ _ Hl).
Qed.

(** C2, as stated, fails: a candidate within the four bounds whose one
    flashcard has a question of two characters is rejected. *)
Lemma InsightsSchema_rejects_short_flashcard :
  within_bounds Examples.short_question = true
  /\ accepts InsightsSchema (to_json Examples.short_question) = false.
Proof. split; reflexivity. Qed.

End SchemaFacts.

(** ** The generators *)

Section GeneratorFacts.
Import Zod Schemas Sanitizer Examples.

Lemma jsstring_eqb_eq a b : jsstring_eqb a b = true -> a = b.
Proof.
  revert b. induction a as [|x a IH]; intros [|y b] H; try easy.
  cbn in H. apply andb_prop in H as [Hx Hab].
  apply N.eqb_eq in Hx. apply IH in Hab. congruence.
Qed.

Lemma parse_fields_keys f props p shape k x :
  get_prop k (snd (parse_fields f props p shape)) = Some x ->
  In k (map fst shape).
Proof.
  induction shape as [|[k0 sk] r IH]; [easy|].
  cbn [parse_fields map fst].
  destruct (f sk (p ++ [Key k0]) (get_prop k0 props)) as [ik ok].
  destruct (parse_fields f props p r) as [ir or]. cbn [snd] in *.
  destruct ok as [y|]; [|intros H; right; now apply IH].
  cbn [get_prop]. destruct (jsstring_eqb k k0) eqn:E.
  - intros _. left. symmetry. now apply jsstring_eqb_eq.
  - intros H. right. now apply IH.
Qed.

(** What an object schema hands back on success has the keys of its
    shape and no other. *)
Lemma safeParse_object_keys shape v d :
  safeParse (ZObject shape) v = success d ->
  exists out, d = Some (JObj out)
              /\ forall k x, get_prop k out = Some x -> In k (map fst shape).
Proof.
  unfold safeParse. destruct v; cbn [parse]; try discriminate.
  pose proof (parse_fields_keys (fun sk => parse sk) props [] shape) as K.
  destruct (parse_fields _ props [] shape) as [inner out].
  destruct inner; [|discriminate]. intros [= <-]. exists out. now split.
Qed.

(** C10. When the schema accepts the object that [JSON.parse] built
    from the response, either generator returns that very object, and
    for insights that object is what the session stores; and whatever a
    generator returns is that object. The value the schema hands back,
    which has the fields of the schema and no other, is not used: a
    field the schema does not name stays in what is returned. *)
Theorem generators_return_parsed :
  (forall raw rest p,
     JSON_parse (sanitize raw) = POk p ->
     accepts InsightsSchema p = true ->
     insights_of_completion (Some raw :: rest) = Ok p
     /\ (forall now s,
           insights (assign_all
                       (settled (processSession_insights
                                   (Ok (Some raw :: rest)) now))
                       s) = Some p))
  /\ (forall response p,
        JSON_parse (trim (content_or_empty response)) = POk p ->
        accepts OutlineSchema p = true ->
        outline_of_completion response = Ok p
        /\ (forall text,
              snd (extractOutlineFromText text (Ok response)) = Ok p))
  /\ (forall response v,
        insights_of_completion response = Ok v ->
        exists raw rest data,
          response = Some raw :: rest
          /\ JSON_parse (sanitize raw) = POk v
          /\ safeParse InsightsSchema v = success (Some (JObj data))
          /\ (forall k x, get_prop k data = Some x ->
                In k [js "summary"; js "keyConcepts"; js "flashcards";
                      js "actionItems"])
          /\ (forall now s,
                insights (assign_all
                            (settled (processSession_insights (Ok response) now))
                            s) = Some v))
  /\ (forall response v,
        outline_of_completion response = Ok v ->
        exists data,
          JSON_parse (trim (content_or_empty response)) = POk v
          /\ safeParse OutlineSchema v = success (Some (JObj data))
          /\ (forall k x, get_prop k data = Some x ->
                In k [js "highlights"; js "exams"; js "assignments"])
          /\ (forall text,
                snd (extractOutlineFromText text (Ok response)) = Ok v)).
Proof.
  split; [|split; [|split]].
  - intros raw rest p Hp Ha.
    assert (E : insights_of_completion (Some raw :: rest) = Ok p).
    { unfold insights_of_completion. rewrite Hp. unfold accepts in Ha.
      now destruct (safeParse InsightsSchema p). }
    split; [exact E|].
    intros now s. unfold processSession_insights. rewrite E. now destruct s.
  - intros response p Hp Ha.
    assert (E : outline_of_completion response = Ok p).
    { unfold outline_of_completion. cbn zeta. rewrite Hp.
      unfold accepts in Ha. now destruct (safeParse OutlineSchema p). }
    split; [exact E|]. intros text. exact E.
  - intros response v H.
    assert (H' := H). unfold insights_of_completion in H.
    destruct response as [|[raw|] rest]; try discriminate.
    destruct (JSON_parse (sanitize raw)) as [parsed| |] eqn:P;
      try discriminate.
    destruct (safeParse InsightsSchema parsed) as [d|] eqn:V;
      try discriminate.
    injection H as <-.
    destruct (safeParse_object_keys _ _ _ V) as (out & -> & K).
    exists raw, rest, out. repeat split; try easy.
    intros now s. unfold processSession_insights. rewrite H'.
    now destruct s.
  - intros response v H.
    assert (H' := H). unfold outline_of_completion in H.
    destruct (JSON_parse (trim (content_or_empty response)))
      as [parsed| |] eqn:P; try discriminate.
    destruct (safeParse OutlineSchema parsed) as [d|] eqn:V;
      try discriminate.
    injection H as <-.
    destruct (safeParse_object_keys _ _ _ V) as (out & -> & K).
    exists out. repeat split; easy.
Qed.

Lemma generators_return_parsed_witness :
  exists v w data,
    insights_of_completion [Some insights_text] = Ok v
    /\ get_prop (js "confidence") (fields v) = Some (JNum (js "0.9"))
    /\ safeParse InsightsSchema v = success (Some (JObj data))
    /\ get_prop (js "confidence") data = None
    /\ outline_of_completion [Some outline_text] = Ok w
    /\ get_prop (js "term") (fields w) = Some (JStr (js "Fall")).
Proof.
  destruct generators_return_parsed as (H1 & H2 & H3 & _).
  destruct (JSON_parse (sanitize insights_text)) as [p| |] eqn:Pp;
    [|vm_compute in Pp; discriminate Pp|vm_compute in Pp; discriminate Pp].
  destruct (JSON_parse (trim (content_or_empty [Some outline_text])))
    as [q| |] eqn:Pq;
    [|vm_compute in Pq; discriminate Pq|vm_compute in Pq; discriminate Pq].
  assert (Ap : accepts InsightsSchema p = true).
  { vm_compute in Pp. injection Pp as <-. now vm_compute. }
  assert (Aq : accepts OutlineSchema q = true).
  { vm_compute in Pq. injection Pq as <-. now vm_compute. }
  destruct (H1 insights_text [] p Pp Ap) as [Ep _].
  destruct (H2 [Some outline_text] q Pq Aq) as [Eq _].
  destruct (H3 _ p Ep) as (raw & rest & data & _ & _ & V & K & _).
  exists p, q, data. split; [exact Ep|].
  split; [vm_compute in Pp; injection Pp as <-; reflexivity|].
  split; [exact V|]. split.
  - destruct (get_prop (js "confidence") data) as [x|] eqn:G; [|reflexivity].
    exfalso. apply K in G. vm_compute in G.
    repeat (destruct G as [G|G]; [discriminate G|]). exact G.
  - split; [exact Eq|].
    vm_compute in Pq. injection Pq as <-. reflexivity.
Defined.

(** C7, as amended. The OutlineExtractor trims the response and parses
    it: it strips no fence marker. A response that begins with the
    marker, once trimmed, fails with the parse error, whatever the
    block holds. *)
Theorem outline_fence_is_parse_error raw rest :
  startsWith (trim raw) fence = true ->
  outline_of_completion (Some raw :: rest) = Throw (js "Invalid outline JSON").
Proof.
  intros H. unfold outline_of_completion. cbn [content_or_empty].
  destruct (trim raw) as [|c r]; [discriminate H|].
  change fence with [96; 96; 96]%N in H. cbn [startsWith] in H.
  apply andb_prop in H as [Hc _]. apply N.eqb_eq in Hc as <-.
  now rewrite JSON_parse_backtick.
Qed.

Lemma outline_fence_is_parse_error_witness :
  outline_of_completion [Some fenced_outline]
  = Throw (js "Invalid outline JSON").
Proof.
  apply (outline_fence_is_parse_error fenced_outline []). reflexivity.
Defined.

(** C7, as stated, fails: a fenced block that holds a valid outline, one
    the extractor accepts when it comes bare and the sanitizer would
    unwrap, is a parse error. *)
Lemma outline_fenced_valid_json_fails :
  sanitize fenced_outline = outline_text
  /\ (exists v, outline_of_completion [Some outline_text] = Ok v)
  /\ outline_of_completion [Some fenced_outline]
     = Throw (js "Invalid outline JSON").
Proof.
  split; [vm_compute; reflexivity|].
  split; [eexists; vm_compute; reflexivity|].
  vm_compute; reflexivity.
Qed.

End GeneratorFacts.

(** ** One run of the pipeline *)

Section PipelineFacts.
Import Zod Schemas Examples.

Lemma too_short_length t : too_short t = (length (trim t) <? 20).
Proof. now destruct t. Qed.

(** The run after a transcript too short for insights. *)
Lemma run_short env ans s text :
  has_key env = true -> existsSync env (audioPath s) = true ->
  transcription ans = Ok text -> too_short (transcript_of text) = true ->
  run env ans s =
  {| writes := [set_progress 10; set_status processing;
                set_transcript (transcript_of text); set_progress 60;
                set_status transcribed;
                set_insights (Some fallback_insights); set_status ready;
                set_progress 100; set_processedAt (Some (transcribed_at ans))];
     calls := [Transcription (audioPath s)];
     next := Resolved |}.
Proof.
  intros Hk He Ht Hs.
  unfold run, then_, processSession_start, resume, processSession_transcribed.
  rewrite Hk, He. cbn. rewrite Ht. cbn -[too_short transcript_of].
  rewrite Hs. reflexivity.
Qed.

(** The run up to the completion request, after a longer transcript. *)
Lemma run_long env ans s text :
  has_key env = true -> existsSync env (audioPath s) = true ->
  transcription ans = Ok text -> too_short (transcript_of text) = false ->
  exists b,
    run env ans s =
    {| writes := [set_progress 10; set_status processing;
                  set_transcript (transcript_of text); set_progress 60;
                  set_status transcribed] ++ writes b;
       calls := [Transcription (audioPath s);
                 InsightsCompletion (transcript_of text)] ++ calls b;
       next := next b |}
    /\ b = processSession_insights (chat ans) (completed_at ans).
Proof.
  intros Hk He Ht Hs. eexists. split; [|reflexivity].
  unfold run, then_, processSession_start, resume, processSession_transcribed.
  rewrite Hk, He. cbn. rewrite Ht. cbn -[too_short transcript_of].
  rewrite Hs. reflexivity.
Qed.

(** C1. Once the transcription provider has answered, a run asks the
    completion provider for insights exactly when the trimmed transcript
    has 20 characters or more; with fewer (none included) it asks for
    nothing, stores the fixed fallback result as it is (the summary
    about no audible content, no key concept, no flashcard and the three
    action items, in this order) and ends with status ready. *)
Theorem short_transcript_guard env ans s text :
  has_key env = true -> existsSync env (audioPath s) = true ->
  transcription ans = Ok text ->
  (20 <= length (trim (transcript_of text)) ->
     In (InsightsCompletion (transcript_of text)) (calls (run env ans s)))
  /\ (length (trim (transcript_of text)) < 20 ->
        (forall t, ~ In (InsightsCompletion t) (calls (run env ans s)))
        /\ next (run env ans s) = Resolved
        /\ insights (assign_all (settled (run env ans s)) s)
           = Some (JObj
                    [ (js "summary",
                        JStr (js "The recording did not contain enough audible content to generate insights."));
                      (js "keyConcepts", JArr []);
                      (js "flashcards", JArr []);
                      (js "actionItems",
                        JArr
                          [ JStr (js "Re-record the session with clearer speech.");
                            JStr (js "Ensure the microphone is close to the speaker.");
                            JStr (js "Avoid long silences during recording.") ]) ])
        /\ status (assign_all (settled (run env ans s)) s) = ready).
Proof.
  intros Hk He Ht. split; intros Hlen.
  - destruct (run_long env ans s text) as (b & -> & _); try easy.
    + rewrite too_short_length. now apply Nat.ltb_ge.
    + simpl. auto.
  - rewrite (run_short env ans s text); try easy.
    + destruct s. repeat split; try easy.
      intros t [H|[]]. discriminate.
    + rewrite too_short_length. now apply Nat.ltb_lt.
Qed.

Lemma short_transcript_guard_witness :
  In (InsightsCompletion (transcript_of lecture))
     (calls (run env_ok answers_long fresh))
  /\ (forall t, ~ In (InsightsCompletion t)
                     (calls (run env_ok answers_short fresh)))
  /\ next (run env_ok answers_short fresh) = Resolved
  /\ insights (assign_all (settled (run env_ok answers_short fresh)) fresh)
     = Some (JObj
              [ (js "summary",
                  JStr (js "The recording did not contain enough audible content to generate insights."));
                (js "keyConcepts", JArr []);
                (js "flashcards", JArr []);
                (js "actionItems",
                  JArr
                    [ JStr (js "Re-record the session with clearer speech.");
                      JStr (js "Ensure the microphone is close to the speaker.");
                      JStr (js "Avoid long silences during recording.") ]) ])
  /\ status (assign_all (settled (run env_ok answers_short fresh)) fresh)
     = ready.
Proof.
  split.
  - apply (short_transcript_guard env_ok answers_long fresh lecture);
      try reflexivity.
    apply Nat.leb_le. reflexivity.
  - apply (short_transcript_guard env_ok answers_short fresh (js " um "));
      try reflexivity.
    apply Nat.ltb_lt. reflexivity.
Defined.

(** C9. The fallback result stored on the short-transcript path is
    rejected by the Insights schema, for its empty list of key concepts
    and nothing else; the session that holds it has status ready. *)
Theorem fallback_fails_schema env ans s text :
  has_key env = true -> existsSync env (audioPath s) = true ->
  transcription ans = Ok text -> too_short (transcript_of text) = true ->
  status (assign_all (settled (run env ans s)) s) = ready
  /\ insights (assign_all (settled (run env ans s)) s) = Some fallback_insights
  /\ safeParse InsightsSchema fallback_insights
     = failure [Issue too_small [Key (js "keyConcepts")]].
Proof.
  intros Hk He Ht Hs. rewrite (run_short env ans s text) by easy.
  destruct s. repeat split.
Qed.

Lemma fallback_fails_schema_witness :
  status (assign_all (settled (run env_ok answers_short fresh)) fresh) = ready
  /\ insights (assign_all (settled (run env_ok answers_short fresh)) fresh)
     = Some fallback_insights
  /\ safeParse InsightsSchema fallback_insights
     = failure [Issue too_small [Key (js "keyConcepts")]].
Proof.
  apply (fallback_fails_schema env_ok answers_short fresh (js " um "));
    reflexivity.
Defined.

(** The five ways a run can go. *)
Lemma run_cases env ans s :
  (exists m,
     run env ans s =
     {| writes := [set_progress 10; set_status processing];
        calls := []; next := Rejected m |})
  \/ (exists m,
     run env ans s =
     {| writes := [set_progress 10; set_status processing];
        calls := [Transcription (audioPath s)]; next := Rejected m |})
  \/ (exists t now,
     run env ans s =
     {| writes := [set_progress 10; set_status processing;
                   set_transcript t; set_progress 60; set_status transcribed;
                   set_insights (Some fallback_insights); set_status ready;
                   set_progress 100; set_processedAt (Some now)];
        calls := [Transcription (audioPath s)]; next := Resolved |})
  \/ (exists t m,
     run env ans s =
     {| writes := [set_progress 10; set_status processing;
                   set_transcript t; set_progress 60; set_status transcribed];
        calls := [Transcription (audioPath s); InsightsCompletion t];
        next := Rejected m |})
  \/ (exists t v now,
     run env ans s =
     {| writes := [set_progress 10; set_status processing;
                   set_transcript t; set_progress 60; set_status transcribed;
                   set_insights (Some v); set_progress 100; set_status ready;
                   set_processedAt (Some now)];
        calls := [Transcription (audioPath s); InsightsCompletion t];
        next := Resolved |}).
Proof.
  unfold run, then_, processSession_start, resume,
    processSession_transcribed, processSession_insights.
  destruct (has_key env); cbn; [|eauto].
  destruct (existsSync env (audioPath s)); cbn; [|eauto].
  destruct (transcription ans) as [text|m]; cbn -[too_short transcript_of];
    [|eauto].
  destruct (too_short (transcript_of text)); cbn -[transcript_of];
    [eauto 8|].
  destruct (chat ans) as [response|m]; cbn -[transcript_of]; [|eauto 8].
  destruct (insights_of_completion response) as [v|m]; cbn -[transcript_of];
    eauto 12.
Qed.

(** Along the assignments of a run taken alone (with its caller's
    handler when it fails), started as both callers start it, from
    status processing and progress 0: the status only goes from
    processing to transcribed, from transcribed to ready, or from
    anything to failed; the progress is 0, 10, 60 or 100 throughout; it
    never decreases when the run succeeds; it is 0 after a run that
    fails; and the run does end, one way or the other. *)
Lemma run_alone_state_machine env ans s :
  status s = processing -> progress s = 0%Z ->
  chain (fun a b => status_step (status a) (status b)) s
    (trace (settled (run env ans s)) s)
  /\ Forall (fun x => progress_value (progress x))
       (trace (settled (run env ans s)) s)
  /\ (next (run env ans s) = Resolved ->
        chain (fun a b => (progress a <= progress b)%Z) s
          (trace (settled (run env ans s)) s))
  /\ (forall m, next (run env ans s) = Rejected m ->
        progress (assign_all (settled (run env ans s)) s) = 0%Z)
  /\ (next (run env ans s) = Resolved
      \/ exists m, next (run env ans s) = Rejected m).
Proof.
  intros Hs Hp. destruct s. cbn in Hs, Hp. subst.
  destruct (run_cases env ans
             {| id := id0; eventId := eventId0; title := title0;
                audioPath := audioPath0; audioFilename := audioFilename0;
                transcript := transcript0; insights := insights0;
                status := processing; progress := 0; error := error0;
                createdAt := createdAt0; processedAt := processedAt0 |})
    as [(m & ->)|[(m & ->)|[(t & now & ->)|[(t & m & ->)|(t & v & now & ->)]]]];
    (split; [|split; [|split; [|split]]]).
  all: unfold settled; cbn -[js].
  all: try (repeat split; unfold status_step; solve
              [ left; reflexivity
              | right; left; split; reflexivity
              | right; right; left; split; reflexivity
              | right; right; right; reflexivity ]).
  all: try (repeat (apply Stdlib.Lists.List.Forall_cons;
                    [unfold progress_value; cbn; lia|]);
            apply Stdlib.Lists.List.Forall_nil).
  all: try (intros H; try discriminate H; repeat split; lia).
  all: try (intros m' H; try discriminate H; reflexivity).
  all: first [left; reflexivity | right; eexists; reflexivity].
Qed.

(** A run that rejects, at whatever point and for whatever reason,
    leaves the session with status failed, progress 0 and a non-empty
    error text: the message of the failure, or a fixed text when that
    message is empty. The handler's three assignments are the last ones
    made, and by then each provider was asked at most once. *)
Lemma rejection_is_recorded env ans s m :
  next (run env ans s) = Rejected m ->
  status (assign_all (settled (run env ans s)) s) = failed
  /\ progress (assign_all (settled (run env ans s)) s) = 0%Z
  /\ error (assign_all (settled (run env ans s)) s)
     = Some (or_else m (js "Unknown error"))
  /\ or_else m (js "Unknown error") <> []
  /\ settled (run env ans s) = writes (run env ans s) ++ on_rejection m
  /\ (calls (run env ans s) = []
      \/ calls (run env ans s) = [Transcription (audioPath s)]
      \/ exists t, calls (run env ans s)
                   = [Transcription (audioPath s); InsightsCompletion t]).
Proof.
  intros H. unfold settled. rewrite H.
  destruct (run_cases env ans s)
    as [(m' & E)|[(m' & E)|[(t & now & E)|[(t & m' & E)|(t & v & now & E)]]]];
    rewrite E in *; cbn -[js] in H; try discriminate H;
    injection H as ->; destruct s; cbn -[js];
    (repeat split; [now destruct m|eauto]).
Qed.

(** The four kinds of failure, each of which makes the run reject. *)
Lemma run_rejects_without_key env ans s :
  has_key env = false ->
  next (run env ans s) = Rejected (js "Missing OPENAI_API_KEY in .env").
Proof.
  intros H. unfold run, then_, processSession_start. now rewrite H.
Qed.

Lemma run_rejects_provider_failure env ans s m :
  has_key env = true -> existsSync env (audioPath s) = true ->
  transcription ans = Throw m ->
  next (run env ans s) = Rejected m.
Proof.
  intros Hk He Ht.
  unfold run, then_, processSession_start, resume, processSession_transcribed.
  rewrite Hk, He. cbn. now rewrite Ht.
Qed.

Lemma run_rejects_invalid_json env ans s text raw rest :
  has_key env = true -> existsSync env (audioPath s) = true ->
  transcription ans = Ok text -> too_short (transcript_of text) = false ->
  chat ans = Ok (Some raw :: rest) ->
  JSON_parse (Sanitizer.sanitize raw) = PSyntax ->
  next (run env ans s) = Rejected (js "LLM returned invalid JSON").
Proof.
  intros Hk He Ht Hs Hc Hp.
  destruct (run_long env ans s text Hk He Ht Hs) as (b & -> & ->).
  cbn [next]. unfold processSession_insights, insights_of_completion.
  now rewrite Hc, Hp.
Qed.

Lemma run_rejects_schema_violation env ans s text raw rest v :
  has_key env = true -> existsSync env (audioPath s) = true ->
  transcription ans = Ok text -> too_short (transcript_of text) = false ->
  chat ans = Ok (Some raw :: rest) ->
  JSON_parse (Sanitizer.sanitize raw) = POk v ->
  accepts InsightsSchema v = false ->
  next (run env ans s) = Rejected (js "LLM output failed schema validation").
Proof.
  intros Hk He Ht Hs Hc Hp Hv.
  destruct (run_long env ans s text Hk He Ht Hs) as (b & -> & ->).
  cbn [next]. unfold processSession_insights, insights_of_completion.
  rewrite Hc, Hp. unfold accepts in Hv.
  now destruct (safeParse InsightsSchema v).
Qed.

(** What the handler of a rejection leaves, whatever the block. *)
Lemma rejected_block_recorded (b : block) s m :
  next b = Rejected m ->
  settled b = writes b ++ on_rejection m
  /\ status (assign_all (settled b) s) = failed
  /\ progress (assign_all (settled b) s) = 0%Z
  /\ error (assign_all (settled b) s) = Some (or_else m (js "Unknown error"))
  /\ or_else m (js "Unknown error") <> [].
Proof.
  intros H. unfold settled. rewrite H. split; [reflexivity|].
  unfold assign_all. rewrite fold_left_app.
  destruct (fold_left (fun s a => assign a s) (writes b) s).
  cbn -[js or_else]. repeat split. now destruct m.
Qed.

(** The run when the completion provider is asked, by what comes of it. *)
Lemma run_long_rejected env ans s text m :
  has_key env = true -> existsSync env (audioPath s) = true ->
  transcription ans = Ok text -> too_short (transcript_of text) = false ->
  processSession_insights (chat ans) (completed_at ans)
  = {| writes := []; calls := []; next := Rejected m |} ->
  next (run env ans s) = Rejected m
  /\ calls (run env ans s)
     = [Transcription (audioPath s); InsightsCompletion (transcript_of text)].
Proof.
  intros Hk He Ht Hs Hb.
  destruct (run_long env ans s text Hk He Ht Hs) as (b & -> & ->).
  rewrite Hb. now split.
Qed.

(** C4. Each failure of a run ends it there and is recorded on the
    session. Without a key, or without the audio file, no provider is
    asked; when the transcription provider fails, it was asked once and
    the completion provider is not asked; when the completion provider
    fails, or its answer has no choice, a null content, a content that
    is no JSON text, or one the schema rejects, each provider was asked
    once. In each case the run rejects with the message of the failure,
    the assignments of the caller's handler are the last ones made, and
    the session is left with status failed, progress 0 and a non-empty
    error text: that message, or a fixed text when the message is
    empty. The same holds of a run that rejects for whatever reason. *)
Theorem failure_ends_run env ans s :
  let b := run env ans s in
  let final := assign_all (settled b) s in
  let ends_failed (m : jsstring) (asked : list call) :=
    next b = Rejected m /\ calls b = asked
    /\ settled b = writes b ++ on_rejection m
    /\ status final = failed /\ progress final = 0%Z
    /\ error final = Some (or_else m (js "Unknown error"))
    /\ or_else m (js "Unknown error") <> [] in
  (has_key env = false ->
   ends_failed (js "Missing OPENAI_API_KEY in .env") [])
  /\ (has_key env = true -> existsSync env (audioPath s) = false ->
      ends_failed (js "Audio file not found: " ++ audioPath s) [])
  /\ (forall m,
        has_key env = true -> existsSync env (audioPath s) = true ->
        transcription ans = Throw m ->
        ends_failed m [Transcription (audioPath s)])
  /\ (forall text,
        has_key env = true -> existsSync env (audioPath s) = true ->
        transcription ans = Ok text ->
        too_short (transcript_of text) = false ->
        let asked := [Transcription (audioPath s);
                      InsightsCompletion (transcript_of text)] in
        (forall m, chat ans = Throw m -> ends_failed m asked)
        /\ (chat ans = Ok [] ->
            ends_failed
              (js "Cannot read properties of undefined (reading 'message')")
              asked)
        /\ (forall rest, chat ans = Ok (None :: rest) ->
            ends_failed
              (js "Cannot read properties of null (reading 'trim')") asked)
        /\ (forall raw rest, chat ans = Ok (Some raw :: rest) ->
            (forall p, JSON_parse (Sanitizer.sanitize raw) <> POk p) ->
            ends_failed (js "LLM returned invalid JSON") asked)
        /\ (forall raw rest p, chat ans = Ok (Some raw :: rest) ->
            JSON_parse (Sanitizer.sanitize raw) = POk p ->
            accepts InsightsSchema p = false ->
            ends_failed (js "LLM output failed schema validation") asked))
  /\ (forall m, next b = Rejected m ->
        ends_failed m (calls b)
        /\ (calls b = []
            \/ calls b = [Transcription (audioPath s)]
            \/ exists t, calls b = [Transcription (audioPath s);
                                    InsightsCompletion t])).
Proof.
  intros b final ends_failed.
  assert (R : forall m asked,
            next b = Rejected m -> calls b = asked -> ends_failed m asked).
  { intros m asked Hn Hc. split; [exact Hn|]. split; [exact Hc|].
    exact (rejected_block_recorded b s m Hn). }
  split; [|split; [|split; [|split]]].
  - intros Hk. apply R; unfold b, run, then_, processSession_start;
      now rewrite Hk.
  - intros Hk He. apply R; unfold b, run, then_, processSession_start;
      now rewrite Hk, He.
  - intros m Hk He Ht.
    apply R; unfold b, run, then_, processSession_start, resume,
      processSession_transcribed; rewrite Hk, He; cbn; now rewrite Ht.
  - intros text Hk He Ht Hs asked.
    assert (L : forall m,
              processSession_insights (chat ans) (completed_at ans)
              = {| writes := []; calls := []; next := Rejected m |} ->
              ends_failed m asked).
    { intros m Hb.
      destruct (run_long_rejected env ans s text m Hk He Ht Hs Hb).
      now apply R. }
    split; [|split; [|split; [|split]]].
    + intros m Hc. apply L. unfold processSession_insights. now rewrite Hc.
    + intros Hc. apply L. unfold processSession_insights. now rewrite Hc.
    + intros rest Hc. apply L. unfold processSession_insights.
      now rewrite Hc.
    + intros raw rest Hc Hp. apply L.
      unfold processSession_insights, insights_of_completion. rewrite Hc.
      destruct (JSON_parse (Sanitizer.sanitize raw)) as [p| |]; try easy.
      now destruct (Hp p).
    + intros raw rest p Hc Hp Hv. apply L.
      unfold processSession_insights, insights_of_completion.
      rewrite Hc, Hp. unfold accepts in Hv.
      now destruct (safeParse InsightsSchema p).
  - intros m Hn. split; [now apply R|].
    now destruct (rejection_is_recorded env ans s m Hn) as (_ & _ & _ & _ & _ & C).
Qed.

Lemma failure_ends_run_witness :
  (status (assign_all (settled (run env_ok answers_rate_limited fresh)) fresh)
   = failed
   /\ error (assign_all (settled (run env_ok answers_rate_limited fresh)) fresh)
      = Some (js "429 Rate limit reached for requests")
   /\ calls (run env_ok answers_rate_limited fresh)
      = [Transcription (audioPath fresh);
         InsightsCompletion (transcript_of lecture)])
  /\ (status (assign_all (settled (run env_ok answers_not_json fresh)) fresh)
      = failed
      /\ progress (assign_all (settled (run env_ok answers_not_json fresh)) fresh)
         = 0%Z
      /\ error (assign_all (settled (run env_ok answers_not_json fresh)) fresh)
         = Some (js "LLM returned invalid JSON"))
  /\ status (assign_all (settled (run env_ok answers_offline fresh)) fresh)
     = failed.
Proof.
  split; [|split].
  - destruct (failure_ends_run env_ok answers_rate_limited fresh)
      as (_ & _ & _ & H & _).
    destruct (H lecture eq_refl eq_refl eq_refl eq_refl) as (Hc & _).
    destruct (Hc (js "429 Rate limit reached for requests") eq_refl)
      as (_ & C & _ & S & _ & E & _).
    split; [exact S|]. split; [exact E|exact C].
  - destruct (failure_ends_run env_ok answers_not_json fresh)
      as (_ & _ & _ & H & _).
    destruct (H lecture eq_refl eq_refl eq_refl eq_refl)
      as (_ & _ & _ & Hj & _).
    destruct (Hj (js "Sorry, I cannot help with that.") [] eq_refl)
      as (_ & _ & _ & S & Pr & E & _).
    { intros p. vm_compute. discriminate. }
    split; [exact S|]. split; [exact Pr|exact E].
  - destruct (failure_ends_run env_ok answers_offline fresh)
      as (_ & _ & H & _).
    now destruct (H (js "Connection error.") eq_refl eq_refl eq_refl)
      as (_ & _ & _ & S & _).
Defined.

End PipelineFacts.

(** ** The server *)

Section ServerFacts.
Import Examples.

Lemma start_keeps_consistent env s0 :
  keeps_consistent (processSession_start env s0).
Proof.
  intros s Hs. unfold processSession_start, consistent, settled.
  destruct (has_key env); [destruct (existsSync env (audioPath s0))|];
    destruct s; cbn -[js] in *; subst;
    (split; [split; [intros [x [=]]|intros [=]]|intros w [=]; easy]).
Qed.

Lemma transcribed_keeps_consistent answer now :
  keeps_consistent (processSession_transcribed answer now).
Proof.
  intros s Hs. unfold processSession_transcribed, consistent, settled.
  destruct answer as [text|m]; [destruct (too_short (transcript_of text))|];
    destruct s; cbn -[js transcript_of fallback_insights] in *; subst;
    (split; [split; [intros [x [=]]|intros [=]]|intros w [=]; easy]); eauto.
Qed.

Lemma insights_keeps_consistent answer now :
  keeps_consistent (processSession_insights answer now).
Proof.
  intros s Hs. unfold processSession_insights, consistent, settled.
  destruct answer as [response|m];
    [destruct (insights_of_completion response) as [v|m]|];
    destruct s; cbn -[js] in *; subst;
    (split; [split; [intros [x [=]]|intros [=]]|intros w [=]; easy]); eauto.
Qed.

(** *** Assignments to the heap *)

Lemma assign_all_identity ws s : same_identity s (assign_all ws s).
Proof.
  revert s. induction ws as [|w ws IH]; intros s; [easy|].
  cbn [assign_all fold_left]. specialize (IH (assign w s)).
  unfold assign_all in IH.
  destruct IH as (? & ? & ? & ? & ? & ?).
  destruct s, w; cbn in *; easy.
Qed.

Lemma same_identity_trans s1 s2 s3 :
  same_identity s1 s2 -> same_identity s2 s3 -> same_identity s1 s3.
Proof. unfold same_identity. intuition congruence. Qed.

Lemma assign_all_app ws1 ws2 s :
  assign_all (ws1 ++ ws2) s = assign_all ws2 (assign_all ws1 s).
Proof. unfold assign_all. apply fold_left_app. Qed.

Lemma update_length a ws h : length (update a ws h) = length h.
Proof. unfold update. destruct (h !! a); [apply length_insert|easy]. Qed.

Lemma update_eq a ws h s :
  h !! a = Some s -> update a ws h = <[a := assign_all ws s]> h.
Proof. intros H. unfold update. now rewrite H. Qed.

Lemma update_ne a a' ws h : a <> a' -> update a ws h !! a' = h !! a'.
Proof.
  intros H. unfold update. destruct (h !! a); [|easy].
  now apply list_lookup_insert_ne.
Qed.

(** A block and its caller's handler on one and the same session. *)
Lemma apply_block_same a b h s :
  h !! a = Some s ->
  apply_block a a b h = <[a := assign_all (settled b) s]> h.
Proof.
  intros Hs. pose proof (lookup_lt_Some _ _ _ Hs) as Hlt.
  unfold apply_block, settled. rewrite (update_eq _ _ _ _ Hs).
  destruct (next b) as [w| |m]; rewrite ?app_nil_r; try easy.
  erewrite update_eq by now apply list_lookup_insert_eq.
  now rewrite list_insert_insert_eq, assign_all_app.
Qed.

Lemma update_identity a0 ws h a s :
  h !! a = Some s ->
  exists s', update a0 ws h !! a = Some s' /\ same_identity s s'.
Proof.
  intros H0. destruct (decide (a0 = a)) as [->|Hne].
  - rewrite (update_eq _ _ _ _ H0).
    rewrite list_lookup_insert_eq by now apply lookup_lt_Some in H0.
    eexists. split; [reflexivity|]. apply assign_all_identity.
  - rewrite update_ne by easy. exists s. now split.
Qed.

Lemma apply_block_identity target0 owner0 b h a s :
  h !! a = Some s ->
  exists s', apply_block target0 owner0 b h !! a = Some s'
             /\ same_identity s s'.
Proof.
  intros Hs. unfold apply_block.
  destruct (update_identity target0 (writes b) h a s Hs) as (s1 & H1 & I1).
  destruct (next b) as [w| |m]; try (exists s1; now split).
  destruct (update_identity owner0 (on_rejection m) _ a s1 H1)
    as (s2 & H2 & I2).
  exists s2. split; [easy|]. eapply same_identity_trans; eauto.
Qed.

Lemma tasks_split (l : list task) k t :
  l !! k = Some t ->
  exists l1 l2, l = l1 ++ t :: l2 /\ delete k l = l1 ++ l2
                /\ forall x, <[k := x]> l = l1 ++ x :: l2.
Proof.
  intros H. exists (take k l), (drop (S k) l). split; [|split].
  - symmetry. now apply take_drop_middle.
  - apply delete_take_drop.
  - intros x. apply insert_take_drop. now apply lookup_lt_Some in H.
Qed.

(** Writing to a session leaves the registry keyed by id. *)
Lemma keyed_by_id_insert srv a s s' tk lg :
  keyed_by_id srv -> heap srv !! a = Some s -> id s' = id s ->
  keyed_by_id {| heap := <[a := s']> (heap srv); DB := DB srv;
                 tasks := tk; log := lg |}.
Proof.
  intros K Hs Hid sid a0 Hdb. cbn [heap DB] in *.
  destruct (K sid a0 Hdb) as (s0 & H0 & I0).
  destruct (decide (a0 = a)) as [->|Hne].
  - rewrite list_lookup_insert_eq by now apply lookup_lt_Some in Hs.
    exists s'. split; [easy|]. rewrite Hs in H0. injection H0 as <-.
    congruence.
  - rewrite list_lookup_insert_ne by easy. now exists s0.
Qed.


(** *** What overlapping runs would break *)

(** A run in flight goes on. *)
Lemma continue_at_rest srv k t b :
  at_rest srv -> tasks srv !! k = Some t -> keeps_consistent b ->
  at_rest (continue k t b srv).
Proof.
  intros (I1 & I2 & I3 & I4 & I5) Hk Hb. unfold continue.
  destruct (tasks_split _ _ _ Hk) as (l1 & l2 & El & Ed & Ei).
  assert (Hin : t ∈ tasks srv).
  { rewrite El. apply elem_of_app. right. apply elem_of_cons. now left. }
  destruct (I3 t Hin) as [Hlt Hown]. rewrite Hown.
  destruct (lookup_lt_is_Some_2 _ _ Hlt) as [s Hs].
  rewrite (apply_block_same _ _ _ _ Hs).
  pose proof (I2 t s Hin Hs) as Hnone.
  destruct (Hb s Hnone) as [Hcons Hsusp].
  rewrite El, fmap_app, fmap_cons in I4.
  apply NoDup_app in I4 as (N1 & N12 & N2).
  apply NoDup_cons in N2 as (Nt & N2).
  assert (Hother : forall t', t' ∈ l1 ++ l2 -> target t' <> target t).
  { intros t' Ht' E. apply elem_of_app in Ht' as [Ht'|Ht'].
    - apply (N12 (target t')); [now apply list_elem_of_fmap_2|].
      rewrite E. apply elem_of_cons. now left.
    - apply Nt. rewrite <- E. now apply list_elem_of_fmap_2. }
  assert (Hsub : forall t', t' ∈ l1 ++ l2 -> t' ∈ tasks srv).
  { intros t' H. rewrite El. apply elem_of_app.
    apply elem_of_app in H as [H|H]; [now left|].
    right. apply elem_of_cons. now right. }
  assert (Hnd : NoDup (target <$> (l1 ++ l2))).
  { rewrite fmap_app. apply NoDup_app. split; [easy|]. split; [|easy].
    intros x Hx Hx'. apply (N12 x Hx). apply elem_of_cons. now right. }
  assert (Hnew : forall w t',
            t' ∈ l1 ++ {| target := target t; owner := target t; waits := w |}
                       :: l2 ->
            t' = {| target := target t; owner := target t; waits := w |}
            \/ t' ∈ l1 ++ l2).
  { intros w t' H. apply elem_of_app in H as [H|H].
    - right. apply elem_of_app. now left.
    - apply elem_of_cons in H as [H|H]; [now left|].
      right. apply elem_of_app. now right. }
  (split; [|split; [|split; [|split]]]); cbn [heap tasks DB].
  - (* every session is consistent *)
    intros a s' Ha. destruct (decide (a = target t)) as [->|Hne].
    + rewrite list_lookup_insert_eq in Ha by easy. now injection Ha as <-.
    + rewrite list_lookup_insert_ne in Ha by easy. now apply (I1 a).
  - (* a session with a run in flight has no insights *)
    intros t' s' Ht' Ha.
    destruct (next b) as [w| |] eqn:Hn.
    + rewrite Ei in Ht'. apply Hnew in Ht' as [->|Ht'].
      * cbn [target] in Ha. rewrite list_lookup_insert_eq in Ha by easy.
        injection Ha as <-. now apply (Hsusp w).
      * specialize (Hother _ Ht').
        rewrite list_lookup_insert_ne in Ha by easy.
        apply (I2 t'); [now apply Hsub|easy].
    + rewrite Ed in Ht'. specialize (Hother _ Ht').
      rewrite list_lookup_insert_ne in Ha by easy.
      apply (I2 t'); [now apply Hsub|easy].
    + rewrite Ed in Ht'. specialize (Hother _ Ht').
      rewrite list_lookup_insert_ne in Ha by easy.
      apply (I2 t'); [now apply Hsub|easy].
  - (* a run writes to a session of the heap, the one its caller holds *)
    intros t' Ht'. rewrite length_insert.
    destruct (next b) as [w| |].
    + rewrite Ei in Ht'. apply Hnew in Ht' as [->|Ht']; [easy|].
      now apply I3, Hsub.
    + rewrite Ed in Ht'. now apply I3, Hsub.
    + rewrite Ed in Ht'. now apply I3, Hsub.
  - (* no session has two runs *)
    destruct (next b) as [w| |].
    + rewrite Ei, fmap_app, fmap_cons. cbn [target].
      apply NoDup_app. split; [easy|]. split; [easy|].
      now apply NoDup_cons.
    + now rewrite Ed.
    + now rewrite Ed.
  - (* the registry is keyed by id *)
    eapply keyed_by_id_insert; eauto. apply assign_all_identity.
Qed.

(** A handler starts a run on the session it holds, which has none in
    flight and no insights. *)
Lemma launch_at_rest env a sid srv s :
  at_rest srv -> find srv sid = Some (a, s) -> insights s = None ->
  (forall t, t ∈ tasks srv -> target t <> a) ->
  at_rest (launch env a sid srv).
Proof.
  intros (I1 & I2 & I3 & I4 & I5) Hfind Hnone Hfree.
  unfold launch. rewrite Hfind. unfold find in Hfind.
  destruct (DB srv !! sid) as [a0|]; [|discriminate].
  destruct (heap srv !! a0) as [s0|] eqn:Hs; [|discriminate].
  injection Hfind as -> ->.
  rewrite (apply_block_same _ _ _ _ Hs).
  pose proof (lookup_lt_Some _ _ _ Hs) as Hlt.
  destruct (start_keeps_consistent env s _ Hnone) as [Hcons Hsusp].
  (split; [|split; [|split; [|split]]]); cbn [heap tasks DB].
  - intros a' s' Ha. destruct (decide (a' = a)) as [->|Hne].
    + rewrite list_lookup_insert_eq in Ha by easy. now injection Ha as <-.
    + rewrite list_lookup_insert_ne in Ha by easy. now apply (I1 a').
  - intros t' s' Ht' Ha. apply elem_of_app in Ht' as [Ht'|Ht'].
    + rewrite list_lookup_insert_ne in Ha by (symmetry; now apply Hfree).
      now apply (I2 t').
    + destruct (next _) as [w| |] eqn:Hn; try now apply elem_of_nil in Ht'.
      apply list_elem_of_singleton in Ht' as ->. cbn [target] in Ha.
      rewrite list_lookup_insert_eq in Ha by easy. injection Ha as <-.
      now apply (Hsusp w).
  - intros t' Ht'. rewrite length_insert.
    apply elem_of_app in Ht' as [Ht'|Ht']; [now apply I3|].
    destruct (next _) as [w| |]; try now apply elem_of_nil in Ht'.
    now apply list_elem_of_singleton in Ht' as ->.
  - rewrite fmap_app. apply NoDup_app. split; [easy|]. split.
    + intros x Hx Hx'. apply list_elem_of_fmap in Hx as (t' & -> & Ht').
      destruct (next _) as [w| |]; try now apply elem_of_nil in Hx'.
      apply list_elem_of_singleton in Hx'. cbn [target] in Hx'.
      now apply (Hfree t').
    + destruct (next _) as [w| |]; cbn; try apply NoDup_nil_2.
      apply NoDup_singleton.
  - eapply keyed_by_id_insert; eauto. apply assign_all_identity.
Qed.

Lemma busy_false srv a :
  busy srv a = false -> forall t, t ∈ tasks srv -> target t <> a.
Proof.
  unfold busy. intros H t Ht E.
  assert (existsb (fun t => target t =? a) (tasks srv) = true) as H'.
  { apply existsb_exists. exists t. split; [now apply list_elem_of_In|].
    now apply Nat.eqb_eq. }
  congruence.
Qed.

Lemma DB_below_heap srv sid a :
  at_rest srv -> DB srv !! sid = Some a -> a < length (heap srv).
Proof.
  intros (_ & _ & _ & _ & K) H. destruct (K sid a H) as (s & Hs & _).
  now apply lookup_lt_Some in Hs.
Qed.

(** The server once a new session is stored, before its run starts. *)
Lemma stored_at_rest srv s :
  at_rest srv ->
  insights s = None -> status s <> ready ->
  at_rest {| heap := heap srv ++ [s];
             DB := <[id s := length (heap srv)]> (DB srv);
             tasks := tasks srv; log := log srv |}.
Proof.
  intros I Hnone Hst. pose proof (DB_below_heap srv) as Hdb.
  destruct I as (I1 & I2 & I3 & I4 & I5).
  (split; [|split; [|split; [|split]]]); cbn [heap tasks DB].
  - intros a s' Hl. apply lookup_app_Some in Hl as [Hl|[_ Hl]].
    + now apply (I1 a).
    + destruct (a - length (heap srv)); [|destruct n; discriminate].
      injection Hl as <-. unfold consistent. rewrite Hnone.
      split; [intros [x [=]]|easy].
  - intros t s' Ht Hl. apply lookup_app_Some in Hl as [Hl|[Hge _]].
    + now apply (I2 t).
    + destruct (I3 t Ht). lia.
  - intros t Ht. rewrite length_app. destruct (I3 t Ht). split; [lia|easy].
  - easy.
  - intros sid a Hl. cbn [heap DB] in *.
    destruct (decide (id s = sid)) as [<-|Hne].
    + rewrite lookup_insert_eq in Hl. injection Hl as <-.
      exists s. split; [|easy].
      rewrite lookup_app_r by lia. now rewrite Nat.sub_diag.
    + rewrite lookup_insert_ne in Hl by easy.
      destruct (I5 sid a Hl) as (s0 & H0 & E0). exists s0. split; [|easy].
      rewrite lookup_app_l; [easy|]. now apply lookup_lt_Some in H0.
Qed.

(** A step keeps the server at rest, unless it starts a second run on a
    session that has one in flight. *)
Lemma step_at_rest srv ev srv' :
  at_rest srv -> allowed srv ev = true -> step srv ev = Some srv' ->
  at_rest srv'.
Proof.
  intros I Ha Hstep.
  destruct ev as [env req stamp iso|env sid|k answer now|k answer now];
    cbn [step allowed] in *.
  - (* a new session *)
    injection Hstep as <-. unfold post_session.
    destruct (file req) as [[path filename]|]; [|easy].
    set (s := new_session req path filename stamp iso).
    eapply (launch_at_rest _ _ _ _ s).
    + now apply stored_at_rest.
    + unfold find. cbn [DB heap]. rewrite lookup_insert_eq.
      rewrite lookup_app_r by lia. now rewrite Nat.sub_diag.
    + reflexivity.
    + cbn [tasks]. intros t Ht. destruct I as (_ & _ & I3 & _).
      destruct (I3 t Ht). lia.
  - (* reprocessing *)
    injection Hstep as <-. unfold post_reprocess.
    destruct (find srv sid) as [[a s]|] eqn:Hfind; [|easy].
    unfold find in Hfind.
    destruct (DB srv !! sid) as [a0|] eqn:Hdb; [|discriminate].
    destruct (heap srv !! a0) as [s0|] eqn:Hs; [|discriminate].
    injection Hfind as -> ->. apply negb_true_iff in Ha.
    pose proof I as (I1 & I2 & I3 & I4 & I5).
    destruct (I5 sid a Hdb) as (s1 & Hs1 & Hid).
    rewrite Hs in Hs1. injection Hs1 as <-.
    assert (Hreset : id (assign_all reset s) = id s) by now destruct s.
    apply (launch_at_rest _ _ _ _ (assign_all reset s)).
    + (* the cleared session *)
      pose proof (lookup_lt_Some _ _ _ Hs) as Hlt.
      rewrite (update_eq _ _ _ _ Hs).
      (split; [|split; [|split; [|split]]]); cbn [heap tasks DB].
      * intros a' s' Hl. destruct (decide (a' = a)) as [->|Hne].
        -- rewrite list_lookup_insert_eq in Hl by easy. injection Hl as <-.
           destruct s. split; [intros [x [=]]|intros [=]].
        -- rewrite list_lookup_insert_ne in Hl by easy. now apply (I1 a').
      * intros t s' Ht Hl.
        rewrite list_lookup_insert_ne in Hl
          by (symmetry; now apply (busy_false srv a)).
        now apply (I2 t).
      * intros t Ht. rewrite length_insert. now apply I3.
      * easy.
      * eapply keyed_by_id_insert; eauto.
    + unfold find. cbn [DB heap]. rewrite Hid, Hdb.
      rewrite (update_eq _ _ _ _ Hs).
      now rewrite list_lookup_insert_eq by now apply lookup_lt_Some in Hs.
    + now destruct s.
    + cbn [tasks]. now apply busy_false.
  - (* a transcript arrives *)
    destruct (tasks srv !! k) as [t|] eqn:Hk; [|discriminate].
    destruct (waits t); [|discriminate]. injection Hstep as <-.
    apply continue_at_rest; auto using transcribed_keeps_consistent.
  - (* insights arrive *)
    destruct (tasks srv !! k) as [t|] eqn:Hk; [|discriminate].
    destruct (waits t); [discriminate|]. injection Hstep as <-.
    apply continue_at_rest; auto using insights_keeps_consistent.
Qed.

Lemma initial_at_rest : at_rest initial.
Proof.
  (split; [|split; [|split; [|split]]]); cbn [heap tasks initial].
  - intros a s H. now rewrite lookup_nil in H.
  - intros t s H. now apply elem_of_nil in H.
  - intros t H. now apply elem_of_nil in H.
  - apply NoDup_nil_2.
  - intros sid a H. cbn [DB initial] in H. now rewrite lookup_empty in H.
Qed.

Lemma exec_without_overlap_at_rest evs srv srv' :
  at_rest srv -> exec_without_overlap evs srv = Some srv' -> at_rest srv'.
Proof.
  revert srv. induction evs as [|ev evs IH]; intros srv I H; cbn in H.
  - now injection H as <-.
  - destruct (allowed srv ev) eqn:Ha; [|discriminate].
    destruct (step srv ev) as [srv1|] eqn:Hs; [|discriminate].
    eapply IH; [|exact H]. eapply step_at_rest; eauto.
Qed.

(** C6, as amended. As long as no reprocessing is asked for while a run
    on the same session is in flight, whatever the server has done so
    far, a reader of a session finds insights on it exactly when its
    status is ready. *)
Theorem insights_iff_ready evs srv sid s :
  exec_without_overlap evs initial = Some srv ->
  get_session srv sid = Some s ->
  (is_Some (insights s) <-> status s = ready).
Proof.
  intros Hexec Hget. unfold get_session, find in Hget.
  destruct (DB srv !! sid) as [a|]; [|discriminate].
  destruct (heap srv !! a) as [s0|] eqn:Hs; [|discriminate].
  injection Hget as <-.
  pose proof (exec_without_overlap_at_rest _ _ _ initial_at_rest Hexec)
    as (I1 & _).
  now apply (I1 a).
Qed.

Lemma insights_iff_ready_witness :
  exists srv s,
    exec_without_overlap one_after_the_other initial = Some srv
    /\ get_session srv session_id = Some s
    /\ (is_Some (insights s) <-> status s = ready).
Proof.
  destruct (exec_without_overlap one_after_the_other initial) as [srv|] eqn:E;
    [|vm_compute in E; discriminate E].
  destruct (get_session srv session_id) as [s|] eqn:G.
  - exists srv, s. split; [reflexivity|]. split; [exact G|].
    exact (insights_iff_ready one_after_the_other srv session_id s E G).
  - exfalso. vm_compute in E. injection E as <-. vm_compute in G.
    discriminate G.
Defined.

(** C6, as stated, fails: reprocessing is asked for while the first run
    awaits its insights; the first run receives them, stores them and
    sets the status to ready; the second run then receives its transcript
    and sets the status to transcribed, on a session that has insights,
    and stays so while it awaits the completion provider. *)
Lemma overlapping_runs_break_invariant :
  exists srv s,
    exec overlapping initial = Some srv
    /\ get_session srv session_id = Some s
    /\ is_Some (insights s)
    /\ status s = transcribed
    /\ tasks srv = [{| target := 0; owner := 0; waits := AwaitInsights |}]
    /\ ~ (is_Some (insights s) <-> status s = ready).
Proof.
  eexists _, _. split; [vm_compute; reflexivity|].
  split; [vm_compute; reflexivity|].
  split; [eexists; reflexivity|]. split; [reflexivity|].
  split; [reflexivity|].
  intros [H _]. assert (E : transcribed = ready) by (apply H; eexists; reflexivity).
  discriminate E.
Qed.


(** At rest, the lookup of lines 283-284 finds the session the handler
    holds: reprocessing never fails with a session not found. *)
Lemma reprocess_finds_session srv sid a s :
  keyed_by_id srv -> find srv sid = Some (a, s) ->
  find {| heap := update a reset (heap srv); DB := DB srv;
          tasks := tasks srv; log := log srv |} (id s)
  = Some (a, assign_all reset s).
Proof.
  intros K Hfind. unfold find in *. cbn [DB heap].
  destruct (DB srv !! sid) as [a0|] eqn:Hdb; [|discriminate].
  destruct (heap srv !! a0) as [s0|] eqn:Hs; [|discriminate].
  injection Hfind as -> ->.
  destruct (K sid a Hdb) as (s1 & Hs1 & Hid).
  rewrite Hs in Hs1. injection Hs1 as <-. rewrite Hid, Hdb.
  rewrite (update_eq _ _ _ _ Hs).
  now rewrite list_lookup_insert_eq by now apply lookup_lt_Some in Hs.
Qed.

(** *** Reprocessing *)

Lemma launch_identity env o sid srv a s :
  heap srv !! a = Some s ->
  exists s', heap (launch env o sid srv) !! a = Some s'
             /\ same_identity s s'.
Proof.
  intros Hs. unfold launch.
  destruct (find srv sid) as [[a0 s0]|]; cbn [heap].
  - now apply apply_block_identity.
  - now apply update_identity.
Qed.

(** No step changes which session an address holds. *)
Lemma step_identity srv ev srv' a s :
  step srv ev = Some srv' -> heap srv !! a = Some s ->
  exists s', heap srv' !! a = Some s' /\ same_identity s s'.
Proof.
  intros Hstep Hs.
  destruct ev as [env req stamp iso|env sid|k answer now|k answer now];
    cbn [step] in Hstep.
  - injection Hstep as <-. unfold post_session.
    destruct (file req) as [[path filename]|]; [|now exists s].
    apply launch_identity. cbn [heap]. rewrite lookup_app_l; [easy|].
    now apply lookup_lt_Some in Hs.
  - injection Hstep as <-. unfold post_reprocess.
    destruct (find srv sid) as [[a0 s0]|]; [|now exists s].
    destruct (update_identity a0 reset (heap srv) a s Hs) as (s1 & H1 & I1).
    destruct (launch_identity env a0 (id s0)
                {| heap := update a0 reset (heap srv); DB := DB srv;
                   tasks := tasks srv; log := log srv |} a s1 H1)
      as (s2 & H2 & I2).
    exists s2. split; [easy|]. eapply same_identity_trans; eauto.
  - destruct (tasks srv !! k) as [t|]; [|discriminate].
    destruct (waits t); [|discriminate]. injection Hstep as <-.
    now apply apply_block_identity.
  - destruct (tasks srv !! k) as [t|]; [|discriminate].
    destruct (waits t); [discriminate|]. injection Hstep as <-.
    now apply apply_block_identity.
Qed.

Lemma exec_identity evs srv srv' a s :
  exec evs srv = Some srv' -> heap srv !! a = Some s ->
  exists s', heap srv' !! a = Some s' /\ same_identity s s'.
Proof.
  revert srv s. induction evs as [|ev evs IH]; intros srv s H Hs; cbn in H.
  - injection H as <-. exists s. now split.
  - destruct (step srv ev) as [srv1|] eqn:E; [|discriminate].
    destruct (step_identity _ _ _ _ _ E Hs) as (s1 & H1 & I1).
    destruct (IH _ _ H H1) as (s' & H' & I').
    exists s'. split; [easy|]. eapply same_identity_trans; eauto.
Qed.

(** C8. Reprocessing works on the session the registry holds under that
    id: the registry is unchanged, no session is created and no other
    one is touched. The handler empties the transcript, sets insights,
    processedAt and error to null, progress to 0 and status to
    processing; the run then starts from that state, and the one request
    it may send is for the transcription of the audio file the session
    already had. Neither the handler nor anything that happens later
    changes the id, audio path, title, event id or creation time. *)
Theorem reprocess_in_place env srv sid a s :
  DB srv !! sid = Some a -> heap srv !! a = Some s -> id s = sid ->
  DB (post_reprocess env sid srv) = DB srv
  /\ length (heap (post_reprocess env sid srv)) = length (heap srv)
  /\ (forall a', a' <> a ->
        heap (post_reprocess env sid srv) !! a' = heap srv !! a')
  /\ transcript (assign_all reset s) = []
  /\ insights (assign_all reset s) = None
  /\ processedAt (assign_all reset s) = None
  /\ error (assign_all reset s) = None
  /\ progress (assign_all reset s) = 0%Z
  /\ status (assign_all reset s) = processing
  /\ heap (post_reprocess env sid srv) !! a
     = Some (assign_all
               (settled (processSession_start env (assign_all reset s)))
               (assign_all reset s))
  /\ log (post_reprocess env sid srv)
     = log srv ++ (if has_key env && existsSync env (audioPath s)
                   then [Transcription (audioPath s)] else [])
  /\ tasks (post_reprocess env sid srv)
     = tasks srv ++ (if has_key env && existsSync env (audioPath s)
                     then [{| target := a; owner := a;
                              waits := AwaitTranscription |}]
                     else [])
  /\ (forall evs srv', exec evs (post_reprocess env sid srv) = Some srv' ->
        exists s', heap srv' !! a = Some s' /\ same_identity s s').
Proof.
  intros Hdb Hs Hid.
  pose proof (lookup_lt_Some _ _ _ Hs) as Hlt.
  assert (Hpath : audioPath (assign_all reset s) = audioPath s)
    by now destruct s.
  assert (Hfind : find srv sid = Some (a, s))
    by (unfold find; now rewrite Hdb, Hs).
  assert (Hfind' : find {| heap := update a reset (heap srv); DB := DB srv;
                           tasks := tasks srv; log := log srv |} (id s)
                   = Some (a, assign_all reset s)).
  { unfold find. cbn [DB heap]. rewrite Hid, Hdb, (update_eq _ _ _ _ Hs).
    now rewrite list_lookup_insert_eq. }
  assert (Hheap : heap (post_reprocess env sid srv)
                  = <[a := assign_all
                             (settled (processSession_start env
                                         (assign_all reset s)))
                             (assign_all reset s)]> (heap srv)).
  { unfold post_reprocess, launch. rewrite Hfind, Hfind'. cbn [heap].
    erewrite apply_block_same
      by (rewrite (update_eq _ _ _ _ Hs); now apply list_lookup_insert_eq).
    now rewrite (update_eq _ _ _ _ Hs), list_insert_insert_eq. }
  split; [unfold post_reprocess, launch; now rewrite Hfind, Hfind'|].
  split; [rewrite Hheap; apply length_insert|].
  split; [intros a' Hne; rewrite Hheap; now rewrite list_lookup_insert_ne|].
  do 6 (split; [now destruct s|]).
  split; [rewrite Hheap; now rewrite list_lookup_insert_eq|].
  split; [|split].
  - unfold post_reprocess, launch. rewrite Hfind, Hfind'. cbn [log].
    unfold processSession_start. rewrite Hpath.
    destruct (has_key env); [destruct (existsSync env (audioPath s))|]; easy.
  - unfold post_reprocess, launch. rewrite Hfind, Hfind'. cbn [tasks].
    unfold processSession_start. rewrite Hpath.
    destruct (has_key env); [destruct (existsSync env (audioPath s))|]; easy.
  - intros evs srv' Hexec.
    assert (H1 : exists s1, heap (post_reprocess env sid srv) !! a = Some s1
                            /\ same_identity s s1).
    { rewrite Hheap, list_lookup_insert_eq by easy.
      eexists. split; [reflexivity|].
      eapply same_identity_trans; apply assign_all_identity. }
    destruct H1 as (s1 & H1 & I1).
    destruct (exec_identity _ _ _ a s1 Hexec H1) as (s' & H' & I').
    exists s'. split; [easy|]. eapply same_identity_trans; eauto.
Qed.

Lemma reprocess_in_place_witness :
  DB (post_reprocess env_ok session_id one_session) = DB one_session
  /\ length (heap (post_reprocess env_ok session_id one_session)) = 1
  /\ insights (assign_all reset first_session) = None
  /\ log (post_reprocess env_ok session_id one_session)
     = [Transcription (audioPath first_session);
        Transcription (audioPath first_session)].
Proof.
  assert (Hdb : DB one_session !! session_id = Some 0)
    by (vm_compute; reflexivity).
  assert (Hs : heap one_session !! 0 = Some first_session)
    by (vm_compute; reflexivity).
  pose proof (reprocess_in_place env_ok one_session session_id 0
                first_session Hdb Hs eq_refl)
    as (H1 & H2 & _ & _ & H5 & _ & _ & _ & _ & _ & H11 & _).
  split; [exact H1|]. split; [exact H2|]. split; [exact H5|]. exact H11.
Defined.

(** *** A failure ends the run *)

(** When the provider's answer makes the run fail, the run is no longer
    in flight, no request is sent, and the session is marked. *)
Lemma step_rejection srv k t b m s :
  heap srv !! target t = Some s -> owner t = target t ->
  next b = Rejected m -> calls b = [] ->
  tasks (continue k t b srv) = delete k (tasks srv)
  /\ log (continue k t b srv) = log srv
  /\ heap (continue k t b srv) !! target t
     = Some (assign_all (on_rejection m) (assign_all (writes b) s)).
Proof.
  intros Hs Ho Hn Hc. unfold continue. cbn [tasks log heap].
  rewrite Hn, Hc, app_nil_r, Ho, (apply_block_same _ _ _ _ Hs).
  repeat split.
  rewrite list_lookup_insert_eq by now apply lookup_lt_Some in Hs.
  unfold settled. rewrite Hn. now rewrite assign_all_app.
Qed.

End ServerFacts.

(** ** The sanitizer on strings *)

Section DirectFacts.
Import Regex Sanitizer Direct.

Lemma trimStart_split s :
  exists w, s = w ++ trimStart s /\ forallb is_ws w = true.
Proof.
  induction s as [|c s (w & E & Hw)]; [now exists []|]. simpl.
  destruct (is_ws c) eqn:Hc.
  - exists (c :: w). split; [simpl; congruence|]. simpl. now rewrite Hc.
  - now exists [].
Qed.

Lemma trimEnd_split s :
  exists w, s = trimEnd s ++ w /\ forallb is_ws w = true.
Proof.
  unfold trimEnd. destruct (trimStart_split (rev s)) as (w & E & Hw).
  exists (rev w). split.
  - apply (f_equal (@rev N)) in E.
    now rewrite rev_involutive, rev_app_distr in E.
  - rewrite forallb_forall in *. intros x Hx. apply Hw. now apply in_rev.
Qed.

Lemma trimStart_idempotent s : trimStart (trimStart s) = trimStart s.
Proof.
  induction s as [|c s IH]; [easy|]. simpl.
  destruct (is_ws c) eqn:Hc; [easy|]. simpl. now rewrite Hc.
Qed.

Lemma trimEnd_idempotent s : trimEnd (trimEnd s) = trimEnd s.
Proof.
  unfold trimEnd. now rewrite rev_involutive, trimStart_idempotent.
Qed.

(** [trimEnd] keeps the first character of a text that begins with one that
    is not white space. *)
Lemma trimEnd_head c s :
  is_ws c = false -> exists r, trimEnd (c :: s) = c :: r.
Proof.
  intros Hc. destruct (trimEnd_split (c :: s)) as (w & E & Hw).
  destruct (trimEnd (c :: s)) as [|d r] eqn:T.
  - simpl in E. subst w. simpl in Hw. now rewrite Hc in Hw.
  - injection E as -> _. now exists r.
Qed.

Lemma trimStart_trimEnd s :
  trimStart s = s -> trimStart (trimEnd s) = trimEnd s.
Proof.
  intros H. destruct (trimStart_fixed_head _ H) as [->|(c & r & -> & Hc)].
  - reflexivity.
  - destruct (trimEnd_head c r Hc) as (r' & ->). now apply trimStart_head.
Qed.

(** What [trim] returns, [trim] leaves alone. *)
Lemma trim_idempotent s : trim (trim s) = trim s.
Proof.
  unfold trim.
  rewrite (trimStart_trimEnd (trimStart s)) by apply trimStart_idempotent.
  apply trimEnd_idempotent.
Qed.

Lemma startsWith_split s p :
  startsWith s p = true -> s = p ++ drop (length p) s.
Proof.
  revert s. induction p as [|a p IH]; intros s H; [easy|].
  destruct s as [|b s]; [discriminate|]. simpl in H.
  apply andb_prop in H as [Hab H]. apply N.eqb_eq in Hab as ->.
  simpl. f_equal. now apply IH.
Qed.

Lemma endsWith_app a p : endsWith (a ++ p) p = true.
Proof. unfold endsWith. rewrite rev_app_distr. apply startsWith_app. Qed.

Lemma endsWith_split s p :
  endsWith s p = true -> s = take (length s - length p) s ++ p.
Proof.
  unfold endsWith. intros H. apply startsWith_split in H.
  apply (f_equal (@rev N)) in H.
  rewrite rev_involutive, rev_app_distr, rev_involutive in H.
  rewrite length_rev, skipn_rev, rev_involutive in H. exact H.
Qed.

Lemma begins_exact s p : begins false s p = startsWith s p.
Proof.
  revert s. induction p as [|a p IH]; intros [|b s]; simpl; try easy.
  now rewrite IH.
Qed.

(** Where a starred class can leave off. *)
Lemma star_some {A} p (k : pos -> option A) b s x :
  star p k b s = Some x ->
  exists w s' b', s = w ++ s' /\ k (b', s') = Some x.
Proof.
  revert b. induction s as [|c s IH]; intros b H; simpl in H.
  - now exists [], [], b.
  - destruct (p c).
    + destruct (star p k false s) as [y|] eqn:E.
      * injection H as ->. destruct (IH _ E) as (w & s' & b' & -> & K).
        now exists (c :: w), s', b'.
      * now exists [], (c :: s), b.
    + now exists [], (c :: s), b.
Qed.

(** The closing pattern matches nowhere in a text that does not end with
    the marker. *)
Lemma close_fence_needs_marker {A} b s (k : pos -> option A) x :
  m false close_fence (b, s) k = Some x -> endsWith s fence = true.
Proof.
  unfold close_fence. cbn [m fst snd]. intros H.
  apply star_some in H as (w & s' & b' & -> & H).
  change (m false (Seq (word fence) Eol) (b', s') k = Some x) in H.
  rewrite is_fence_only in H.
  destruct (begins false s' fence) eqn:B; [|discriminate].
  destruct (drop 3 s') eqn:D; [|discriminate].
  assert (s' = fence) as ->.
  { assert (S : startsWith s' fence = true)
      by now rewrite <- begins_exact.
    apply startsWith_split in S. change (length fence) with 3 in S.
    rewrite D, app_nil_r in S. exact S. }
  apply endsWith_app.
Qed.

Lemma endsWith_cons c s p :
  endsWith s p = true -> endsWith (c :: s) p = true.
Proof.
  intros H. apply endsWith_split in H. rewrite H.
  change (c :: take (length s - length p) s ++ p)
    with ((c :: take (length s - length p) s) ++ p).
  apply endsWith_app.
Qed.

Lemma search_close_fence_none b before s :
  endsWith s fence = false -> search false close_fence b before s = None.
Proof.
  revert b before. induction s as [|c s IH]; intros b before H.
  - reflexivity.
  - rewrite search_eq.
    match goal with
    | |- match ?t with _ => _ end = _ => destruct t as [x|] eqn:E
    end.
    + apply close_fence_needs_marker in E. congruence.
    + apply IH. destruct (endsWith s fence) eqn:E'; [|easy].
      apply (endsWith_cons c) in E'. congruence.
Qed.

Lemma sanitize_unfolded raw : sanitize raw = sanitize_direct raw.
Proof.
  unfold sanitize, sanitize_direct.
  destruct (startsWith (trim raw) fence) eqn:S; [|easy].
  apply startsWith_split in S. change (length fence) with 3 in S.
  rewrite S at 1. rewrite replace_open_fence.
  set (u := trimStart (strip_tag (drop 3 (trim raw)))).
  destruct (endsWith u fence) eqn:E.
  - apply endsWith_split in E. change (length fence) with 3 in E.
    set (u0 := take (length u - 3) u) in *.
    destruct (trimEnd_split u0) as (w & E0 & Hw).
    rewrite E, E0 at 1. rewrite <- app_assoc.
    apply replace_close_fence; [apply trimEnd_idempotent|easy].
  - unfold replace. now rewrite search_close_fence_none.
Qed.

(** X1. The two replacements of lines 510-511 do what the string
    function says, on every text. *)
Theorem sanitize_is_direct raw : sanitize raw = sanitize_direct raw.
Proof. exact (sanitize_unfolded raw). Qed.

Lemma trimEnd_suffix pre u : trimEnd (pre ++ u) = pre ++ u -> trimEnd u = u.
Proof.
  intros H. destruct (trimEnd_fixed_last _ H) as [E|(r & c & E & Hc)].
  - apply app_eq_nil in E as [_ ->]. reflexivity.
  - destruct (rev u) as [|d r'] eqn:R.
    + apply (f_equal (@rev N)) in R. rewrite rev_involutive in R.
      now subst u.
    + assert (Eu : u = rev r' ++ [d]).
      { apply (f_equal (@rev N)) in R. now rewrite rev_involutive in R. }
      rewrite Eu, app_assoc in E. apply app_inj_tail in E as [_ ->].
      rewrite Eu. now apply trimEnd_last.
Qed.

Lemma trimStart_prefix p q : trimStart (p ++ q) = p ++ q -> trimStart p = p.
Proof.
  intros H. destruct p as [|c p]; [easy|].
  destruct (trimStart_fixed_head _ H) as [E|(d & r & E & Hd)];
    [discriminate|].
  injection E as <- _. now apply trimStart_head.
Qed.

(** After the opening marker is gone, what is left is the end of the
    trimmed text. *)
Lemma opened_is_suffix t :
  exists pre, t = pre ++ trimStart (strip_tag (drop 3 t)).
Proof.
  destruct (trimStart_split (strip_tag (drop 3 t))) as (w & E & _).
  assert (S : exists k, strip_tag (drop 3 t) = drop k t).
  { unfold strip_tag. destruct (begins true (drop 3 t) (js "json")).
    - exists (3 + 4). now rewrite drop_drop.
    - now exists 3. }
  destruct S as (k & S). exists (take k t ++ w).
  rewrite <- app_assoc, <- E, S. symmetry. apply take_drop.
Qed.

Lemma sanitize_direct_trimmed raw :
  trim (sanitize_direct raw) = sanitize_direct raw.
Proof.
  unfold sanitize_direct.
  destruct (startsWith (trim raw) fence); [|apply trim_idempotent].
  destruct (opened_is_suffix (trim raw)) as (pre & E).
  set (u := trimStart (strip_tag (drop 3 (trim raw)))) in *.
  assert (Hs : trimStart u = u) by apply trimStart_idempotent.
  destruct (endsWith u fence).
  - set (n := length u - 3).
    assert (Hp : trimStart (take n u) = take n u).
    { apply (trimStart_prefix _ (drop n u)). now rewrite take_drop. }
    unfold trim. rewrite (trimStart_trimEnd _ Hp). apply trimEnd_idempotent.
  - unfold trim. rewrite Hs. apply (trimEnd_suffix pre).
    rewrite <- E. pose proof (trim_idempotent raw) as T.
    now apply trim_fixed in T.
Qed.

(** X2. Whatever the sanitizer returns has no white space at either end. *)
Theorem sanitize_trimmed raw : trim (sanitize raw) = sanitize raw.
Proof. rewrite sanitize_unfolded. apply sanitize_direct_trimmed. Qed.

(** X3. The sanitizer only removes text from the two ends: what it
    returns stands, in one piece, in what it was given. *)
Theorem sanitize_within raw :
  exists before after, raw = before ++ sanitize raw ++ after.
Proof.
  rewrite sanitize_unfolded. unfold sanitize_direct.
  destruct (trimStart_split raw) as (w1 & E1 & _).
  destruct (trimEnd_split (trimStart raw)) as (w2 & E2 & _).
  fold (trim raw) in E2.
  destruct (startsWith (trim raw) fence).
  - destruct (opened_is_suffix (trim raw)) as (pre & E).
    set (u := trimStart (strip_tag (drop 3 (trim raw)))) in *.
    destruct (endsWith u fence).
    + set (n := length u - 3).
      destruct (trimEnd_split (take n u)) as (w3 & E3 & _).
      exists (w1 ++ pre), (w3 ++ drop n u ++ w2).
      rewrite E1 at 1. rewrite E2 at 1. rewrite E at 1.
      rewrite <- (take_drop n u) at 1. rewrite E3 at 1.
      now rewrite <- !app_assoc.
    + exists (w1 ++ pre), w2.
      rewrite E1 at 1. rewrite E2 at 1. rewrite E at 1.
      now rewrite <- !app_assoc.
  - exists w1, w2. rewrite E1 at 1. now rewrite E2 at 1.
Qed.

(** *** A second pass *)

Lemma strip_tag_length s : length (strip_tag s) <= length s.
Proof.
  unfold strip_tag. destruct (begins true s (js "json")); [|lia].
  rewrite length_drop. lia.
Qed.

(** One pass removes the opening marker, so a text that begins with one
    comes out shorter. *)
Lemma sanitize_direct_shrinks t :
  trim t = t -> startsWith t fence = true ->
  length (sanitize_direct t) < length t.
Proof.
  intros T F. unfold sanitize_direct. rewrite T, F.
  apply startsWith_length in F. change (length fence) with 3 in F.
  set (u := trimStart (strip_tag (drop 3 t))).
  assert (U : length u <= length t - 3).
  { unfold u. pose proof (trimStart_length (strip_tag (drop 3 t))).
    pose proof (strip_tag_length (drop 3 t)). rewrite length_drop in *. lia. }
  destruct (endsWith u fence); [|lia].
  pose proof (trimEnd_length (take (length u - 3) u)) as E.
  rewrite length_take in E. lia.
Qed.

(** C5, as amended. A second pass of the sanitizer changes nothing
    exactly when the result of the first does not begin with the fence
    marker. This is so for clean text (trimmed, not beginning with the
    marker), which the sanitizer leaves unchanged, and for that text
    wrapped in one fenced block, from which it gives back the text, the
    same with a [json] tag and with none. In the block, white space may
    follow the opening marker and precede the closing one; when none
    follows an untagged opening marker, the text must not begin with
    the letter j, as no JSON text does. *)
Theorem sanitize_idempotent :
  (forall raw,
     sanitize (sanitize raw) = sanitize raw
     <-> startsWith (sanitize raw) fence = false)
  /\ (forall inner ws1 ws2 : jsstring,
        trim inner = inner ->
        startsWith inner fence = false ->
        forallb is_ws ws1 = true ->
        forallb is_ws ws2 = true ->
        (ws1 = [] -> begins true inner (js "j") = false) ->
        sanitize inner = inner
        /\ sanitize (fenced (js "json") ws1 inner ws2) = inner
        /\ sanitize (fenced [] ws1 inner ws2) = inner
        /\ sanitize (sanitize inner) = sanitize inner
        /\ sanitize (sanitize (fenced (js "json") ws1 inner ws2))
           = sanitize (fenced (js "json") ws1 inner ws2)
        /\ sanitize (sanitize (fenced [] ws1 inner ws2))
           = sanitize (fenced [] ws1 inner ws2)).
Proof.
  split; [|exact sanitize_named_cases].
  intros raw. set (t := sanitize raw).
  assert (T : trim t = t).
  { unfold t. rewrite sanitize_unfolded. apply sanitize_direct_trimmed. }
  split.
  - intros E. destruct (startsWith t fence) eqn:F; [|reflexivity].
    pose proof (sanitize_direct_shrinks t T F) as L.
    rewrite <- sanitize_unfolded, E in L. lia.
  - intros F. unfold sanitize. now rewrite T, F.
Qed.

Lemma sanitize_idempotent_witness :
  (sanitize (sanitize (js "{ }")) = sanitize (js "{ }"))
  /\ sanitize (js "{ }") = js "{ }"
  /\ sanitize (fenced (js "json") [10%N] (js "{ }") [10%N]) = js "{ }"
  /\ sanitize (fenced [] [10%N] (js "{ }") [10%N]) = js "{ }"
  /\ sanitize (sanitize (fenced (js "json") [10%N] (js "{ }") [10%N]))
     = sanitize (fenced (js "json") [10%N] (js "{ }") [10%N])
  /\ sanitize (sanitize (fenced [] [10%N] (js "{ }") [10%N]))
     = sanitize (fenced [] [10%N] (js "{ }") [10%N]).
Proof.
  destruct sanitize_idempotent as [H1 H2]. split.
  - apply H1. reflexivity.
  - destruct (H2 (js "{ }") [10%N] [10%N]) as (A & B & C & _ & D & E);
      first [reflexivity | discriminate | idtac].
    now repeat split.
Defined.

(** C5, as stated, fails: one pass removes one opening marker only. On
    a marker followed by a tagged marker, the first pass leaves a text
    that begins with a marker, and the second pass removes that one. *)
Lemma sanitize_nested_fences :
  sanitize (js "``` ```json {}") = js "```json {}"
  /\ sanitize (sanitize (js "``` ```json {}")) = js "{}"
  /\ sanitize (sanitize (js "``` ```json {}"))
     <> sanitize (js "``` ```json {}").
Proof. split; [reflexivity|]. split; [reflexivity|]. discriminate. Qed.

End DirectFacts.

(** ** What the Insights schema lets through *)

Section ShapeFacts.
Import Zod Schemas Sanitizer Shapes.

Lemma no_issue_app_true a b :
  no_issue (a ++ b) = true <-> no_issue a = true /\ no_issue b = true.
Proof. rewrite no_issue_app. apply andb_true_iff. Qed.

Lemma string_ok lo p input :
  no_issue (fst (parse (ZString lo) p input)) = true
  <-> exists t, input = Some (JStr t) /\ below (length t) lo = false.
Proof.
  destruct input as [[| | |t| |]|]; cbn [parse fst]; split;
    try discriminate; try (intros (t' & [=] & _); fail).
  - rewrite no_issue_when. intros H. exists t. split; [easy|].
    now apply negb_true_iff.
  - intros (t' & [= <-] & H). rewrite no_issue_when. now rewrite H.
Qed.

Lemma parse_items_ok (f : parser) (P : json -> Prop) :
  (forall p x, no_issue (fst (f p (Some x))) = true <-> P x) ->
  forall p i l, no_issue (fst (parse_items f p i l)) = true <-> Forall P l.
Proof.
  intros Hf p i l. revert i. induction l as [|x l IH]; intros i.
  - split; [constructor|reflexivity].
  - rewrite parse_items_cons. specialize (IH (S i)). specialize (Hf (p ++ [Index i]) x).
    destruct (f (p ++ [Index i]) (Some x)) as [ix ox].
    destruct (parse_items f p (S i) l) as [ir or]. cbn [fst] in *.
    rewrite no_issue_app_true, Hf, IH. split.
    + intros [? ?]. now constructor.
    + intros H. now inversion H.
Qed.

Lemma array_ok el lo hi p input :
  no_issue (fst (parse (ZArray el lo hi) p input)) = true
  <-> exists items,
        input = Some (JArr items)
        /\ below (length items) lo = false /\ above (length items) hi = false
        /\ no_issue (fst (parse_items (parse el) p 0 items)) = true.
Proof.
  destruct input as [[| | | |items|]|];
    try (cbn [parse fst]; split;
         [discriminate|intros (i' & [=] & _)]).
  rewrite parse_array_issues, !andb_true_iff, !negb_true_iff. split.
  - intros [[? ?] ?]. now exists items.
  - intros (i' & [= <-] & ? & ? & ?). easy.
Qed.

Lemma object_ok shape p input :
  no_issue (fst (parse (ZObject shape) p input)) = true
  <-> exists props,
        input = Some (JObj props)
        /\ forallb (fun ks => no_issue (fst (parse (snd ks) (p ++ [Key (fst ks)])
                                               (get_prop (fst ks) props))))
             shape = true.
Proof.
  destruct input as [[| | | | |props]|];
    try (cbn [parse fst]; split;
         [discriminate|intros (i' & [=] & _)]).
  cbn [parse].
  pose proof (parse_fields_issues (fun sk => parse sk) props p shape) as H.
  destruct (parse_fields _ props p shape) as [inner out]. cbn [fst] in *.
  rewrite H. split.
  - intros ?. now exists props.
  - now intros (i' & [= <-] & ?).
Qed.

Lemma flashcard_ok_shape p x :
  no_issue
    (fst (parse (z_object [ (js "question", min 5 z_string);
                            (js "answer", min 5 z_string) ]) p (Some x)))
  = true
  <-> flashcard x.
Proof.
  unfold z_object, z_string, flashcard. cbn [min].
  rewrite object_ok. cbn [forallb fst snd]. split.
  - intros (props & [= ->] & H).
    rewrite !andb_true_iff, !string_ok in H.
    destruct H as ((q & Hq & Bq) & (a & Ha & Ba) & _).
    exists props, q, a. cbn [below] in *.
    apply Nat.ltb_ge in Bq, Ba. easy.
  - intros (props & q & a & -> & Hq & Bq & Ha & Ba).
    exists props. split; [easy|].
    rewrite !andb_true_iff, !string_ok. cbn [below].
    repeat split; [exists q|exists a]; (split; [easy|now apply Nat.ltb_ge]).
Qed.

Lemma any_string_shape p x :
  no_issue (fst (parse (ZString None) p (Some x))) = true
  <-> string_of_length 0 x.
Proof.
  rewrite string_ok. unfold string_of_length. split.
  - intros (t & [= ->] & _). exists t. split; [easy|lia].
  - intros (t & -> & _). now exists t.
Qed.

Lemma accepted_insights v :
  accepts InsightsSchema v = true -> insights_shape v.
Proof.
  rewrite accepts_no_issue. unfold InsightsSchema, z_object, z_string.
  cbn [min max z_array]. rewrite object_ok. cbn [forallb fst snd app].
  unfold insights_shape. intros (props & [= ->] & H).
  rewrite !andb_true_iff, string_ok, !array_ok in H.
  destruct H as ((t & Ht & Bt) & (kc & Hkc & B1 & B2 & Ikc)
                 & (fc & Hfc & _ & B3 & Ifc) & (ai & Hai & B4 & B5 & Iai) & _).
  exists props, t, kc, fc, ai. cbn [below above] in *.
  apply Nat.ltb_ge in Bt, B1, B2, B3, B4, B5.
  apply (parse_items_ok _ _ any_string_shape) in Ikc, Iai.
  change (ZObject [(js "question", ZString (Some 5));
                   (js "answer", ZString (Some 5))])
    with (z_object [(js "question", min 5 z_string);
                    (js "answer", min 5 z_string)]) in Ifc.
  apply (parse_items_ok _ _ flashcard_ok_shape) in Ifc.
  repeat split; easy.
Qed.

(** X4. The Insights schema accepts exactly the objects that have a
    summary of 20 characters or more, 1 to 6 key concepts that are
    strings, at most 5 flashcards whose question and answer are strings of
    5 characters or more, and 1 to 5 action items that are strings;
    whatever other fields the object has. *)
Theorem InsightsSchema_shape v :
  accepts InsightsSchema v = true <-> insights_shape v.
Proof.
  split; [apply accepted_insights|].
  rewrite accepts_no_issue. unfold InsightsSchema, z_object, z_string.
  cbn [min max z_array]. rewrite object_ok. cbn [forallb fst snd app].
  unfold insights_shape.
  intros (props & t & kc & fc & ai & -> & Ht & Bt & Hkc & [B1 B2] & Ikc
          & Hfc & B3 & Ifc & Hai & [B4 B5] & Iai).
  exists props. split; [easy|].
  rewrite !andb_true_iff, string_ok, !array_ok. cbn [below above].
  repeat split.
  - exists t. split; [easy|now apply Nat.ltb_ge].
  - exists kc. repeat split; try easy; try now apply Nat.ltb_ge.
    now apply (parse_items_ok _ _ any_string_shape).
  - exists fc. repeat split; try easy; try now apply Nat.ltb_ge.
    change (ZObject [(js "question", ZString (Some 5));
                     (js "answer", ZString (Some 5))])
      with (z_object [(js "question", min 5 z_string);
                      (js "answer", min 5 z_string)]).
    now apply (parse_items_ok _ _ flashcard_ok_shape).
  - exists ai. repeat split; try easy; try now apply Nat.ltb_ge.
    now apply (parse_items_ok _ _ any_string_shape).
Qed.

End ShapeFacts.

(** ** More on the generators *)

Section GeneratorMore.
Import Zod Schemas Sanitizer Shapes Examples.

Lemma trim_blank s : forallb is_ws s = true -> trim s = [].
Proof.
  intros H. unfold trim.
  rewrite <- (app_nil_r s), trimStart_ws_app by easy. reflexivity.
Qed.

(** X5. Whatever the completion provider answers, the error a generator
    throws carries one of a few fixed messages: neither the text of the
    answer nor the list of schema violations is in it. *)
Theorem generator_failures_are_fixed response :
  (forall m, insights_of_completion response = Throw m ->
             In m insights_failures)
  /\ (forall m, outline_of_completion response = Throw m ->
                In m outline_failures).
Proof.
  split; intros m H.
  - unfold insights_of_completion in H.
    destruct response as [|[raw|] rest].
    + injection H as <-. now left.
    + destruct (JSON_parse (sanitize raw)) as [v| |].
      * destruct (safeParse InsightsSchema v); [discriminate|].
        injection H as <-. do 3 right. now left.
      * injection H as <-. do 2 right. now left.
      * injection H as <-. do 2 right. now left.
    + injection H as <-. right. now left.
  - unfold outline_of_completion in H.
    destruct (JSON_parse (trim (content_or_empty response))) as [v| |].
    + destruct (safeParse OutlineSchema v); [discriminate|].
      injection H as <-. right. now left.
    + injection H as <-. now left.
    + injection H as <-. now left.
Qed.

(** X6. An answer with no choice, with a null content, or with a content
    of white space only makes the OutlineExtractor fail with its parse
    error. *)
Theorem outline_blank_is_parse_error response :
  forallb is_ws (content_or_empty response) = true ->
  outline_of_completion response = Throw (js "Invalid outline JSON").
Proof.
  intros H. unfold outline_of_completion. now rewrite (trim_blank _ H).
Qed.

Lemma generator_failures_are_fixed_witness :
  In (js "Cannot read properties of undefined (reading 'message')")
     insights_failures
  /\ In (js "Invalid outline JSON") outline_failures.
Proof.
  destruct (generator_failures_are_fixed []) as [H1 H2].
  split; [apply H1|apply H2]; reflexivity.
Defined.

Lemma outline_blank_is_parse_error_witness :
  outline_of_completion [] = Throw (js "Invalid outline JSON")
  /\ outline_of_completion [None] = Throw (js "Invalid outline JSON")
  /\ outline_of_completion [Some (js "  ")] = Throw (js "Invalid outline JSON").
Proof.
  split; [|split]; apply outline_blank_is_parse_error; reflexivity.
Defined.

(** What the InsightsGenerator returns is of the shape the schema accepts. *)
Lemma insights_result_has_shape response v :
  insights_of_completion response = Ok v -> insights_shape v.
Proof.
  intros I. apply accepted_insights.
  unfold insights_of_completion in I.
  destruct response as [|[raw|] rest]; try discriminate I.
  destruct (JSON_parse (sanitize raw)) as [p| |]; try discriminate I.
  destruct (safeParse InsightsSchema p) eqn:V; [|discriminate I].
  injection I as <-. unfold accepts. now rewrite V.
Qed.

End GeneratorMore.

(** ** More on one run *)

Section RunMore.
Import Zod Schemas Shapes Examples.

Lemma too_short_stored text :
  too_short (transcript_of text) = (length (transcript_of text) <? 20).
Proof.
  rewrite too_short_length. unfold transcript_of. now rewrite trim_idempotent.
Qed.

(** X7. The transcript the pipeline stores has no white space at either
    end, so the trim of the guard changes nothing: the guard asks whether
    the stored transcript has fewer than 20 characters. *)
Theorem stored_transcript_trimmed text :
  trim (transcript_of text) = transcript_of text
  /\ too_short (transcript_of text) = (length (transcript_of text) <? 20).
Proof.
  split; [apply trim_idempotent|apply too_short_stored].
Qed.

(** How a run goes, with what decides it. *)
Lemma run_paths env ans s :
  (has_key env = false
   /\ run env ans s =
      {| writes := [set_progress 10; set_status processing]; calls := [];
         next := Rejected (js "Missing OPENAI_API_KEY in .env") |})
  \/ (has_key env = true /\ existsSync env (audioPath s) = false
      /\ run env ans s =
         {| writes := [set_progress 10; set_status processing]; calls := [];
            next := Rejected (js "Audio file not found: " ++ audioPath s) |})
  \/ (exists m,
        has_key env = true /\ existsSync env (audioPath s) = true
        /\ transcription ans = Throw m
        /\ run env ans s =
           {| writes := [set_progress 10; set_status processing];
              calls := [Transcription (audioPath s)]; next := Rejected m |})
  \/ (exists text,
        has_key env = true /\ existsSync env (audioPath s) = true
        /\ transcription ans = Ok text
        /\ too_short (transcript_of text) = true
        /\ run env ans s =
           {| writes := [set_progress 10; set_status processing;
                         set_transcript (transcript_of text); set_progress 60;
                         set_status transcribed;
                         set_insights (Some fallback_insights);
                         set_status ready; set_progress 100;
                         set_processedAt (Some (transcribed_at ans))];
              calls := [Transcription (audioPath s)]; next := Resolved |})
  \/ (exists text m,
        has_key env = true /\ existsSync env (audioPath s) = true
        /\ transcription ans = Ok text
        /\ too_short (transcript_of text) = false
        /\ (chat ans = Throw m
            \/ exists response, chat ans = Ok response
                                /\ insights_of_completion response = Throw m)
        /\ run env ans s =
           {| writes := [set_progress 10; set_status processing;
                         set_transcript (transcript_of text); set_progress 60;
                         set_status transcribed];
              calls := [Transcription (audioPath s);
                        InsightsCompletion (transcript_of text)];
              next := Rejected m |})
  \/ (exists text response v,
        has_key env = true /\ existsSync env (audioPath s) = true
        /\ transcription ans = Ok text
        /\ too_short (transcript_of text) = false
        /\ chat ans = Ok response
        /\ insights_of_completion response = Ok v
        /\ run env ans s =
           {| writes := [set_progress 10; set_status processing;
                         set_transcript (transcript_of text); set_progress 60;
                         set_status transcribed;
                         set_insights (Some v); set_progress 100;
                         set_status ready;
                         set_processedAt (Some (completed_at ans))];
              calls := [Transcription (audioPath s);
                        InsightsCompletion (transcript_of text)];
              next := Resolved |}).
Proof.
  unfold run, then_, processSession_start, resume,
    processSession_transcribed, processSession_insights.
  destruct (has_key env); cbn -[js]; [|now left].
  destruct (existsSync env (audioPath s)); cbn -[js]; [|right; now left].
  destruct (transcription ans) as [text|m]; cbn -[js too_short transcript_of];
    [|do 2 right; left; now exists m].
  destruct (too_short (transcript_of text)) eqn:Hs; cbn -[js transcript_of];
    [do 3 right; left; now exists text|].
  destruct (chat ans) as [response|m]; cbn -[js transcript_of];
    [|do 4 right; left; exists text, m; repeat split; eauto].
  destruct (insights_of_completion response) as [v|m] eqn:Hi;
    cbn -[js transcript_of].
  - do 5 right. exists text, response, v. repeat split; eauto.
  - do 4 right. left. exists text, m. repeat split; eauto.
Qed.






(** X10. Without a key, or when the audio file is not there, a run sends
    nothing to any provider, whatever the providers would answer; the
    session is failed at progress 0 and its error says which of the two
    it was, the second with the path of the file. *)
Theorem no_request_without_key_or_file env ans s :
  has_key env = false \/ existsSync env (audioPath s) = false ->
  calls (run env ans s) = []
  /\ status (assign_all (settled (run env ans s)) s) = failed
  /\ progress (assign_all (settled (run env ans s)) s) = 0%Z
  /\ error (assign_all (settled (run env ans s)) s)
     = Some (if has_key env
             then js "Audio file not found: " ++ audioPath s
             else js "Missing OPENAI_API_KEY in .env").
Proof.
  intros H.
  destruct (run_paths env ans s)
    as [(K & E)|[(K & F & E)|[(m' & K & F & _)
       |[(text' & K & F & _)|[(text' & m' & K & F & _)
       |(text' & response & v & K & F & _)]]]]];
    try (destruct H; congruence);
    rewrite E; unfold settled; cbn [calls next writes]; rewrite K;
    destruct s; cbn -[js]; repeat split.
Qed.

Lemma no_request_without_key_or_file_witness :
  calls (run {| OPENAI_API_KEY := None; existsSync := fun _ => true |}
           answers_long fresh) = []
  /\ status
       (assign_all
          (settled (run {| OPENAI_API_KEY := None; existsSync := fun _ => true |}
                      answers_long fresh)) fresh) = failed.
Proof.
  pose proof (no_request_without_key_or_file
                {| OPENAI_API_KEY := None; existsSync := fun _ => true |}
                answers_long fresh (or_introl eq_refl)) as (H1 & H2 & _).
  split; assumption.
Defined.

(** X11. What the completion provider is asked about is the transcript
    the session then holds, which has 20 characters or more; and it is
    asked only after the transcription provider. *)
Theorem completion_is_about_stored_transcript env ans s t :
  In (InsightsCompletion t) (calls (run env ans s)) ->
  transcript (assign_all (settled (run env ans s)) s) = t
  /\ 20 <= length t
  /\ calls (run env ans s) = [Transcription (audioPath s); InsightsCompletion t].
Proof.
  intros H.
  destruct (run_paths env ans s)
    as [(K & E)|[(K & F & E)|[(m' & K & F & _ & E)
       |[(text' & K & F & _ & _ & E)|[(text' & m' & K & F & _ & S & _ & E)
       |(text' & response & v & K & F & _ & S & _ & _ & E)]]]]];
    rewrite E in *; unfold settled; cbn [calls next writes] in *.
  - destruct H.
  - destruct H.
  - destruct H as [H|[]]. discriminate H.
  - destruct H as [H|[]]. discriminate H.
  - destruct H as [H|[H|[]]]; [discriminate H|]. injection H as <-.
    rewrite too_short_stored in S.
    apply Nat.ltb_ge in S. destruct s; cbn -[js transcript_of]. easy.
  - destruct H as [H|[H|[]]]; [discriminate H|]. injection H as <-.
    rewrite too_short_stored in S.
    apply Nat.ltb_ge in S. destruct s; cbn -[js transcript_of]. easy.
Qed.

Lemma completion_is_about_stored_transcript_witness :
  transcript (assign_all (settled (run env_ok answers_long fresh)) fresh)
  = transcript_of lecture
  /\ 20 <= length (transcript_of lecture).
Proof.
  pose proof (completion_is_about_stored_transcript env_ok answers_long fresh
                (transcript_of lecture)) as H.
  destruct H as (H1 & H2 & _); [right; left; reflexivity|].
  split; assumption.
Defined.

End RunMore.

(** ** The outline route *)

Section OutlineRouteFacts.
Import Zod Schemas OutlineRoute Examples.

Lemma extracted_text_conditions env rd path ext text :
  extractTextFromFile env rd path ext = Ok text ->
  existsSync env path = true /\ (ext = js ".pdf" \/ ext = js ".docx").
Proof.
  unfold extractTextFromFile. intros H.
  destruct (existsSync env path); [|discriminate H]. split; [easy|].
  cbn [negb] in H.
  destruct (jsstring_eqb ext (js ".pdf")) eqn:E1.
  - left. now apply jsstring_eqb_eq.
  - destruct (jsstring_eqb ext (js ".docx")) eqn:E2; [|discriminate H].
    right. now apply jsstring_eqb_eq.
Qed.

(** X12. The outline route asks the completion provider for something
    only when the key is set, a file came with the request, the file is
    there, its name ends in .pdf or .docx, and the text found in it has
    20 characters or more once trimmed; what it sends is then the first
    20000 characters of that text, and nothing else. *)
Theorem outline_extract_sends env rd file answer c :
  In c (fst (outline_extract env rd file answer)) ->
  has_key env = true
  /\ exists path name text,
       file = Some (path, name)
       /\ existsSync env path = true
       /\ (extname_lower rd name = js ".pdf"
           \/ extname_lower rd name = js ".docx")
       /\ extractTextFromFile env rd path (extname_lower rd name) = Ok text
       /\ 20 <= length (trim text)
       /\ fst (outline_extract env rd file answer)
          = [OutlineCompletion (take (N.to_nat 20000) text)]
       /\ length (take (N.to_nat 20000) text) <= N.to_nat 20000.
Proof.
  unfold outline_extract. intros H.
  destruct (has_key env); cbn [negb] in *; [|destruct H].
  split; [easy|].
  destruct file as [[path name]|]; [|destruct H].
  destruct (extractTextFromFile env rd path (extname_lower rd name))
    as [text|m] eqn:E; [|destruct H].
  destruct (too_short text) eqn:S; [destruct H|].
  destruct (extracted_text_conditions _ _ _ _ _ E) as [He Hx].
  exists path, name, text. repeat split; try easy.
  - rewrite too_short_length in S. now apply Nat.ltb_ge in S.
  - unfold extractOutlineFromText.
    destruct answer as [r|m]; [destruct (outline_of_completion r)|]; easy.
  - rewrite length_take. lia.
Qed.

Lemma outline_extract_sends_witness :
  has_key env_ok = true
  /\ fst (outline_extract env_ok MoreExamples.readers_pdf
            MoreExamples.outline_file (Ok [Some outline_text]))
     = [OutlineCompletion (take (N.to_nat 20000) MoreExamples.syllabus)].
Proof.
  destruct (outline_extract_sends env_ok MoreExamples.readers_pdf
              MoreExamples.outline_file (Ok [Some outline_text])
              (OutlineCompletion (take (N.to_nat 20000) MoreExamples.syllabus)))
    as (H1 & path & name & text & _ & _ & _ & E & _ & H2 & _).
  - vm_compute. left. reflexivity.
  - split; [exact H1|]. rewrite H2. vm_compute in E. injection E as <-.
    reflexivity.
Defined.

(** X13. A 200 response of the outline route carries the object that
    [JSON.parse] built from the trimmed content of the first choice of the
    provider's answer, and the Outline schema accepts that object. *)
Theorem outline_extract_ok env rd file answer :
  code (snd (outline_extract env rd file answer)) = 200%Z ->
  exists r,
    answer = Ok r
    /\ JSON_parse (trim (content_or_empty r))
       = POk (body (snd (outline_extract env rd file answer)))
    /\ accepts OutlineSchema (body (snd (outline_extract env rd file answer)))
       = true.
Proof.
  unfold outline_extract. intros H.
  destruct (has_key env); cbn [negb] in *; [|discriminate H].
  destruct file as [[path name]|]; [|discriminate H].
  destruct (extractTextFromFile env rd path (extname_lower rd name))
    as [text|m]; [|discriminate H].
  destruct (too_short text); [discriminate H|].
  unfold extractOutlineFromText in *.
  destruct answer as [r|m]; [|discriminate H]. exists r. split; [easy|].
  unfold outline_of_completion in *.
  destruct (JSON_parse (trim (content_or_empty r))) as [v| |];
    try discriminate H.
  unfold accepts.
  destruct (safeParse OutlineSchema v) eqn:V; [|discriminate H].
  cbn [snd body]. now rewrite V.
Qed.

Lemma outline_extract_ok_witness :
  exists r,
    Ok [Some outline_text] = Ok r
    /\ JSON_parse (trim (content_or_empty r))
       = POk (body (snd (outline_extract env_ok MoreExamples.readers_pdf
                           MoreExamples.outline_file
                           (Ok [Some outline_text]))))
    /\ accepts OutlineSchema
         (body (snd (outline_extract env_ok MoreExamples.readers_pdf
                       MoreExamples.outline_file (Ok [Some outline_text]))))
       = true.
Proof.
  apply (outline_extract_ok env_ok MoreExamples.readers_pdf
           MoreExamples.outline_file (Ok [Some outline_text])).
  vm_compute. reflexivity.
Defined.

(** X14. Every response of the outline route other than a 200 is one of
    four fixed error responses: whatever was thrown on the way (by a
    reader, the provider, the parse or the schema), its message is not in
    the response. *)
Theorem outline_extract_errors env rd file answer :
  code (snd (outline_extract env rd file answer)) = 200%Z
  \/ In (snd (outline_extract env rd file answer)) outline_errors.
Proof.
  unfold outline_extract, outline_errors.
  destruct (has_key env); cbn [negb]; [|right; now left].
  destruct file as [[path name]|]; [|right; right; now left].
  destruct (extractTextFromFile env rd path (extname_lower rd name))
    as [text|m]; [|right; do 3 right; now left].
  destruct (too_short text); [right; do 2 right; now left|].
  unfold extractOutlineFromText.
  destruct answer as [r|m]; [destruct (outline_of_completion r)|];
    cbn [snd code]; [now left|right; do 3 right; now left..].
Qed.

End OutlineRouteFacts.

(** ** The Outline schema *)

Section OutlineSchemaFacts.
Import Zod Schemas OutlineCandidate.

Lemma parse_items_map {A} (f : parser) (g : A -> json) (ok : A -> bool) :
  (forall p x, no_issue (fst (f p (Some (g x)))) = ok x) ->
  forall p i l,
    no_issue (fst (parse_items f p i (map g l))) = forallb ok l.
Proof.
  intros Hf p i l. revert i. induction l as [|x l IH]; intros i; [easy|].
  cbn [map forallb]. rewrite parse_items_cons.
  specialize (Hf (p ++ [Index i]) x). specialize (IH (S i)).
  destruct (f (p ++ [Index i]) (Some (g x))) as [ix ox].
  destruct (parse_items f p (S i) (map g l)) as [ir or].
  cbn [fst] in *. now rewrite no_issue_app, Hf, IH.
Qed.

Ltac code_units :=
  repeat match goal with
    | |- context [js ?s] =>
        let v := eval vm_compute in (js s) in change (js s) with v
    end.

Lemma parse_highlight p h :
  no_issue
    (fst (parse (z_object [ (js "text", z_string); (js "category", z_string);
                            (js "reason", z_string) ])
            p (Some (highlight_json h))))
  = true.
Proof. unfold highlight_json. code_units. reflexivity. Qed.

Lemma parse_object_issues shape p props :
  no_issue (fst (parse (ZObject shape) p (Some (JObj props))))
  = forallb (fun ks => no_issue (fst (parse (snd ks) (p ++ [Key (fst ks)])
                                        (get_prop (fst ks) props)))) shape.
Proof.
  cbn [parse].
  pose proof (parse_fields_issues (fun sk => parse sk) props p shape) as H.
  destruct (parse_fields _ props p shape) as [inner out]. exact H.
Qed.

Lemma parse_dated p d :
  no_issue (fst (parse dated_item p (Some (dated_json d)))) = priority_ok d.
Proof.
  unfold dated_json, priority_ok, dated_item, optional_field, z_object.
  rewrite parse_object_issues.
  destruct (d_date d) as [[t|]|], (d_priority d) as [[q|]|];
    code_units;
    cbn [forallb fst snd app get_prop jsstring_eqb N.eqb Pos.eqb andb
         parse optional nullable z_enum z_string];
    rewrite ?no_issue_when, ?negb_involutive, ?andb_true_r; reflexivity.
Qed.

(** X15. The Outline schema accepts an outline made of highlights with
    their three texts and of exams and assignments with a text, a date
    that is absent, null or a string, and a priority that is absent, null
    or a string, exactly when every priority that is a string is one of
    high, med and low. *)
Theorem OutlineSchema_accepts (c : OutlineResult) :
  accepts OutlineSchema (outline_json c)
  = forallb priority_ok (exams c) && forallb priority_ok (assignments c).
Proof.
  unfold outline_json, OutlineSchema. unfold z_object at 1.
  rewrite accepts_object. cbn [forallb fst snd].
  change (get_prop (js "highlights") _)
    with (Some (JArr (map highlight_json (highlights c)))).
  change (get_prop (js "exams") _)
    with (Some (JArr (map dated_json (exams c)))).
  change (get_prop (js "assignments") _)
    with (Some (JArr (map dated_json (assignments c)))).
  unfold z_array. rewrite !parse_array_issues.
  rewrite (parse_items_map _ _ _ parse_highlight).
  rewrite !(parse_items_map _ _ _ parse_dated).
  assert (T : forall l : list highlight, forallb (fun _ => true) l = true)
    by (induction l; simpl; auto).
  cbn [below above negb andb]. now rewrite T, andb_true_r.
Qed.

End OutlineSchemaFacts.

(** ** What a reader of the registry can find *)

Section EndpointFacts.
Import Shapes Endpoints OutlineRoute Examples MoreExamples.

Lemma or_else_filled m d : d <> [] -> or_else m d <> [].
Proof. now destruct m. Qed.

Lemma unknown_error_filled m : or_else m (js "Unknown error") <> [].
Proof. now apply or_else_filled. Qed.

Lemma rejection_observed m s :
  insights s = None -> processedAt s = None ->
  observed (assign_all (on_rejection m) s).
Proof.
  intros H1 H2. destruct s; cbn [insights processedAt] in *; subst.
  unfold observed; cbn -[js or_else]. repeat (split; [easy|]).
  eexists; (split; [reflexivity|apply unknown_error_filled]).
Qed.

Lemma rejection_status m s : status (assign_all (on_rejection m) s) = failed.
Proof. now destruct s. Qed.

Lemma start_observed env s0 s :
  blank s ->
  observed (assign_all (settled (processSession_start env s0)) s)
  /\ lands (processSession_start env s0)
       (assign_all (settled (processSession_start env s0)) s).
Proof.
  intros (B1 & B2 & B3 & B4). unfold processSession_start, lands.
  destruct s; cbn [transcript insights error processedAt] in *; subst.
  destruct (has_key env); cbn [negb];
    [destruct (existsSync env (audioPath s0)); cbn [negb]|];
    cbn -[js or_else]; (split; [|auto]);
    unfold observed; cbn -[js or_else]; repeat (split; [easy|]);
    try easy; eexists; (split; [reflexivity|apply unknown_error_filled]).
Qed.

Lemma transcribed_advances answer now :
  advances processing (processSession_transcribed answer now).
Proof.
  intros s O E. unfold observed in O. rewrite E in O.
  destruct O as (_ & O2 & O3 & O4 & O5).
  unfold processSession_transcribed, lands.
  destruct s; cbn [transcript insights error processedAt status] in *; subst.
  destruct answer as [text|m].
  - cbn zeta. destruct (too_short (transcript_of text)) eqn:S;
      cbn -[js or_else transcript_of fallback_insights]; (split; [|auto]);
      unfold observed; cbn -[js or_else transcript_of fallback_insights];
      repeat (split; [easy|]); auto.
  - cbn -[js or_else]. split; [|auto].
    unfold observed; cbn -[js or_else]. repeat (split; [easy|]).
    eexists; (split; [reflexivity|apply unknown_error_filled]).
Qed.

Lemma insights_advances answer now :
  advances transcribed (processSession_insights answer now).
Proof.
  intros s O E. unfold observed in O. rewrite E in O.
  destruct O as (_ & O2 & O3 & O4 & O5).
  unfold processSession_insights, lands.
  assert (F : forall m,
    observed (assign_all (settled {| writes := []; calls := [];
                                     next := Rejected m |}) s)).
  { intros m. apply rejection_observed; easy. }
  destruct answer as [response|m];
    [|split; [apply F|right; exact (rejection_status m s)]].
  destruct (insights_of_completion response) as [v|m] eqn:I;
    [|split; [apply F|right; exact (rejection_status m s)]].
  destruct s; cbn [transcript insights error processedAt status] in *; subst.
  apply insights_result_has_shape in I.
  cbn -[js]. split; [|auto].
  unfold observed; cbn -[js]. repeat (split; [easy|]).
  right. split; [easy|]. now exists v.
Qed.

(** One session is written and the runs in flight change: what is left
    to show of the session written and of the runs on it. *)
Lemma in_step_write h db a s' tk lg :
  a < length h ->
  (forall a' x, a' <> a -> h !! a' = Some x -> observed x) ->
  (forall t x, t ∈ tk -> target t <> a -> h !! target t = Some x ->
     status x = awaited (waits t)) ->
  (forall a' x, a' <> a -> h !! a' = Some x ->
     status x = processing \/ status x = transcribed ->
     exists t, t ∈ tk /\ target t = a') ->
  observed s' ->
  (forall t, t ∈ tk -> target t = a -> status s' = awaited (waits t)) ->
  (status s' = processing \/ status s' = transcribed ->
   exists t, t ∈ tk /\ target t = a) ->
  in_step {| heap := <[a := s']> h; DB := db; tasks := tk; log := lg |}.
Proof.
  intros Hlt H1 H2 H3 O L1 L2. (split; [|split]); cbn [heap tasks].
  - intros a' x Hx. destruct (decide (a' = a)) as [->|Hne].
    + rewrite list_lookup_insert_eq in Hx by easy. now injection Hx as <-.
    + rewrite list_lookup_insert_ne in Hx by easy. now apply (H1 a').
  - intros t x Ht Hx. destruct (decide (target t = a)) as [E|Hne].
    + rewrite E, list_lookup_insert_eq in Hx by easy. injection Hx as <-.
      now apply L1.
    + rewrite list_lookup_insert_ne in Hx by easy. now apply H2.
  - intros a' x Hx Hst. destruct (decide (a' = a)) as [->|Hne].
    + rewrite list_lookup_insert_eq in Hx by easy. injection Hx as <-.
      now apply L2.
    + rewrite list_lookup_insert_ne in Hx by easy. now apply (H3 a' x).
Qed.

Lemma awaited_not_final w :
  awaited w = processing \/ awaited w = transcribed.
Proof. destruct w; auto. Qed.

(** A run in flight goes on. *)
Lemma continue_in_step srv k t b :
  at_rest srv -> in_step srv -> tasks srv !! k = Some t ->
  advances (awaited (waits t)) b ->
  in_step (continue k t b srv).
Proof.
  intros (I1 & I2 & I3 & I4 & I5) (J1 & J2 & J3) Hk Hb. unfold continue.
  destruct (tasks_split _ _ _ Hk) as (l1 & l2 & El & Ed & Ei).
  assert (Hin : t ∈ tasks srv).
  { rewrite El. apply elem_of_app. right. apply elem_of_cons. now left. }
  destruct (I3 t Hin) as [Hlt Hown]. rewrite Hown.
  destruct (lookup_lt_is_Some_2 _ _ Hlt) as [s Hs].
  rewrite (apply_block_same _ _ _ _ Hs).
  destruct (Hb s (J1 _ _ Hs) (J2 t s Hin Hs)) as [O L].
  rewrite El, fmap_app, fmap_cons in I4.
  apply NoDup_app in I4 as (N1 & N12 & N2).
  apply NoDup_cons in N2 as (Nt & N2).
  assert (Hother : forall t', t' ∈ l1 ++ l2 -> target t' <> target t).
  { intros t' Ht' E. apply elem_of_app in Ht' as [Ht'|Ht'].
    - apply (N12 (target t')); [now apply list_elem_of_fmap_2|].
      rewrite E. apply elem_of_cons. now left.
    - apply Nt. rewrite <- E. now apply list_elem_of_fmap_2. }
  assert (Hsub : forall t', t' ∈ l1 ++ l2 -> t' ∈ tasks srv).
  { intros t' H. rewrite El. apply elem_of_app.
    apply elem_of_app in H as [H|H]; [now left|].
    right. apply elem_of_cons. now right. }
  assert (Hrest : forall t', t' ∈ tasks srv -> target t' <> target t ->
            t' ∈ l1 ++ l2).
  { intros t' H Hne. rewrite El in H. apply elem_of_app.
    apply elem_of_app in H as [H|H]; [now left|].
    apply elem_of_cons in H as [->|H]; [easy|now right]. }
  assert (Hnew : forall x t', t' ∈ l1 ++ x :: l2 -> t' = x \/ t' ∈ l1 ++ l2).
  { intros x t' H. apply elem_of_app in H as [H|H].
    - right. apply elem_of_app. now left.
    - apply elem_of_cons in H as [H|H]; [now left|].
      right. apply elem_of_app. now right. }
  assert (Hkeep : forall x t', t' ∈ l1 ++ l2 -> t' ∈ l1 ++ x :: l2).
  { intros x t' H. apply elem_of_app.
    apply elem_of_app in H as [H|H]; [now left|].
    right. apply elem_of_cons. now right. }
  unfold lands in L. apply in_step_write; try easy.
  - intros a' x Hne. apply J1.
  - intros t' x Ht' Hne Hx. apply (J2 t' x); [|easy].
    destruct (next b) as [w| |].
    + rewrite Ei in Ht'. apply Hnew in Ht' as [->|Ht']; [easy|].
      now apply Hsub.
    + rewrite Ed in Ht'. now apply Hsub.
    + rewrite Ed in Ht'. now apply Hsub.
  - intros a' x Hne Hx Hst. destruct (J3 a' x Hx Hst) as (t' & Ht' & E).
    exists t'. split; [|easy].
    assert (Hr : t' ∈ l1 ++ l2) by (apply Hrest; [easy|congruence]).
    destruct (next b) as [w| |].
    + rewrite Ei. now apply Hkeep.
    + now rewrite Ed.
    + now rewrite Ed.
  - intros t' Ht' E. destruct (next b) as [w| |].
    + rewrite Ei in Ht'. apply Hnew in Ht' as [->|Ht']; [easy|].
      now apply Hother in Ht'.
    + rewrite Ed in Ht'. now apply Hother in Ht'.
    + rewrite Ed in Ht'. now apply Hother in Ht'.
  - intros Hst. destruct (next b) as [w| |].
    + exists {| target := target t; owner := target t; waits := w |}.
      split; [|reflexivity]. rewrite Ei. apply elem_of_app. right.
      apply elem_of_cons. now left.
    + destruct L as [L|L], Hst as [H|H]; congruence.
    + destruct L as [L|L], Hst as [H|H]; congruence.
Qed.

(** A handler starts a run on the session it holds, which it has just
    created or cleared and which has no run in flight. *)
Lemma launch_in_step env a sid srv s :
  find srv sid = Some (a, s) -> blank s ->
  (forall t, t ∈ tasks srv -> target t <> a) ->
  (forall a' x, a' <> a -> heap srv !! a' = Some x -> observed x) ->
  (forall t x, t ∈ tasks srv -> heap srv !! target t = Some x ->
     status x = awaited (waits t)) ->
  (forall a' x, a' <> a -> heap srv !! a' = Some x ->
     status x = processing \/ status x = transcribed ->
     exists t, t ∈ tasks srv /\ target t = a') ->
  in_step (launch env a sid srv).
Proof.
  intros Hfind B Hfree H1 H2 H3. unfold launch. rewrite Hfind.
  unfold find in Hfind.
  destruct (DB srv !! sid) as [a0|]; [|discriminate].
  destruct (heap srv !! a0) as [s0|] eqn:Hs; [|discriminate].
  injection Hfind as -> ->.
  rewrite (apply_block_same _ _ _ _ Hs).
  pose proof (lookup_lt_Some _ _ _ Hs) as Hlt.
  destruct (start_observed env s s B) as [O L]. unfold lands in L.
  apply in_step_write; try easy.
  - intros t x Ht Hne Hx. apply (H2 t x); [|easy].
    apply elem_of_app in Ht as [Ht|Ht]; [easy|].
    destruct (next _) as [w| |]; try now apply elem_of_nil in Ht.
    now apply list_elem_of_singleton in Ht as ->.
  - intros a' x Hne Hx Hst. destruct (H3 a' x Hne Hx Hst) as (t & Ht & E).
    exists t. split; [|easy]. apply elem_of_app. now left.
  - intros t Ht E. apply elem_of_app in Ht as [Ht|Ht];
      [now apply Hfree in Ht|].
    destruct (next _) as [w| |]; try now apply elem_of_nil in Ht.
    now apply list_elem_of_singleton in Ht as ->.
  - intros Hst. destruct (next _) as [w| |].
    + exists {| target := a; owner := a; waits := w |}.
      split; [|reflexivity]. apply elem_of_app. right.
      now apply list_elem_of_singleton.
    + destruct L as [L|L], Hst as [H|H]; congruence.
    + destruct L as [L|L], Hst as [H|H]; congruence.
Qed.

Lemma new_session_blank req path filename stamp iso :
  blank (new_session req path filename stamp iso).
Proof. now repeat split. Qed.

Lemma reset_blank s : blank (assign_all reset s).
Proof. destruct s. now repeat split. Qed.

(** A step keeps the sessions as a reader may find them, unless it starts
    a second run on a session that has one in flight. *)
Lemma step_in_step srv ev srv' :
  at_rest srv -> in_step srv -> allowed srv ev = true ->
  step srv ev = Some srv' -> in_step srv'.
Proof.
  intros I J Ha Hstep.
  destruct ev as [env req stamp iso|env sid|k answer now|k answer now];
    cbn [step allowed] in *.
  - (* a new session *)
    injection Hstep as <-. unfold post_session.
    destruct (file req) as [[path filename]|]; [|easy].
    set (s := new_session req path filename stamp iso).
    destruct I as (_ & _ & I3 & _). destruct J as (J1 & J2 & J3).
    apply (launch_in_step _ _ _ _ s); cbn [heap tasks DB].
    + unfold find. cbn [DB heap]. rewrite lookup_insert_eq.
      rewrite lookup_app_r by lia. now rewrite Nat.sub_diag.
    + apply new_session_blank.
    + intros t Ht. destruct (I3 t Ht). lia.
    + intros a' x Hne Hx. apply lookup_app_Some in Hx as [Hx|[Hge Hx]].
      * now apply (J1 a').
      * apply lookup_lt_Some in Hx. cbn in Hx. lia.
    + intros t x Ht Hx. destruct (I3 t Ht) as [Hlt _].
      rewrite lookup_app_l in Hx by easy. now apply J2.
    + intros a' x Hne Hx. apply lookup_app_Some in Hx as [Hx|[Hge Hx]].
      * now apply (J3 a').
      * apply lookup_lt_Some in Hx. cbn in Hx. lia.
  - (* reprocessing *)
    injection Hstep as <-. unfold post_reprocess.
    destruct (find srv sid) as [[a s]|] eqn:Hfind; [|easy].
    pose proof I as (_ & _ & _ & _ & I5).
    pose proof (reprocess_finds_session _ _ _ _ I5 Hfind) as Hfound.
    unfold find in Hfind.
    destruct (DB srv !! sid) as [a0|] eqn:Hdb; [|discriminate].
    destruct (heap srv !! a0) as [s0|] eqn:Hs; [|discriminate].
    injection Hfind as -> ->. apply negb_true_iff in Ha.
    destruct J as (J1 & J2 & J3).
    pose proof (busy_false _ _ Ha) as Hfree.
    apply (launch_in_step _ _ _ _ (assign_all reset s));
      cbn [heap tasks DB]; try easy.
    + apply reset_blank.
    + intros a' x Hne Hx. rewrite update_ne in Hx by easy. now apply (J1 a').
    + intros t x Ht Hx.
      rewrite update_ne in Hx by (symmetry; now apply Hfree).
      now apply J2.
    + intros a' x Hne Hx. rewrite update_ne in Hx by easy. now apply (J3 a').
  - (* a transcript arrives *)
    destruct (tasks srv !! k) as [t|] eqn:Hk; [|discriminate].
    destruct (waits t) eqn:W; [|discriminate]. injection Hstep as <-.
    apply continue_in_step; try easy. rewrite W.
    apply transcribed_advances.
  - (* insights arrive *)
    destruct (tasks srv !! k) as [t|] eqn:Hk; [|discriminate].
    destruct (waits t) eqn:W; [discriminate|]. injection Hstep as <-.
    apply continue_in_step; try easy. rewrite W.
    apply insights_advances.
Qed.

Lemma initial_in_step : in_step initial.
Proof.
  (split; [|split]); cbn [heap tasks initial].
  - intros a s H. now rewrite lookup_nil in H.
  - intros t s H. now apply elem_of_nil in H.
  - intros a s H. now rewrite lookup_nil in H.
Qed.

Lemma exec_without_overlap_in_step evs srv srv' :
  at_rest srv -> in_step srv -> exec_without_overlap evs srv = Some srv' ->
  at_rest srv' /\ in_step srv'.
Proof.
  revert srv. induction evs as [|ev evs IH]; intros srv I J H; cbn in H.
  - now injection H as <-.
  - destruct (allowed srv ev) eqn:Ha; [|discriminate].
    destruct (step srv ev) as [srv1|] eqn:Hs; [|discriminate].
    apply (IH srv1); [|  |exact H].
    + eapply step_at_rest; eauto.
    + eapply step_in_step; eauto.
Qed.

(** What a reader of a session finds, and the run in flight on it. *)
Lemma found_in_step evs srv sid a s :
  exec_without_overlap evs initial = Some srv ->
  find srv sid = Some (a, s) ->
  observed s
  /\ (busy srv a = true <-> status s = processing \/ status s = transcribed).
Proof.
  intros Hexec Hfind.
  destruct (exec_without_overlap_in_step _ _ _ initial_at_rest
              initial_in_step Hexec) as [I (J1 & J2 & J3)].
  unfold find in Hfind.
  destruct (DB srv !! sid) as [a0|]; [|discriminate].
  destruct (heap srv !! a0) as [s0|] eqn:Hs; [|discriminate].
  injection Hfind as -> ->. split; [now apply (J1 a)|].
  unfold busy. rewrite existsb_exists. split.
  - intros (t & Ht & E). apply Nat.eqb_eq in E. subst a.
    apply list_elem_of_In in Ht. rewrite (J2 t s Ht Hs).
    apply awaited_not_final.
  - intros Hst. destruct (J3 a s Hs Hst) as (t & Ht & E).
    exists t. split; [now apply list_elem_of_In|now apply Nat.eqb_eq].
Qed.

Lemma find_none srv (sid : jsstring) :
  keyed_by_id srv -> find srv sid = None -> DB srv !! sid = None.
Proof.
  intros K. unfold find.
  destruct (DB srv !! sid) as [a|] eqn:Hdb; [|reflexivity].
  destruct (K sid a Hdb) as (s & -> & _). discriminate.
Qed.

Lemma find_some srv (sid : jsstring) a s :
  find srv sid = Some (a, s) -> is_Some (DB srv !! sid).
Proof.
  unfold find. destruct (DB srv !! sid) as [a0|]; [now eexists|discriminate].
Qed.

(** X16. As long as no reprocessing is asked for while a run on the same
    session is in flight, the status route answers, for an id of the
    registry, with one of four pairs of status and progress, processing
    at 10, transcribed at 60, ready at 100 or failed at 0, and with an
    error text exactly when the status is failed. Every other id gets
    the 404, unless it is one of the names that the prototype of the
    registry object has or can come to have, which are not modelled. *)
Theorem status_reply_values evs srv sid :
  exec_without_overlap evs initial = Some srv ->
  match status_route srv sid with
  | Answer r =>
      is_Some (DB srv !! sid)
      /\ ((r_status r = processing /\ r_progress r = 10%Z)
          \/ (r_status r = transcribed /\ r_progress r = 60%Z)
          \/ (r_status r = ready /\ r_progress r = 100%Z)
          \/ (r_status r = failed /\ r_progress r = 0%Z))
      /\ (is_Some (r_error r) <-> r_status r = failed)
  | NotFound => DB srv !! sid = None /\ inherited sid = false
  | Inherited => DB srv !! sid = None /\ inherited sid = true
  end.
Proof.
  intros Hexec.
  pose proof (exec_without_overlap_in_step _ _ _ initial_at_rest
                initial_in_step Hexec) as [(_ & _ & _ & _ & K) _].
  unfold status_route, DB_sessions_at.
  destruct (find srv sid) as [[a s]|] eqn:Hfind.
  2:{ pose proof (find_none _ _ K Hfind). now destruct (inherited sid). }
  split; [exact (find_some _ _ _ _ Hfind)|].
  assert (Goal0 :
    ((status s = processing /\ progress s = 10%Z)
     \/ (status s = transcribed /\ progress s = 60%Z)
     \/ (status s = ready /\ progress s = 100%Z)
     \/ (status s = failed /\ progress s = 0%Z))
    /\ (is_Some (error s) <-> status s = failed)); [|exact Goal0].
  destruct (found_in_step _ _ _ _ _ Hexec Hfind) as [O _].
  unfold observed in O. destruct (status s).
  - destruct O as (O1 & _ & _ & O4 & _). rewrite O4.
    split; [auto|]. split; [intros [x [=]]|discriminate].
  - destruct O as (O1 & _ & _ & O4 & _). rewrite O4.
    split; [auto|]. split; [intros [x [=]]|discriminate].
  - destruct O as (O1 & O2 & _). rewrite O2.
    split; [auto 6|]. split; [intros [x [=]]|discriminate].
  - destruct O as (O1 & _ & _ & m & O4 & _). rewrite O4.
    split; [auto 6|]. split; [easy|now exists m].
Qed.

Lemma status_reply_values_witness :
  exists srv r,
    exec_without_overlap one_after_the_other initial = Some srv
    /\ status_route srv session_id = Answer r
    /\ (is_Some (r_error r) <-> r_status r = failed)
    /\ status_route srv (js "sess-0") = NotFound.
Proof.
  destruct (exec_without_overlap one_after_the_other initial) as [srv|] eqn:E;
    [|vm_compute in E; discriminate E].
  pose proof (status_reply_values one_after_the_other srv session_id E) as H.
  destruct (status_route srv session_id) as [r| |] eqn:G.
  - exists srv, r. split; [reflexivity|]. split; [exact G|].
    split; [apply H|].
    vm_compute in E. injection E as <-. reflexivity.
  - exfalso. vm_compute in E. injection E as <-. vm_compute in G.
    discriminate G.
  - exfalso. vm_compute in E. injection E as <-. vm_compute in G.
    discriminate G.
Defined.

(** X17. Without overlapping runs, a session has a time of processing
    exactly when it is ready, and a ready session holds the fixed
    fallback insights if its transcript is shorter than 20 characters,
    and insights of the shape the schema accepts otherwise. *)
Theorem ready_session_contents evs srv sid s :
  exec_without_overlap evs initial = Some srv ->
  get_session srv sid = Some s ->
  (is_Some (processedAt s) <-> status s = ready)
  /\ (status s = ready ->
      if too_short (transcript s)
      then insights s = Some fallback_insights
      else exists v, insights s = Some v /\ insights_shape v).
Proof.
  intros Hexec Hget. unfold get_session in Hget.
  destruct (find srv sid) as [[a s0]|] eqn:Hfind; [|discriminate Hget].
  cbn in Hget. injection Hget as ->.
  destruct (found_in_step _ _ _ _ _ Hexec Hfind) as [O _].
  unfold observed in O. destruct (status s).
  - destruct O as (_ & _ & _ & _ & O5). rewrite O5.
    split; [|discriminate]. split; [intros [x [=]]|discriminate].
  - destruct O as (_ & _ & _ & _ & O5). rewrite O5.
    split; [|discriminate]. split; [intros [x [=]]|discriminate].
  - destruct O as (_ & _ & O3 & [[S O4]|[S O4]]); rewrite S; easy.
  - destruct O as (_ & _ & O3 & _). rewrite O3.
    split; [|discriminate]. split; [intros [x [=]]|discriminate].
Qed.

Lemma ready_session_contents_witness :
  exists srv s,
    exec_without_overlap one_after_the_other initial = Some srv
    /\ get_session srv session_id = Some s
    /\ status s = ready
    /\ exists v, insights s = Some v /\ insights_shape v.
Proof.
  destruct (exec_without_overlap one_after_the_other initial) as [srv|] eqn:E;
    [|vm_compute in E; discriminate E].
  destruct (get_session srv session_id) as [s|] eqn:G.
  - exists srv, s. split; [reflexivity|]. split; [exact G|].
    pose proof (ready_session_contents one_after_the_other srv session_id s
                  E G) as [_ H].
    assert (R : status s = ready).
    { vm_compute in E. injection E as <-. vm_compute in G.
      now injection G as <-. }
    assert (S : too_short (transcript s) = false).
    { vm_compute in E. injection E as <-. vm_compute in G.
      now injection G as <-. }
    specialize (H R). rewrite S in H. easy.
  - exfalso. vm_compute in E. injection E as <-. vm_compute in G.
    discriminate G.
Defined.

(** X18. Without overlapping runs, a session is processing or transcribed
    exactly while a run on it is in flight: once it is ready or failed,
    nothing is left that will write to it. *)
Theorem unfinished_iff_in_flight evs srv sid a s :
  exec_without_overlap evs initial = Some srv ->
  find srv sid = Some (a, s) ->
  (busy srv a = true <-> status s = processing \/ status s = transcribed).
Proof.
  intros Hexec Hfind. now destruct (found_in_step _ _ _ _ _ Hexec Hfind).
Qed.

Lemma unfinished_iff_in_flight_witness :
  exists srv s,
    exec_without_overlap awaiting_insights initial = Some srv
    /\ find srv session_id = Some (0, s)
    /\ busy srv 0 = true
    /\ (status s = processing \/ status s = transcribed).
Proof.
  destruct (exec_without_overlap awaiting_insights initial) as [srv|] eqn:E;
    [|vm_compute in E; discriminate E].
  destruct (find srv session_id) as [[a s]|] eqn:G.
  - assert (A : a = 0).
    { vm_compute in E. injection E as <-. vm_compute in G.
      now injection G as <- _. }
    subst a. exists srv, s. split; [reflexivity|]. split; [exact G|].
    assert (B : busy srv 0 = true).
    { vm_compute in E. now injection E as <-. }
    split; [exact B|].
    exact (proj1 (unfinished_iff_in_flight awaiting_insights srv session_id
                    0 s E G) B).
  - exfalso. vm_compute in E. injection E as <-. vm_compute in G.
    discriminate G.
Defined.

(** X19. Without overlapping runs, a session that is processing has an
    empty transcript, and one that is transcribed has a transcript of 20
    characters or more once trimmed; neither has an error, and a failed
    session has neither insights nor a time of processing. *)
Theorem unfinished_session_contents evs srv sid s :
  exec_without_overlap evs initial = Some srv ->
  get_session srv sid = Some s ->
  (status s = processing -> transcript s = [] /\ error s = None)
  /\ (status s = transcribed ->
      too_short (transcript s) = false /\ error s = None)
  /\ (status s = failed -> insights s = None /\ processedAt s = None).
Proof.
  intros Hexec Hget. unfold get_session in Hget.
  destruct (find srv sid) as [[a s0]|] eqn:Hfind; [|discriminate Hget].
  cbn in Hget. injection Hget as ->.
  destruct (found_in_step _ _ _ _ _ Hexec Hfind) as [O _].
  unfold observed in O. destruct (status s);
    (split; [|split]); intros E; try discriminate E; easy.
Qed.

Lemma unfinished_session_contents_witness :
  exists srv s,
    exec_without_overlap awaiting_insights initial = Some srv
    /\ get_session srv session_id = Some s
    /\ status s = transcribed
    /\ too_short (transcript s) = false /\ error s = None.
Proof.
  destruct (exec_without_overlap awaiting_insights initial) as [srv|] eqn:E;
    [|vm_compute in E; discriminate E].
  destruct (get_session srv session_id) as [s|] eqn:G.
  - exists srv, s. split; [reflexivity|]. split; [exact G|].
    assert (R : status s = transcribed).
    { vm_compute in E. injection E as <-. vm_compute in G.
      now injection G as <-. }
    split; [exact R|].
    exact (proj1 (proj2 (unfinished_session_contents awaiting_insights srv
                           session_id s E G)) R).
  - exfalso. vm_compute in E. injection E as <-. vm_compute in G.
    discriminate G.
Defined.

End EndpointFacts.

(** ** The state machine of a session *)

Section SessionStateMachine.
Import Shapes Endpoints OutlineRoute Examples MoreExamples.

Ltac machine :=
  unfold settled; cbn -[js or_else transcript_of fallback_insights];
  (split; [|split; [|split]]);
  [ repeat split; unfold status_step; solve
      [ left; reflexivity
      | right; left; split; reflexivity
      | right; right; left; split; reflexivity
      | right; right; right; reflexivity ]
  | repeat (apply Stdlib.Lists.List.Forall_cons;
            [unfold progress_value; cbn; lia|]);
    apply Stdlib.Lists.List.Forall_nil
  | intros H;
    first [ exfalso; eapply H; reflexivity
          | repeat split; cbn; lia ]
  | intros m' H; first [discriminate H | split; reflexivity] ].

(** The start of a run, on a session at processing and 0. *)
Lemma start_machine env s0 s :
  status s = processing -> progress s = 0%Z ->
  let b := processSession_start env s0 in
  chain (fun x y => status_step (status x) (status y)) s (trace (settled b) s)
  /\ Forall (fun x => progress_value (progress x)) (trace (settled b) s)
  /\ ((forall m, next b <> Rejected m) ->
      chain (fun x y => (progress x <= progress y)%Z) s (trace (settled b) s))
  /\ (forall m, next b = Rejected m ->
        status (assign_all (settled b) s) = failed
        /\ progress (assign_all (settled b) s) = 0%Z).
Proof.
  intros Hs Hp. destruct s. cbn in Hs, Hp. subst. cbn zeta.
  unfold processSession_start.
  destruct (has_key env); cbn [negb];
    [destruct (existsSync env (audioPath s0)); cbn [negb]|]; machine.
Qed.

(** The block after the transcript, on a session at processing and 10. *)
Lemma transcribed_machine answer now s :
  status s = processing -> progress s = 10%Z ->
  let b := processSession_transcribed answer now in
  chain (fun x y => status_step (status x) (status y)) s (trace (settled b) s)
  /\ Forall (fun x => progress_value (progress x)) (trace (settled b) s)
  /\ ((forall m, next b <> Rejected m) ->
      chain (fun x y => (progress x <= progress y)%Z) s (trace (settled b) s))
  /\ (forall m, next b = Rejected m ->
        status (assign_all (settled b) s) = failed
        /\ progress (assign_all (settled b) s) = 0%Z).
Proof.
  intros Hs Hp. destruct s. cbn in Hs, Hp. subst. cbn zeta.
  unfold processSession_transcribed.
  destruct answer as [text|m]; [|machine]. cbn zeta.
  destruct (too_short (transcript_of text)); machine.
Qed.

(** The block after the insights, on a session at transcribed and 60. *)
Lemma insights_machine answer now s :
  status s = transcribed -> progress s = 60%Z ->
  let b := processSession_insights answer now in
  chain (fun x y => status_step (status x) (status y)) s (trace (settled b) s)
  /\ Forall (fun x => progress_value (progress x)) (trace (settled b) s)
  /\ ((forall m, next b <> Rejected m) ->
      chain (fun x y => (progress x <= progress y)%Z) s (trace (settled b) s))
  /\ (forall m, next b = Rejected m ->
        status (assign_all (settled b) s) = failed
        /\ progress (assign_all (settled b) s) = 0%Z).
Proof.
  intros Hs Hp. destruct s. cbn in Hs, Hp. subst. cbn zeta.
  unfold processSession_insights.
  destruct answer as [response|m]; [|machine].
  destruct (insights_of_completion response) as [v|m]; machine.
Qed.

(** C3, as amended. As long as no reprocessing is asked for while a
    run on the same session is in flight, every step of the server
    either changes no session, or executes one block of one run on one
    session of the registry and changes no other. The block finds the
    session where the run left it (processing at 10 when the transcript
    arrives, transcribed at 60 when the insights arrive), or where the
    handler that starts the run has just put it (processing at 0: a new
    session, or one that was ready or failed and is cleared). Along the
    assignments of the block, with those of the caller's handler when it
    rejects, the status only goes from processing to transcribed, from
    transcribed to ready, or from anything to failed; the progress is 0,
    10, 60 or 100; it never decreases unless the run fails, and then the
    session ends failed at 0. *)
Theorem run_state_machine evs srv ev srv' :
  exec_without_overlap evs initial = Some srv ->
  allowed srv ev = true ->
  step srv ev = Some srv' ->
  match run_block srv ev with
  | None => heap srv' = heap srv
  | Some (a, s, b) =>
      heap srv' !! a = Some (assign_all (settled b) s)
      /\ (forall a', a' <> a -> heap srv' !! a' = heap srv !! a')
      /\ match ev with
         | PostSession _ _ _ _ =>
             heap srv !! a = None
             /\ status s = processing /\ progress s = 0%Z
         | PostReprocess _ _ =>
             (exists s0, heap srv !! a = Some s0 /\ s = assign_all reset s0
                         /\ (status s0 = ready \/ status s0 = failed))
             /\ status s = processing /\ progress s = 0%Z
         | TranscriptionAnswers _ _ _ =>
             heap srv !! a = Some s
             /\ status s = processing /\ progress s = 10%Z
         | CompletionAnswers _ _ _ =>
             heap srv !! a = Some s
             /\ status s = transcribed /\ progress s = 60%Z
         end
      /\ chain (fun x y => status_step (status x) (status y)) s
           (trace (settled b) s)
      /\ Forall (fun x => progress_value (progress x)) (trace (settled b) s)
      /\ ((forall m, next b <> Rejected m) ->
          chain (fun x y => (progress x <= progress y)%Z) s
            (trace (settled b) s))
      /\ (forall m, next b = Rejected m ->
            status (assign_all (settled b) s) = failed
            /\ progress (assign_all (settled b) s) = 0%Z)
  end.
Proof.
  intros Hexec Ha Hstep.
  destruct (exec_without_overlap_in_step _ _ _ initial_at_rest
              initial_in_step Hexec) as [I (J1 & J2 & J3)].
  pose proof I as (I1 & I2 & I3 & I4 & I5).
  destruct ev as [env req stamp iso|env sid|k answer now|k answer now];
    cbn [step allowed run_block] in *.
  - (* a new session *)
    injection Hstep as <-. unfold post_session.
    destruct (file req) as [[path filename]|]; [|reflexivity].
    cbv zeta.
    set (s0 := new_session req path filename stamp iso).
    set (srv1 := {| heap := heap srv ++ [s0];
                    DB := <[id s0 := length (heap srv)]> (DB srv);
                    tasks := tasks srv; log := log srv |}).
    assert (H0 : heap srv1 !! length (heap srv) = Some s0).
    { cbn [heap srv1]. rewrite lookup_app_r by lia.
      now rewrite Nat.sub_diag. }
    assert (F : find srv1 (id s0) = Some (length (heap srv), s0)).
    { unfold find. cbn [DB srv1]. rewrite lookup_insert_eq. now rewrite H0. }
    unfold started, launch. rewrite F. cbn [heap].
    rewrite (apply_block_same _ _ _ _ H0).
    pose proof (lookup_lt_Some _ _ _ H0) as Hlt.
    split; [now apply list_lookup_insert_eq|].
    split.
    { intros a' Hne. rewrite list_lookup_insert_ne by easy. cbn [heap srv1].
      destruct (decide (a' < length (heap srv))) as [Hl|Hl].
      - now rewrite lookup_app_l.
      - rewrite !lookup_ge_None_2; [reflexivity|lia|].
        rewrite length_app. cbn. lia. }
    split; [split; [apply lookup_ge_None_2; lia|now split]|].
    now apply (start_machine env s0 s0).
  - (* reprocessing *)
    injection Hstep as <-. unfold post_reprocess.
    destruct (find srv sid) as [[a s0]|] eqn:Hfind; [|reflexivity].
    pose proof (reprocess_finds_session _ _ _ _ I5 Hfind) as Hfound.
    unfold started, launch. rewrite Hfound. cbn [heap].
    unfold find in Hfind.
    destruct (DB srv !! sid) as [a0|] eqn:Hdb; [|discriminate].
    destruct (heap srv !! a0) as [x0|] eqn:Hs; [|discriminate].
    injection Hfind as -> ->. apply negb_true_iff in Ha.
    pose proof (lookup_lt_Some _ _ _ Hs) as Hlt.
    assert (H1 : update a reset (heap srv) !! a = Some (assign_all reset s0)).
    { rewrite (update_eq _ _ _ _ Hs). now apply list_lookup_insert_eq. }
    rewrite (apply_block_same _ _ _ _ H1).
    split; [apply list_lookup_insert_eq; now rewrite update_length|].
    split.
    { intros a' Hne. rewrite list_lookup_insert_ne by easy.
      now apply update_ne. }
    split.
    { split; [|now destruct s0].
      exists s0. split; [easy|]. split; [easy|].
      destruct (status s0) eqn:St; auto; exfalso;
        (destruct (J3 a s0 Hs) as (t & Ht & E); [rewrite St; auto|]);
        exact (busy_false _ _ Ha t Ht E). }
    apply (start_machine env (assign_all reset s0) (assign_all reset s0));
      now destruct s0.
  - (* a transcript arrives *)
    destruct (tasks srv !! k) as [t|] eqn:Hk; [|discriminate].
    destruct (waits t) eqn:W; [|discriminate]. injection Hstep as <-.
    pose proof (list_elem_of_lookup_2 _ _ _ Hk) as Hin.
    destruct (I3 t Hin) as [Hlt Hown].
    destruct (lookup_lt_is_Some_2 _ _ Hlt) as [s Hs].
    unfold resumed. rewrite Hs. unfold continue. cbn [heap].
    rewrite Hown, (apply_block_same _ _ _ _ Hs).
    pose proof (J2 t s Hin Hs) as St. rewrite W in St. cbn in St.
    pose proof (J1 _ _ Hs) as O. unfold observed in O. rewrite St in O.
    destruct O as (Pr & _).
    split; [now apply list_lookup_insert_eq|].
    split; [intros a' Hne; now rewrite list_lookup_insert_ne|].
    split; [easy|]. now apply transcribed_machine.
  - (* insights arrive *)
    destruct (tasks srv !! k) as [t|] eqn:Hk; [|discriminate].
    destruct (waits t) eqn:W; [discriminate|]. injection Hstep as <-.
    pose proof (list_elem_of_lookup_2 _ _ _ Hk) as Hin.
    destruct (I3 t Hin) as [Hlt Hown].
    destruct (lookup_lt_is_Some_2 _ _ Hlt) as [s Hs].
    unfold resumed. rewrite Hs. unfold continue. cbn [heap].
    rewrite Hown, (apply_block_same _ _ _ _ Hs).
    pose proof (J2 t s Hin Hs) as St. rewrite W in St. cbn in St.
    pose proof (J1 _ _ Hs) as O. unfold observed in O. rewrite St in O.
    destruct O as (Pr & _).
    split; [now apply list_lookup_insert_eq|].
    split; [intros a' Hne; now rewrite list_lookup_insert_ne|].
    split; [easy|]. now apply insights_machine.
Qed.

Lemma run_state_machine_witness :
  exists srv srv' a s b,
    exec_without_overlap awaiting_insights initial = Some srv
    /\ step srv (CompletionAnswers 0 (Ok [Some insights_text])
                   (js "2023-11-14T22:13:30.000Z")) = Some srv'
    /\ run_block srv (CompletionAnswers 0 (Ok [Some insights_text])
                        (js "2023-11-14T22:13:30.000Z")) = Some (a, s, b)
    /\ heap srv' !! a = Some (assign_all (settled b) s)
    /\ status s = transcribed
    /\ chain (fun x y => status_step (status x) (status y)) s
         (trace (settled b) s)
    /\ chain (fun x y => (progress x <= progress y)%Z) s
         (trace (settled b) s).
Proof.
  set (ev := CompletionAnswers 0 (Ok [Some insights_text])
               (js "2023-11-14T22:13:30.000Z")).
  destruct (exec_without_overlap awaiting_insights initial) as [srv|] eqn:E;
    [|vm_compute in E; discriminate E].
  destruct (step srv ev) as [srv'|] eqn:S;
    [|vm_compute in E; injection E as <-; vm_compute in S; discriminate S].
  pose proof (run_state_machine awaiting_insights srv ev srv' E eq_refl S)
    as H.
  destruct (run_block srv ev) as [[[a s] b]|] eqn:R;
    [|vm_compute in E; injection E as <-; vm_compute in R; discriminate R].
  destruct H as (H1 & _ & (_ & H3 & _) & H4 & _ & H6 & _).
  exists srv, srv', a, s, b. repeat (split; [easy|]).
  apply H6. intros m Hm.
  vm_compute in E. injection E as <-. vm_compute in R.
  injection R as <- <- <-. discriminate Hm.
Defined.

(** C3, as stated, fails: reprocessing is asked for while the first run
    awaits its insights, and the first run then ends. When the
    transcript of the second run arrives, the block that stores it finds
    the session ready at 100 and takes it to transcribed at 60; that run
    goes on and succeeds. *)
Lemma overlapping_run_steps_back :
  exists srv s b srv2 s2,
    exec (take 4 overlapping) initial = Some srv
    /\ run_block srv (TranscriptionAnswers 0 (Ok lecture)
                        (js "2023-11-14T22:13:31.000Z")) = Some (0, s, b)
    /\ status s = ready /\ progress s = 100%Z
    /\ next b = Suspended AwaitInsights
    /\ status (assign_all (settled b) s) = transcribed
    /\ progress (assign_all (settled b) s) = 60%Z
    /\ ~ chain (fun x y => status_step (status x) (status y)) s
           (trace (settled b) s)
    /\ ~ chain (fun x y => (progress x <= progress y)%Z) s
           (trace (settled b) s)
    /\ exec overlapping_to_the_end initial = Some srv2
    /\ tasks srv2 = []
    /\ get_session srv2 session_id = Some s2
    /\ status s2 = ready.
Proof.
  eexists _, _, _, _, _. split; [vm_compute; reflexivity|].
  split; [vm_compute; reflexivity|].
  split; [reflexivity|]. split; [reflexivity|]. split; [reflexivity|].
  split; [reflexivity|]. split; [reflexivity|].
  split.
  { intros H. vm_compute in H.
    destruct H as (_ & _ & [H|[[H _]|[[H _]|H]]] & _); discriminate H. }
  split.
  { intros H. vm_compute in H. destruct H as (_ & H & _).
    apply H. reflexivity. }
  split; [vm_compute; reflexivity|].
  split; [reflexivity|]. split; [vm_compute; reflexivity|]. reflexivity.
Qed.

End SessionStateMachine.

(** ** What holds in every execution, overlapping runs or not *)

Section EveryExecution.
Import Shapes Endpoints OutlineRoute Examples MoreExamples.

Lemma assign_sound w s : benign w -> sound s -> sound (assign w s).
Proof.
  intros B (S1 & S2 & S3). destruct s, w; cbn in *; (split; [|split]); easy.
Qed.

Lemma assign_all_sound ws s :
  Forall benign ws -> sound s -> sound (assign_all ws s).
Proof.
  unfold assign_all. intros F. revert s.
  induction F as [|w ws B F IH]; intros s S; [easy|].
  cbn. apply IH. now apply assign_sound.
Qed.

Lemma update_sound a ws h :
  Forall benign ws -> Forall sound h -> Forall sound (update a ws h).
Proof.
  intros B F. unfold update. destruct (h !! a) as [s|] eqn:Hs; [|easy].
  apply Forall_insert; [easy|]. apply assign_all_sound; [easy|].
  now apply (Forall_lookup_1 _ _ _ _ F Hs).
Qed.

Lemma on_rejection_benign m : Forall benign (on_rejection m).
Proof.
  unfold on_rejection.
  repeat apply Stdlib.Lists.List.Forall_cons; try easy;
    try apply Stdlib.Lists.List.Forall_nil.
  cbn. unfold progress_value. auto.
Qed.

Lemma reset_benign : Forall benign reset.
Proof.
  unfold reset.
  repeat apply Stdlib.Lists.List.Forall_cons; try easy;
    try apply Stdlib.Lists.List.Forall_nil; cbn; auto.
  unfold progress_value. auto.
Qed.

Lemma start_benign env s : Forall benign (writes (processSession_start env s)).
Proof.
  assert (F : Forall benign [set_progress 10; set_status processing]).
  { repeat apply Stdlib.Lists.List.Forall_cons; try easy;
      try apply Stdlib.Lists.List.Forall_nil.
    cbn. unfold progress_value. auto. }
  unfold processSession_start.
  destruct (negb (has_key env)); [easy|].
  now destruct (negb (existsSync env (audioPath s))).
Qed.

Lemma transcribed_benign answer now :
  Forall benign (writes (processSession_transcribed answer now)).
Proof.
  unfold processSession_transcribed.
  destruct answer as [text|m]; [|apply Stdlib.Lists.List.Forall_nil].
  cbn zeta.
  destruct (too_short (transcript_of text)); cbn [writes app];
    repeat apply Stdlib.Lists.List.Forall_cons;
    try apply Stdlib.Lists.List.Forall_nil; try exact I;
    try (cbn; unfold progress_value; auto; fail).
  - apply trim_idempotent.
  - apply trim_idempotent.
Qed.

Lemma insights_benign answer now :
  Forall benign (writes (processSession_insights answer now)).
Proof.
  unfold processSession_insights.
  destruct answer as [response|m]; [|apply Stdlib.Lists.List.Forall_nil].
  destruct (insights_of_completion response) as [v|m] eqn:E;
    [|apply Stdlib.Lists.List.Forall_nil].
  apply insights_result_has_shape in E. cbn [writes].
  repeat apply Stdlib.Lists.List.Forall_cons;
    try apply Stdlib.Lists.List.Forall_nil; try exact I.
  - cbn. right. right. now exists v.
  - cbn. unfold progress_value. auto.
Qed.

Lemma apply_block_sound a o b h :
  Forall benign (writes b) -> Forall sound h ->
  Forall sound (apply_block a o b h).
Proof.
  intros B F. unfold apply_block.
  pose proof (update_sound a _ _ B F) as F1.
  destruct (next b); try easy.
  apply update_sound; [apply on_rejection_benign|easy].
Qed.

Lemma launch_sound env o sid srv :
  Forall sound (heap srv) -> Forall sound (heap (launch env o sid srv)).
Proof.
  intros F. unfold launch. destruct (find srv sid) as [[a s]|]; cbn [heap].
  - apply apply_block_sound; [apply start_benign|easy].
  - apply update_sound; [apply on_rejection_benign|easy].
Qed.

Lemma step_sound srv ev srv' :
  Forall sound (heap srv) -> step srv ev = Some srv' ->
  Forall sound (heap srv').
Proof.
  intros F Hstep.
  destruct ev as [env req stamp iso|env sid|k answer now|k answer now];
    cbn [step] in Hstep.
  - injection Hstep as <-. unfold post_session.
    destruct (file req) as [[path filename]|]; [|easy].
    apply launch_sound. cbn [heap]. apply Forall_app. split; [easy|].
    apply Stdlib.Lists.List.Forall_cons;
      [|apply Stdlib.Lists.List.Forall_nil].
    (split; [|split]); cbn; unfold progress_value; auto.
  - injection Hstep as <-. unfold post_reprocess.
    destruct (find srv sid) as [[a s]|]; [|easy].
    apply launch_sound. cbn [heap].
    apply update_sound; [apply reset_benign|easy].
  - destruct (tasks srv !! k) as [t|]; [|discriminate].
    destruct (waits t); [|discriminate]. injection Hstep as <-.
    cbn [continue heap].
    apply apply_block_sound; [apply transcribed_benign|easy].
  - destruct (tasks srv !! k) as [t|]; [|discriminate].
    destruct (waits t); [discriminate|]. injection Hstep as <-.
    cbn [continue heap].
    apply apply_block_sound; [apply insights_benign|easy].
Qed.

Lemma exec_sound evs srv srv' :
  Forall sound (heap srv) -> exec evs srv = Some srv' ->
  Forall sound (heap srv').
Proof.
  revert srv. induction evs as [|ev evs IH]; intros srv F H; cbn in H.
  - now injection H as <-.
  - destruct (step srv ev) as [srv1|] eqn:Hs; [|discriminate].
    apply (IH srv1); [|exact H]. eapply step_sound; eauto.
Qed.

(** X20. In every execution, overlapping runs or not, the progress of a
    session is 0, 10, 60 or 100, its transcript has no white space at
    either end, and its insights are null, the fixed fallback, or of the
    shape the schema accepts. *)
Theorem sessions_are_sound evs srv sid s :
  exec evs initial = Some srv ->
  get_session srv sid = Some s ->
  progress_value (progress s)
  /\ trim (transcript s) = transcript s
  /\ (insights s = None \/ insights s = Some fallback_insights
      \/ exists v, insights s = Some v /\ insights_shape v).
Proof.
  intros Hexec Hget.
  assert (F : Forall sound (heap srv)).
  { apply (exec_sound evs initial); [apply Forall_nil_2|easy]. }
  unfold get_session, find in Hget.
  destruct (DB srv !! sid) as [a|]; [|discriminate].
  destruct (heap srv !! a) as [s0|] eqn:Hs; [|discriminate].
  cbn in Hget. injection Hget as ->.
  exact (Forall_lookup_1 _ _ _ _ F Hs).
Qed.

Lemma sessions_are_sound_witness :
  exists srv s,
    exec overlapping initial = Some srv
    /\ get_session srv session_id = Some s
    /\ progress_value (progress s)
    /\ trim (transcript s) = transcript s.
Proof.
  destruct (exec overlapping initial) as [srv|] eqn:E;
    [|vm_compute in E; discriminate E].
  destruct (get_session srv session_id) as [s|] eqn:G.
  - exists srv, s. split; [reflexivity|]. split; [exact G|].
    destruct (sessions_are_sound overlapping srv session_id s E G)
      as (H1 & H2 & _).
    now split.
  - exfalso. vm_compute in E. injection E as <-. vm_compute in G.
    discriminate G.
Defined.

(** *** The registry *)

Lemma keyed_update srv a ws tk lg :
  keyed_by_id srv ->
  keyed_by_id {| heap := update a ws (heap srv); DB := DB srv;
                 tasks := tk; log := lg |}.
Proof.
  intros K. unfold update. destruct (heap srv !! a) as [s|] eqn:Hs.
  - eapply keyed_by_id_insert; eauto. apply assign_all_identity.
  - exact K.
Qed.

Lemma keyed_apply_block srv a o b tk lg :
  keyed_by_id srv ->
  keyed_by_id {| heap := apply_block a o b (heap srv); DB := DB srv;
                 tasks := tk; log := lg |}.
Proof.
  intros K. unfold apply_block.
  pose proof (keyed_update srv a (writes b) tk lg K) as K1.
  destruct (next b) as [w| |m]; try exact K1.
  exact (keyed_update _ o (on_rejection m) tk lg K1).
Qed.

Lemma launch_keyed env o sid srv :
  keyed_by_id srv -> keyed_by_id (launch env o sid srv).
Proof.
  intros K. unfold launch. destruct (find srv sid) as [[a s]|].
  - now apply keyed_apply_block.
  - now apply keyed_update.
Qed.

Lemma launch_DB env o sid srv : DB (launch env o sid srv) = DB srv.
Proof. unfold launch. now destruct (find srv sid) as [[a s]|]. Qed.

Lemma stored_keyed srv s :
  keyed_by_id srv ->
  keyed_by_id {| heap := heap srv ++ [s];
                 DB := <[id s := length (heap srv)]> (DB srv);
                 tasks := tasks srv; log := log srv |}.
Proof.
  intros K sid a Hl. cbn [heap DB] in *.
  destruct (decide (id s = sid)) as [<-|Hne].
  - rewrite lookup_insert_eq in Hl. injection Hl as <-.
    exists s. split; [|easy].
    rewrite lookup_app_r by lia. now rewrite Nat.sub_diag.
  - rewrite lookup_insert_ne in Hl by easy.
    destruct (K sid a Hl) as (s0 & H0 & E0). exists s0. split; [|easy].
    rewrite lookup_app_l; [easy|]. now apply lookup_lt_Some in H0.
Qed.

Lemma step_keyed srv ev srv' :
  keyed_by_id srv -> step srv ev = Some srv' -> keyed_by_id srv'.
Proof.
  intros K Hstep.
  destruct ev as [env req stamp iso|env sid|k answer now|k answer now];
    cbn [step] in Hstep.
  - injection Hstep as <-. unfold post_session.
    destruct (file req) as [[path filename]|]; [|easy].
    apply launch_keyed. now apply stored_keyed.
  - injection Hstep as <-. unfold post_reprocess.
    destruct (find srv sid) as [[a s]|]; [|easy].
    apply launch_keyed. now apply keyed_update.
  - destruct (tasks srv !! k) as [t|]; [|discriminate].
    destruct (waits t); [|discriminate]. injection Hstep as <-.
    now apply keyed_apply_block.
  - destruct (tasks srv !! k) as [t|]; [|discriminate].
    destruct (waits t); [discriminate|]. injection Hstep as <-.
    now apply keyed_apply_block.
Qed.

Lemma exec_keyed evs srv srv' :
  keyed_by_id srv -> exec evs srv = Some srv' -> keyed_by_id srv'.
Proof.
  revert srv. induction evs as [|ev evs IH]; intros srv K H; cbn in H.
  - now injection H as <-.
  - destruct (step srv ev) as [srv1|] eqn:Hs; [|discriminate].
    apply (IH srv1); [|exact H]. eapply step_keyed; eauto.
Qed.

Lemma initial_keyed : keyed_by_id initial.
Proof. intros sid a H. cbn in H. now rewrite lookup_empty in H. Qed.

(** What a step does to the registry: nothing, or one entry is set. *)
Lemma step_DB srv ev srv' :
  step srv ev = Some srv' ->
  DB srv'
  = match ev with
    | PostSession _ req stamp _ =>
        match file req with
        | Some _ => <[js "sess-" ++ stamp := length (heap srv)]> (DB srv)
        | None => DB srv
        end
    | _ => DB srv
    end.
Proof.
  intros Hstep.
  destruct ev as [env req stamp iso|env sid|k answer now|k answer now];
    cbn [step] in Hstep.
  - injection Hstep as <-. unfold post_session.
    destruct (file req) as [[path filename]|]; [|easy].
    now rewrite launch_DB.
  - injection Hstep as <-. unfold post_reprocess.
    destruct (find srv sid) as [[a s]|]; [|easy]. now rewrite launch_DB.
  - destruct (tasks srv !! k) as [t|]; [|discriminate].
    destruct (waits t); [|discriminate]. now injection Hstep as <-.
  - destruct (tasks srv !! k) as [t|]; [|discriminate].
    destruct (waits t); [discriminate|]. now injection Hstep as <-.
Qed.



Lemma get_session_found srv (sid : jsstring) a s :
  DB srv !! sid = Some a -> heap srv !! a = Some s ->
  get_session srv sid = Some s.
Proof. intros H1 H2. unfold get_session, find. now rewrite H1, H2. Qed.





(** X22. The number the count route gives goes up by one when a
    recording is uploaded under an id not yet in the registry, and is
    left as it is by every other step: an upload without a file, an
    upload whose id is taken (it replaces that entry), a reprocessing,
    and what the runs do. *)
Theorem count_after_step srv ev srv' :
  step srv ev = Some srv' ->
  sessions_count srv'
  = sessions_count srv
    + match ev with
      | PostSession _ req stamp _ =>
          match file req, DB srv !! (js "sess-" ++ stamp) with
          | Some _, None => 1
          | _, _ => 0
          end
      | _ => 0
      end.
Proof.
  intros Hstep. unfold sessions_count. rewrite (step_DB _ _ _ Hstep).
  destruct ev as [env req stamp iso| | |]; try lia.
  destruct (file req); [|lia]. rewrite map_size_insert.
  destruct (DB srv !! (js "sess-" ++ stamp)); cbn; lia.
Qed.

Lemma count_after_step_witness :
  sessions_count one_session = 1
  /\ sessions_count
       (post_session env_ok upload_ok (js "1700000000000")
          (js "2023-11-14T22:13:21.000Z") one_session) = 1.
Proof.
  split.
  - exact (count_after_step initial
             (PostSession env_ok upload_ok (js "1700000000000")
                (js "2023-11-14T22:13:20.000Z")) _ eq_refl).
  - exact (count_after_step one_session
             (PostSession env_ok upload_ok (js "1700000000000")
                (js "2023-11-14T22:13:21.000Z")) _ eq_refl).
Defined.

(** *** What the handlers answer *)

Lemma start_writes env s :
  writes (processSession_start env s) = [set_progress 10; set_status processing].
Proof.
  unfold processSession_start. destruct (negb (has_key env)); [easy|].
  now destruct (negb (existsSync env (audioPath s))).
Qed.

(** The session a handler holds, when it writes its reply. *)
Lemma heap_at_reply_held env sid srv a s :
  heap srv !! a = Some s -> status s = processing ->
  exists s1, heap_at_reply env sid srv !! a = Some s1
             /\ status s1 = processing /\ same_identity s s1.
Proof.
  intros Hs Hst. unfold heap_at_reply.
  assert (R : same_identity s s) by now repeat split.
  destruct (find srv sid) as [[a' x]|] eqn:F; [|now exists s].
  unfold find in F. destruct (DB srv !! sid) as [a0|]; [|discriminate].
  destruct (heap srv !! a0) as [x0|] eqn:Hx; [|discriminate].
  injection F as -> ->. rewrite (update_eq _ _ _ _ Hx).
  destruct (decide (a' = a)) as [->|Hne].
  - rewrite list_lookup_insert_eq by now apply lookup_lt_Some in Hx.
    rewrite Hs in Hx. injection Hx as <-. eexists. split; [reflexivity|].
    split; [|apply assign_all_identity].
    rewrite start_writes. now destruct s.
  - rewrite list_lookup_insert_ne by easy. now exists s.
Qed.

(** X23. An upload with a file leaves, under the id made of the time of
    the request, a session that holds the uploaded file and the title and
    event of the request. It is processing at 10 if the key is set and
    the file exists, and failed at 0 otherwise, whatever was registered
    under that id before. *)
Theorem upload_then_get env req stamp iso srv path filename :
  file req = Some (path, filename) ->
  exists s,
    get_session (post_session env req stamp iso srv) (js "sess-" ++ stamp)
    = Some s
    /\ same_identity (new_session req path filename stamp iso) s
    /\ status s
       = (if has_key env && existsSync env path then processing else failed)
    /\ progress s
       = (if has_key env && existsSync env path then 10 else 0)%Z
    /\ transcript s = [] /\ insights s = None.
Proof.
  intros Hf. unfold post_session. rewrite Hf.
  set (s0 := new_session req path filename stamp iso).
  set (srv1 := {| heap := heap srv ++ [s0];
                  DB := <[id s0 := length (heap srv)]> (DB srv);
                  tasks := tasks srv; log := log srv |}).
  assert (H0 : heap srv1 !! length (heap srv) = Some s0).
  { cbn [heap srv1]. rewrite lookup_app_r by lia. now rewrite Nat.sub_diag. }
  assert (F : find srv1 (id s0) = Some (length (heap srv), s0)).
  { unfold find. cbn [DB srv1]. rewrite lookup_insert_eq. now rewrite H0. }
  exists (assign_all (settled (processSession_start env s0)) s0).
  split; [|split; [apply assign_all_identity|]].
  - apply (get_session_found _ _ (length (heap srv))).
    + rewrite launch_DB. cbn [DB srv1]. apply lookup_insert_eq.
    + unfold launch. rewrite F. cbn [heap].
      rewrite (apply_block_same _ _ _ _ H0).
      apply list_lookup_insert_eq. now apply lookup_lt_Some in H0.
  - unfold processSession_start. change (audioPath s0) with path.
    destruct (has_key env); cbn [negb andb];
      [destruct (existsSync env path); cbn [negb]|];
      now cbn -[js or_else].
Qed.

Lemma upload_then_get_witness :
  exists s,
    get_session one_session session_id = Some s
    /\ status s = processing /\ progress s = 10%Z.
Proof.
  destruct (upload_then_get env_ok upload_ok (js "1700000000000")
              (js "2023-11-14T22:13:20.000Z") initial
              (js "/srv/uploads/1-a.wav") (js "1-a.wav") eq_refl)
    as (s & G & _ & H1 & H2 & _).
  exists s. split; [exact G|]. split; [exact H1|exact H2].
Defined.

(** X24. The reply to an upload is 400 without a file and otherwise 201
    with the new id, the title and event stored, and the status
    processing: the reply is written before the handler of a failed run
    runs, so it says processing even when the run has already failed. *)
Theorem upload_reply env req stamp iso srv :
  post_session_reply env req stamp iso srv
  = match file req with
    | None =>
        {| code := 400; body := error_body (js "No audio file received") |}
    | Some (path, filename) =>
        {| code := 201;
           body :=
             JObj [ (js "id", JStr (js "sess-" ++ stamp));
                    (js "status", JStr (js "processing"));
                    (js "eventId",
                      nullable_string
                        (eventId (new_session req path filename stamp iso)));
                    (js "title",
                      JStr (title (new_session req path filename stamp iso)))
                  ] |}
    end.
Proof.
  unfold post_session_reply. destruct (file req) as [[path filename]|]; [|easy].
  set (s0 := new_session req path filename stamp iso).
  set (srv1 := {| heap := heap srv ++ [s0];
                  DB := <[id s0 := length (heap srv)]> (DB srv);
                  tasks := tasks srv; log := log srv |}).
  assert (H0 : heap srv1 !! length (heap srv) = Some s0).
  { cbn [heap srv1]. rewrite lookup_app_r by lia. now rewrite Nat.sub_diag. }
  destruct (heap_at_reply_held env (id s0) srv1 _ s0 H0 eq_refl)
    as (s1 & H1 & St & (I1 & _ & I3 & I4 & _)).
  cbn zeta. rewrite H1. change (default s0 (Some s1)) with s1.
  now rewrite St, I1, I3, I4.
Qed.

(** X25. The reply to a reprocessing of an id of the registry is 200
    with that id and the status processing, whatever the start of the
    new run did. Every other id gets the 404, unless it is one of the
    names that the prototype of the registry object has or can come to
    have, which are not modelled. *)
Theorem reprocess_reply env sid srv :
  reprocess_route env sid srv
  = match find srv sid with
    | Some (a, s) =>
        Answer
          {| code := 200;
             body := JObj [ (js "id", JStr (id s));
                            (js "status", JStr (js "processing")) ] |}
    | None => if inherited sid then Inherited else NotFound
    end.
Proof.
  unfold reprocess_route, DB_sessions_at.
  destruct (find srv sid) as [[a s]|] eqn:F;
    [|now destruct (inherited sid)].
  unfold find in F. destruct (DB srv !! sid) as [a0|]; [|discriminate].
  destruct (heap srv !! a0) as [x0|] eqn:Hx; [|discriminate].
  injection F as -> ->.
  set (srv1 := {| heap := update a reset (heap srv); DB := DB srv;
                  tasks := tasks srv; log := log srv |}).
  assert (H0 : heap srv1 !! a = Some (assign_all reset s)).
  { cbn [heap srv1]. rewrite (update_eq _ _ _ _ Hx).
    apply list_lookup_insert_eq. now apply lookup_lt_Some in Hx. }
  assert (St0 : status (assign_all reset s) = processing) by now destruct s.
  destruct (heap_at_reply_held env (id s) srv1 _ _ H0 St0)
    as (s1 & H1 & St & (I1 & _)).
  cbn zeta. rewrite H1. change (default s (Some s1)) with s1.
  rewrite St, I1. now destruct s.
Qed.

(** *** The requests sent *)

Lemma expected_kept h h' c :
  (forall a s, h !! a = Some s ->
     exists s', h' !! a = Some s' /\ same_identity s s') ->
  expected h c -> expected h' c.
Proof.
  intros K. destruct c as [p|t|t]; cbn; try easy.
  intros (a & s & Hs & E). destruct (K a s Hs) as (s' & Hs' & I).
  exists a, s'. split; [easy|]. destruct I as (_ & I & _). congruence.
Qed.

Lemma launch_log env o sid srv :
  exists new, log (launch env o sid srv) = log srv ++ new
              /\ Forall (expected (heap (launch env o sid srv))) new.
Proof.
  unfold launch. destruct (find srv sid) as [[a s]|] eqn:F; cbn [log heap].
  - exists (calls (processSession_start env s)). split; [easy|].
    unfold find in F. destruct (DB srv !! sid) as [a0|]; [|discriminate].
    destruct (heap srv !! a0) as [x0|] eqn:Hx; [|discriminate].
    injection F as -> ->.
    destruct (apply_block_identity a o (processSession_start env s) _ a s Hx)
      as (s' & Hs' & (_ & I & _)).
    assert (C : calls (processSession_start env s) = []
                \/ calls (processSession_start env s)
                   = [Transcription (audioPath s)]).
    { unfold processSession_start. destruct (negb (has_key env)); [now left|].
      destruct (negb (existsSync env (audioPath s))); [now left|now right]. }
    destruct C as [->| ->]; [apply Forall_nil_2|].
    apply Forall_singleton. now exists a, s'.
  - exists []. split; [now rewrite app_nil_r|apply Forall_nil_2].
Qed.

Lemma step_log srv ev srv' :
  step srv ev = Some srv' ->
  exists new, log srv' = log srv ++ new
              /\ Forall (expected (heap srv')) new.
Proof.
  intros Hstep.
  destruct ev as [env req stamp iso|env sid|k answer now|k answer now];
    cbn [step] in Hstep.
  - injection Hstep as <-. unfold post_session.
    destruct (file req) as [[path filename]|].
    + match goal with
      | |- context [launch ?e ?o ?i ?r] => exact (launch_log e o i r)
      end.
    + exists []. split; [now rewrite app_nil_r|apply Forall_nil_2].
  - injection Hstep as <-. unfold post_reprocess.
    destruct (find srv sid) as [[a s]|].
    + match goal with
      | |- context [launch ?e ?o ?i ?r] => exact (launch_log e o i r)
      end.
    + exists []. split; [now rewrite app_nil_r|apply Forall_nil_2].
  - destruct (tasks srv !! k) as [t|]; [|discriminate].
    destruct (waits t); [|discriminate]. injection Hstep as <-.
    cbn [continue log heap].
    exists (calls (processSession_transcribed answer now)).
    split; [easy|]. unfold processSession_transcribed.
    destruct answer as [text|m]; [|apply Forall_nil_2]. cbn zeta.
    destruct (too_short (transcript_of text)) eqn:S; [apply Forall_nil_2|].
    apply Forall_singleton. cbn [calls expected].
    split; [apply trim_idempotent|].
    rewrite too_short_stored in S. now apply Nat.ltb_ge in S.
  - destruct (tasks srv !! k) as [t|]; [|discriminate].
    destruct (waits t); [discriminate|]. injection Hstep as <-.
    cbn [continue log heap].
    exists []. split; [|apply Forall_nil_2]. f_equal.
    unfold processSession_insights.
    destruct answer as [response|m]; [|easy].
    now destruct (insights_of_completion response).
Qed.

Lemma exec_log evs srv srv' :
  Forall (expected (heap srv)) (log srv) -> exec evs srv = Some srv' ->
  Forall (expected (heap srv')) (log srv').
Proof.
  revert srv. induction evs as [|ev evs IH]; intros srv F H; cbn in H.
  - now injection H as <-.
  - destruct (step srv ev) as [srv1|] eqn:Hs; [|discriminate].
    apply (IH srv1); [|exact H].
    destruct (step_log _ _ _ Hs) as (new & -> & N).
    apply Forall_app. split; [|easy].
    eapply Forall_impl; [exact F|]. intros c. apply expected_kept.
    intros a s. exact (step_identity _ _ _ a s Hs).
Qed.

(** X26. In every execution, each request the runs have sent is either
    the transcription of the recording of a session there is, or a
    request for insights about a transcript that has no white space at
    either end and 20 characters or more. *)
Theorem requests_are_expected evs srv c :
  exec evs initial = Some srv -> In c (log srv) ->
  match c with
  | Transcription p => exists a s, heap srv !! a = Some s /\ audioPath s = p
  | InsightsCompletion t => trim t = t /\ 20 <= length t
  | OutlineCompletion _ => False
  end.
Proof.
  intros Hexec Hin.
  assert (F : Forall (expected (heap srv)) (log srv)).
  { apply (exec_log evs initial); [apply Forall_nil_2|easy]. }
  rewrite Forall_forall in F. apply (F c). now apply list_elem_of_In.
Qed.

Lemma requests_are_expected_witness :
  exists srv,
    exec overlapping initial = Some srv
    /\ trim lecture = lecture /\ 20 <= length lecture.
Proof.
  destruct (exec overlapping initial) as [srv|] eqn:E;
    [|vm_compute in E; discriminate E].
  exists srv. split; [reflexivity|].
  apply (requests_are_expected overlapping srv (InsightsCompletion lecture) E).
  vm_compute in E. injection E as <-. vm_compute. auto.
Defined.

End EveryExecution.

(** ** The chat route *)

Section SyntraFacts.
Import Endpoints OutlineRoute Syntra Examples MoreExamples.

Lemma filter_sublist {A} (f : A -> bool) (l : list A) :
  sublist (Stdlib.Lists.List.filter f l) l.
Proof.
  induction l as [|x l IH]; cbn; [constructor|].
  destruct (f x); now constructor.
Qed.

Lemma includes_named ids sid :
  includes ids sid = true -> In (JStr sid) ids.
Proof.
  unfold includes. rewrite existsb_exists. intros (v & Hv & E).
  destruct v; try discriminate E. apply jsstring_eqb_eq in E. now subst.
Qed.

Lemma Object_values_registered srv s :
  keyed_by_id srv -> s ∈ Object_values srv ->
  get_session srv (id s) = Some s.
Proof.
  intros K H. unfold Object_values in H.
  apply list_elem_of_omap in H as (sid & _ & G).
  assert (E : id s = sid).
  { unfold get_session, find in G.
    destruct (DB srv !! sid) as [a|] eqn:Hdb; [|discriminate G].
    destruct (K sid a Hdb) as (x & Hx & Hid).
    destruct (heap srv !! a) as [y|]; [|discriminate G].
    cbn in G. injection G as <-. now injection Hx as <-. }
  now rewrite E.
Qed.

(** X27. The chat route asks the completion provider for something only
    if the key is set and the message, made a string, has a character
    that is not white space. The message it sends is the trimmed one;
    the sessions it sends are at most 10 sessions of the registry, each
    the one registered under its id, in the order in which the ids were
    registered, and, when the request names ids, only sessions whose id
    is named. *)
Theorem syntra_request_sent evs srv env req q :
  exec evs initial = Some srv ->
  syntra_request env req srv = inr q ->
  has_key env = true
  /\ q_message q = trim (message req) /\ q_message q <> []
  /\ q_stream q = stream req
  /\ exists sel,
       q_sessions q = map brief_of sel
       /\ sublist sel (Object_values srv) /\ length sel <= 10
       /\ Forall (fun s => get_session srv (id s) = Some s) sel
       /\ (sessionIds req <> [] ->
           Forall (fun s => In (JStr (id s)) (sessionIds req)) sel).
Proof.
  intros Hexec. pose proof (exec_keyed _ _ _ initial_keyed Hexec) as K.
  unfold syntra_request. destruct (has_key env); [|discriminate].
  cbn [negb]. cbn zeta.
  destruct (trim (message req)) as [|c0 t] eqn:T; [discriminate|].
  intros [= <-]. cbn [q_message q_sessions q_stream].
  split; [easy|]. split; [easy|]. split; [easy|]. split; [easy|].
  set (sel := take 10 (Stdlib.Lists.List.filter (chosen (sessionIds req))
                         (Object_values srv))).
  assert (S : sublist sel (Object_values srv)).
  { etransitivity; [apply sublist_take|apply filter_sublist]. }
  exists sel. split; [easy|]. split; [easy|]. split; [|split].
  - unfold sel. rewrite length_take. lia.
  - apply Forall_forall. intros s Hs.
    apply (Object_values_registered _ _ K).
    exact (sublist_subseteq _ _ S s Hs).
  - intros Hne. unfold sel. apply Forall_take. apply Forall_forall.
    intros s Hs. apply list_elem_of_In, filter_In in Hs as [_ Hs].
    unfold chosen in Hs. destruct (sessionIds req) as [|c r]; [easy|].
    now apply includes_named.
Qed.

Lemma syntra_request_sent_witness :
  exists q,
    syntra_request env_ok question one_session = inr q
    /\ q_message q = js "What is photosynthesis?"
    /\ q_sessions q = [brief_of first_session].
Proof.
  destruct (syntra_request env_ok question one_session) as [r|q] eqn:E;
    [vm_compute in E; discriminate E|].
  exists q. split; [reflexivity|].
  destruct (syntra_request_sent
              [PostSession env_ok upload_ok (js "1700000000000")
                 (js "2023-11-14T22:13:20.000Z")]
              one_session env_ok question q eq_refl E)
    as (_ & M & _).
  split; [rewrite M; now vm_compute|].
  vm_compute in E. now injection E as <-.
Defined.

End SyntraFacts.
